(** * YourDrawingsSuck.AI: the sketch classifier of [app.js]

    A shallow embedding of the latest variant of [app.js] (the one with
    [cosineDistance], [buildPrototypes] and the meaningful-drawing gate) and
    the properties its specification states about it.

    Modelling conventions.
    - The program is embedded three times.  In the main development a
      JavaScript number is a real number, and the results are those of
      exact arithmetic; where a result needs [Math.log] to be a number it
      says so ([logDefined], which every feature bundle the program
      computes satisfies).  Module [Double] embeds the arithmetic of
      the gate, of the features, of the distances and of the prototypes on
      IEEE binary64 numbers, with the roundings of the running sums.
      Module [Ext] embeds the classifier on real numbers extended with the
      infinities and [NaN], as a stored feature bundle can make them arise;
      on [logDefined] data it agrees with the main development.
    - Every division of the source is guarded ([Math.max(_, 1)],
      [voteTotal > 0], [count >= 1]).  Counts and the rounded confidence
      are integers ([nat], [Z]).
    - In the main development [Math.sqrt] and [Math.log] are the real
      square root and logarithm.
    - Reading an array past its end gives [undefined]; where the source
      compares such a value the model uses [option] ([undefined > t] and
      [undefined <= t] are both false), where it does arithmetic on it the
      model is only claimed for vectors of equal length.
    - A [Map] is an association list in insertion order: [set] on a present
      key keeps its position, on a new key appends.
    - The drawing surface is represented by the ink vector that
      [vectorizeCanvas] reads from it; [Math.random()] and [Date.now()] are
      inputs of the handlers that call them.
    - [JSON.parse] and [JSON.stringify] are host functions, parameters of
      the model. *)

From Stdlib Require Import String Ascii Bool Arith ZArith Reals Zfloor Lra Lia.
From Stdlib Require PrimFloat.
From Stdlib Require Import List Permutation Sorted.
Import ListNotations.

#[local] Open Scope R_scope.
#[local] Set Warnings "-register-all".

(** ** JavaScript numbers *)

Module JS.

Definition ltb (x y : R) : bool := if Rlt_dec x y then true else false.
Definition leb (x y : R) : bool := if Rle_dec x y then true else false.
Definition gtb (x y : R) : bool := ltb y x.

(** [Math.round]: the nearest integer, halves towards plus infinity. *)
Definition Math_round (x : R) : Z := Zfloor (x + / 2).

(** [Math.floor]. *)
Definition Math_floor (x : R) : Z := Zfloor x.

Definition Math_max : R -> R -> R := Rmax.
Definition Math_min : R -> R -> R := Rmin.
Definition Math_sqrt : R -> R := sqrt.

(** [Math.log] where it is a number, that is on positive arguments;
    [Ext.Math_log] below has the other cases. *)
Definition Math_log : R -> R := ln.

(** [x || 0] on a possibly missing number. *)
Definition or0 (x : option R) : R :=
  match x with
  | Some v => v
  | None => 0
  end.

(** Comparisons against a value read from an array, [undefined] when the
    index is out of range. *)
Definition gt_undef (x : option R) (t : R) : bool :=
  match x with
  | Some v => gtb v t
  | None => false
  end.

Definition le_undef (x : option R) (t : R) : bool :=
  match x with
  | Some v => leb v t
  | None => false
  end.

(** [arr.slice(-n)]: the last [n] elements. *)
Definition slice_last {A : Type} (n : nat) (l : list A) : list A :=
  skipn (length l - n) l.

(** [arr.sort(cmp)]: a stable sort; [cmp a b <= 0] keeps [a] before [b]. *)
Fixpoint sort_insert {A : Type} (cmp : A -> A -> R) (x : A) (l : list A) : list A :=
  match l with
  | [] => [x]
  | y :: l' => if Rle_dec (cmp x y) 0 then x :: y :: l' else y :: sort_insert cmp x l'
  end.

Definition sort {A : Type} (cmp : A -> A -> R) (l : list A) : list A :=
  fold_right (sort_insert cmp) [] l.

End JS.

(** ** [Map] with string keys, in insertion order *)

Module SMap.

Definition t (V : Type) := list (string * V).

Fixpoint get {V : Type} (k : string) (m : t V) : option V :=
  match m with
  | [] => None
  | (k', v) :: m' => if String.eqb k' k then Some v else get k m'
  end.

Definition has {V : Type} (k : string) (m : t V) : bool :=
  match get k m with
  | Some _ => true
  | None => false
  end.

Fixpoint set {V : Type} (k : string) (v : V) (m : t V) : t V :=
  match m with
  | [] => [(k, v)]
  | (k', v') :: m' =>
      if String.eqb k' k then (k', v) :: m' else (k', v') :: set k v m'
  end.

End SMap.

(** ** JSON values, as [JSON.parse] returns them *)

Inductive json : Type :=
| JNull
| JBool (b : bool)
| JNum (r : R)
| JStr (s : string)
| JArr (items : list json)
| JObj (fields : list (string * json)).

Module Json.

(** Truthiness of a parsed value ([item && ...]). *)
Definition truthy (v : json) : bool :=
  match v with
  | JNull => false
  | JBool b => b
  | JNum r => if Req_dec_T r 0 then false else true
  | JStr s => negb (String.eqb s "")
  | JArr _ => true
  | JObj _ => true
  end.

(** The last binding of a key wins in a parsed object. *)
Fixpoint lookup (k : string) (fields : list (string * json)) : option json :=
  match fields with
  | [] => None
  | (k', v) :: rest =>
      match lookup k rest with
      | Some w => Some w
      | None => if String.eqb k' k then Some v else None
      end
  end.

(** [item.key]: [None] stands for [undefined]. *)
Definition prop (k : string) (item : json) : option json :=
  match item with
  | JObj fields => lookup k fields
  | _ => None
  end.

(** [typeof x === "string"]. *)
Definition is_string (x : option json) : bool :=
  match x with
  | Some (JStr _) => true
  | _ => false
  end.

(** [Array.isArray(x) && x.length === n]. *)
Definition is_array_of_length (n : nat) (x : option json) : bool :=
  match x with
  | Some (JArr items) => Nat.eqb (length items) n
  | _ => false
  end.

Definition is_number (v : json) : bool :=
  match v with
  | JNum _ => true
  | _ => false
  end.

End Json.

Definition OBJECTS : list string :=
  [ "cat"; "dog"; "tree"; "house"; "car"; "bicycle"; "apple"; "banana"; "fish"; "bird";
    "cloud"; "sun"; "moon"; "star"; "flower"; "cup"; "book"; "chair"; "table"; "phone";
    "clock"; "pizza"; "burger"; "ice cream"; "guitar"; "drum"; "camera"; "airplane"; "rocket"; "boat";
    "train"; "bus"; "robot"; "monster"; "dragon"; "castle"; "crown"; "shoe"; "hat"; "glasses";
    "toothbrush"; "key"; "lock"; "lamp"; "cookie"; "donut"; "snail"; "frog"; "whale"; "tennis ball" ]%string.

Definition GRID_SIZE : nat := 16.

(** [randomPrompt], on the value [rnd] that [Math.random()] returned. *)
Definition randomPrompt (rnd : R) : string :=
  nth (Z.to_nat (JS.Math_floor (rnd * INR (length OBJECTS)))) OBJECTS ""%string.

(** The filter predicate of [loadDataset]. *)
Definition validEntry (item : json) : bool :=
  Json.truthy item
  && Json.is_string (Json.prop "label" item)
  && Json.is_array_of_length (GRID_SIZE * GRID_SIZE) (Json.prop "vector" item).

(** [loadDataset], on the text [localStorage.getItem(STORAGE_KEY)] returned
    ([None] for [null]); [JSON_parse] returns [None] where [JSON.parse]
    throws. *)
Definition loadDataset (JSON_parse : string -> option json) (raw : option string)
  : list json :=
  match raw with
  | None => []
  | Some text =>
      if String.eqb text "" then []
      else
        match JSON_parse text with
        | None => []
        | Some (JArr parsed) => filter validEntry parsed
        | Some _ => []
        end
  end.

(** ** Features *)

Record Point : Type := mkPoint { px : R; py : R }.

Definition Stroke : Type := list Point.

(** A feature bundle.  [strokeCount] may be missing from a stored bundle, the
    source reads it as [strokeCount || 0]. *)
Record Features : Type := mkFeatures {
  fillRatio : R;
  aspectRatio : R;
  compactness : R;
  symmetryX : R;
  symmetryY : R;
  edgeDensity : R;
  lengthNorm : R;
  straightness : R;
  strokeCount : option R
}.

(** What [extractShapeFeatures] returns: no [strokeCount] key. *)
Definition shapeBundle (fill aspect compact symX symY edge : R) : Features :=
  mkFeatures fill aspect compact symX symY edge 0 0 None.

Definition threshold : R := 0.2.

(** First loop of [extractShapeFeatures]: the ink total and the indices of
    the cells above the threshold, in increasing order. *)
Definition scanInk (vector : list R) : R * list nat :=
  fold_left
    (fun (acc : R * list nat) (i : nat) =>
       let value := nth i vector 0 in
       (fst acc + value,
        if JS.gtb value threshold then snd acc ++ [i] else snd acc))
    (seq 0 (length vector)) (0, []).

Record Box : Type := mkBox { minX : Z; minY : Z; maxX : Z; maxY : Z }.

(** Second loop: the bounding box of the active cells. *)
Definition boundingBox (active : list nat) : Box :=
  fold_left
    (fun (b : Box) (index : nat) =>
       let x := Z.of_nat (index mod GRID_SIZE) in
       let y := Z.of_nat (index / GRID_SIZE) in
       mkBox (Z.min (minX b) x) (Z.min (minY b) y)
             (Z.max (maxX b) x) (Z.max (maxY b) y))
    active
    (mkBox (Z.of_nat GRID_SIZE) (Z.of_nat GRID_SIZE) 0 0).

(** [vector[y * GRID_SIZE + x]]. *)
Definition cell (vector : list R) (x y : Z) : option R :=
  let idx := (y * Z.of_nat GRID_SIZE + x)%Z in
  if (idx <? 0)%Z then None else nth_error vector (Z.to_nat idx).

(** The integers [lo, lo+1, ..., hi]. *)
Definition zrange (lo hi : Z) : list Z :=
  map (fun k => (lo + Z.of_nat k)%Z) (seq 0 (Z.to_nat (hi - lo + 1))).

(** The callback of [neighbors.some]. *)
Definition isEdgeNeighbor (vector : list R) (b : Box) (n : Z * Z) : bool :=
  let (nx, ny) := n in
  if ((nx <? minX b) || (ny <? minY b) || (nx >? maxX b) || (ny >? maxY b))%Z
  then true
  else JS.le_undef (cell vector nx ny) threshold.

Record ShapeCounts : Type := mkShapeCounts {
  edgeCount : nat;
  symmetryMatchesX : nat;
  symmetryMatchesY : nat;
  symmetryChecksX : nat;
  symmetryChecksY : nat
}.

(** Body of the double loop over the bounding box, at cell [(x, y)]. *)
Definition shapeStep (vector : list R) (b : Box) (y x : Z) (c : ShapeCounts)
  : ShapeCounts :=
  if negb (JS.gt_undef (cell vector x y) threshold) then c
  else
    let neighbors := [ (x - 1, y); (x + 1, y); (x, y - 1); (x, y + 1) ]%Z in
    let mirrorX := (maxX b - (x - minX b))%Z in
    let mirrorY := (maxY b - (y - minY b))%Z in
    mkShapeCounts
      (if existsb (isEdgeNeighbor vector b) neighbors
       then edgeCount c + 1 else edgeCount c)%nat
      (if JS.gt_undef (cell vector mirrorX y) threshold
       then symmetryMatchesX c + 1 else symmetryMatchesX c)%nat
      (if JS.gt_undef (cell vector x mirrorY) threshold
       then symmetryMatchesY c + 1 else symmetryMatchesY c)%nat
      (symmetryChecksX c + 1)%nat
      (symmetryChecksY c + 1)%nat.

Definition shapeLoop (vector : list R) (b : Box) : ShapeCounts :=
  fold_left
    (fun c y => fold_left (fun c' x => shapeStep vector b y x c')
                          (zrange (minX b) (maxX b)) c)
    (zrange (minY b) (maxY b))
    (mkShapeCounts 0 0 0 0 0).

Definition extractShapeFeatures (vector : list R) : Features :=
  let (ink, active) := scanInk vector in
  if Nat.eqb (length active) 0 then shapeBundle 0 1 0 1 1 0
  else
    let b := boundingBox active in
    let width := (maxX b - minX b + 1)%Z in
    let height := (maxY b - minY b + 1)%Z in
    let boxArea := (width * height)%Z in
    let c := shapeLoop vector b in
    shapeBundle
      (ink / INR (GRID_SIZE * GRID_SIZE))
      (IZR width / JS.Math_max (IZR height) 1)
      (INR (length active) / JS.Math_max (IZR boxArea) 1)
      (INR (symmetryMatchesX c) / JS.Math_max (INR (symmetryChecksX c)) 1)
      (INR (symmetryMatchesY c) / JS.Math_max (INR (symmetryChecksY c)) 1)
      (INR (edgeCount c) / JS.Math_max (INR (length active)) 1).

(** The inner loop of [extractStrokeFeatures]: the length of the polyline
    through the points of a stroke, segment by segment. *)
Definition polylineLength (stroke : Stroke) : R :=
  fold_left
    (fun length (seg : Point * Point) =>
       let (prev, cur) := seg in
       let dx := px cur - px prev in
       let dy := py cur - py prev in
       length + JS.Math_sqrt (dx * dx + dy * dy))
    (combine stroke (tl stroke)) 0.

(** Loop body of [extractStrokeFeatures]; the accumulator is
    [(totalLength, weightedStraightness)]. *)
Definition strokeStep (acc : R * R) (stroke : Stroke) : R * R :=
  if Nat.ltb (length stroke) 2 then acc
  else
    let length := polylineLength stroke in
    let first := nth 0 stroke (mkPoint 0 0) in
    let last := List.last stroke (mkPoint 0 0) in
    let dx := px last - px first in
    let dy := py last - py first in
    let directDistance := JS.Math_sqrt (dx * dx + dy * dy) in
    let straight := directDistance / JS.Math_max length 1 in
    (fst acc + length, snd acc + straight * length).

Record StrokeFeatures : Type := mkStrokeFeatures {
  sf_lengthNorm : R;
  sf_straightness : R;
  sf_strokeCount : R
}.

Definition extractStrokeFeatures (strokes : list Stroke) : StrokeFeatures :=
  if Nat.eqb (length strokes) 0 then mkStrokeFeatures 0 0 0
  else
    let diagonal := JS.Math_sqrt (500 * 500 + 500 * 500) in
    let (totalLength, weightedStraightness) := fold_left strokeStep strokes (0, 0) in
    mkStrokeFeatures
      (JS.Math_min (totalLength / diagonal) 1.5)
      (weightedStraightness / JS.Math_max totalLength 1)
      (INR (length strokes)).

(** [{...extractShapeFeatures(vector), ...extractStrokeFeatures(strokes)}]:
    the stroke keys override the shape keys of the same name. *)
Definition combineFeatures (vector : list R) (strokes : list Stroke) : Features :=
  let shape := extractShapeFeatures vector in
  let motion := extractStrokeFeatures strokes in
  mkFeatures (fillRatio shape) (aspectRatio shape) (compactness shape)
             (symmetryX shape) (symmetryY shape) (edgeDensity shape)
             (sf_lengthNorm motion) (sf_straightness motion)
             (Some (sf_strokeCount motion)).

(** ** Distances *)

(** The [terms] table of [featureDistance]: [(x, y, weight)]. *)
Definition featureTerms (a b : Features) : list (R * R * R) :=
  let aspectA := JS.Math_log (aspectRatio a + 1e-6) in
  let aspectB := JS.Math_log (aspectRatio b + 1e-6) in
  let strokeCountA := JS.Math_min (JS.or0 (strokeCount a)) 8 / 8 in
  let strokeCountB := JS.Math_min (JS.or0 (strokeCount b)) 8 / 8 in
  [ (fillRatio a, fillRatio b, 1.4);
    (aspectA, aspectB, 1.1);
    (compactness a, compactness b, 1.3);
    (symmetryX a, symmetryX b, 0.8);
    (symmetryY a, symmetryY b, 0.8);
    (edgeDensity a, edgeDensity b, 1.1);
    (lengthNorm a, lengthNorm b, 1.3);
    (straightness a, straightness b, 1.4);
    (strokeCountA, strokeCountB, 0.7) ].

Definition featureDistance (a b : Features) : R :=
  JS.Math_sqrt
    (fold_left
       (fun total (term : R * R * R) =>
          let '(x, y, weight) := term in
          let delta := x - y in
          total + weight * delta * delta)
       (featureTerms a b) 0).

(** [distance]: the loop runs over the indices of [a]. *)
Definition distance (a b : list R) : R :=
  JS.Math_sqrt
    (fold_left
       (fun total i =>
          let d := nth i a 0 - nth i b 0 in
          total + d * d)
       (seq 0 (length a)) 0).

Record CosineAcc : Type := mkCosineAcc { acc_dot : R; acc_normA : R; acc_normB : R }.

(** The loop of [cosineDistance]. *)
Definition cosineLoop (a b : list R) : CosineAcc :=
  fold_left
    (fun acc i =>
       mkCosineAcc (acc_dot acc + nth i a 0 * nth i b 0)
                   (acc_normA acc + nth i a 0 * nth i a 0)
                   (acc_normB acc + nth i b 0 * nth i b 0))
    (seq 0 (length a)) (mkCosineAcc 0 0 0).

Definition cosineDistance (a b : list R) : R :=
  let acc := cosineLoop a b in
  let denom := JS.Math_sqrt (acc_normA acc) * JS.Math_sqrt (acc_normB acc) in
  if Req_dec_T denom 0 then 1
  else 1 - acc_dot acc / denom.

(** ** Samples and prototypes *)

(** An entry of the dataset.  [features] is absent on entries stored before
    features were recorded ([item.features || combineFeatures(...)]). *)
Record Sample : Type := mkSample {
  label : string;
  vector : list R;
  features : option Features;
  ts : Z
}.

(** [item.features || combineFeatures(item.vector, [])]. *)
Definition featuresOf (item : Sample) : Features :=
  match features item with
  | Some f => f
  | None => combineFeatures (vector item) []
  end.

(** The [featureSum] object of a bucket: nine numeric keys. *)
Record FeatureSum : Type := mkFeatureSum {
  sum_fillRatio : R;
  sum_aspectRatio : R;
  sum_compactness : R;
  sum_symmetryX : R;
  sum_symmetryY : R;
  sum_edgeDensity : R;
  sum_lengthNorm : R;
  sum_straightness : R;
  sum_strokeCount : R
}.

Record Bucket : Type := mkBucket {
  count : nat;
  vectorSum : list R;
  featureSum : FeatureSum
}.

Definition emptyBucket : Bucket :=
  mkBucket 0 (repeat 0 (GRID_SIZE * GRID_SIZE)) (mkFeatureSum 0 0 0 0 0 0 0 0 0).

(** [for (i < v.length) vectorSum[i] += v[i]].  Within the length of
    [vectorSum] this adds cell by cell; the cells of [v] beyond it are
    dropped here (the source would store [NaN] there), so the model is
    claimed only for vectors of at most [GRID_SIZE * GRID_SIZE] cells. *)
Fixpoint addVector (sums v : list R) : list R :=
  match sums, v with
  | s :: sums', x :: v' => (s + x) :: addVector sums' v'
  | _, _ => sums
  end.

(** [for (key of Object.keys(featureSum)) featureSum[key] += features[key] || 0]. *)
Definition addFeatures (fs : FeatureSum) (f : Features) : FeatureSum :=
  mkFeatureSum
    (sum_fillRatio fs + fillRatio f)
    (sum_aspectRatio fs + aspectRatio f)
    (sum_compactness fs + compactness f)
    (sum_symmetryX fs + symmetryX f)
    (sum_symmetryY fs + symmetryY f)
    (sum_edgeDensity fs + edgeDensity f)
    (sum_lengthNorm fs + lengthNorm f)
    (sum_straightness fs + straightness f)
    (sum_strokeCount fs + JS.or0 (strokeCount f)).

(** One iteration of the loop of [buildPrototypes]. *)
Definition addSample (byLabel : SMap.t Bucket) (item : Sample) : SMap.t Bucket :=
  let byLabel :=
    if negb (SMap.has (label item) byLabel)
    then SMap.set (label item) emptyBucket byLabel
    else byLabel in
  match SMap.get (label item) byLabel with
  | Some bucket =>
      SMap.set (label item)
        (mkBucket (count bucket + 1)
                  (addVector (vectorSum bucket) (vector item))
                  (addFeatures (featureSum bucket) (featuresOf item)))
        byLabel
  | None => byLabel
  end.

Record Prototype : Type := mkPrototype {
  proto_label : string;
  proto_count : nat;
  proto_vector : list R;
  proto_features : Features
}.

Definition meanFeatures (fs : FeatureSum) (n : nat) : Features :=
  mkFeatures
    (sum_fillRatio fs / INR n)
    (sum_aspectRatio fs / INR n)
    (sum_compactness fs / INR n)
    (sum_symmetryX fs / INR n)
    (sum_symmetryY fs / INR n)
    (sum_edgeDensity fs / INR n)
    (sum_lengthNorm fs / INR n)
    (sum_straightness fs / INR n)
    (Some (sum_strokeCount fs / INR n)).

Definition prototypeOf (entry : string * Bucket) : Prototype :=
  let (label, bucket) := entry in
  mkPrototype label (count bucket)
    (map (fun value => value / INR (count bucket)) (vectorSum bucket))
    (meanFeatures (featureSum bucket) (count bucket)).

Definition buildPrototypes (dataset : list Sample) : list Prototype :=
  map prototypeOf (fold_left addSample dataset []).

(** ** The classifier *)

(** An element of [scoredExamples] or [scoredPrototypes]: [{label, dist}]. *)
Definition Scored : Type := (string * R)%type.

(** The callback of [dataset.map] in [guessDrawing]. *)
Definition scoreExample (vec : list R) (feats : Features) (item : Sample) : Scored :=
  let itemFeatures := featuresOf item in
  let pixelDist := distance vec (vector item) / JS.Math_sqrt (INR (length vec)) in
  let angularDist := cosineDistance vec (vector item) in
  let shapeDist := featureDistance feats itemFeatures in
  (label item, pixelDist * 1.9 + angularDist * 1.4 + shapeDist * 1.7).

(** The callback of [prototypes.map] in [guessDrawing]. *)
Definition scorePrototype (vec : list R) (feats : Features) (proto : Prototype) : Scored :=
  let pixelDist := distance vec (proto_vector proto) / JS.Math_sqrt (INR (length vec)) in
  let angularDist := cosineDistance vec (proto_vector proto) in
  let shapeDist := featureDistance feats (proto_features proto) in
  let sampleBonus := JS.Math_min (INR (proto_count proto)) 12 / 120 in
  (proto_label proto, pixelDist * 1.6 + angularDist * 1.2 + shapeDist * 1.5 - sampleBonus).

(** [votes.set(label, (votes.get(label) || 0) + scale / Math.max(dist, 0.05))];
    [scale] is [1] for a neighbour and [0.9] for a prototype. *)
Definition castVote (scale : R) (votes : SMap.t R) (scored : Scored) : SMap.t R :=
  let weight := scale / JS.Math_max (snd scored) 0.05 in
  SMap.set (fst scored) (JS.or0 (SMap.get (fst scored) votes) + weight) votes.

(** [[...scoredExamples].sort((a, b) => a.dist - b.dist).slice(0, 9)]. *)
Definition nearestOf (scoredExamples : list Scored) : list Scored :=
  firstn 9 (JS.sort (fun a b => snd a - snd b) scoredExamples).

(** The [votes] map after both voting loops. *)
Definition tally (vec : list R) (strokes : list Stroke)
    (dataset : list Sample) (prototypes : list Prototype) : SMap.t R :=
  let feats := combineFeatures vec strokes in
  let scoredExamples := map (scoreExample vec feats) dataset in
  let scoredPrototypes := map (scorePrototype vec feats) prototypes in
  let votes := fold_left (castVote 1) (nearestOf scoredExamples) [] in
  fold_left (castVote 0.9) scoredPrototypes votes.

(** [[...votes.entries()].sort((a, b) => b[1] - a[1])]. *)
Definition rank (votes : SMap.t R) : list (string * R) :=
  JS.sort (fun a b => snd b - snd a) votes.

(** The locals of [guessDrawing] from [ranked] on. *)
Record Verdict : Type := mkVerdict {
  bestLabel : string;
  bestScore : R;
  secondScore : R;
  voteTotal : R;
  margin : R;
  certainty : R;
  prototypeWeight : R;
  conf : Z;
  lowConfidence : bool
}.

Definition verdictOf (ranked : list (string * R)) (prototypes : list Prototype) : Verdict :=
  let (bestLabel, bestScore) :=
    match ranked with
    | first :: _ => first
    | [] => ("unknown"%string, 0)
    end in
  let secondScore :=
    match ranked with
    | _ :: second :: _ => snd second
    | _ => 0
    end in
  let voteTotal := fold_left (fun sum entry => sum + snd entry) ranked 0 in
  let margin := bestScore - secondScore in
  let certainty := if JS.gtb voteTotal 0 then bestScore / voteTotal else 0 in
  let prototypeWeight := JS.Math_min (INR (length prototypes) / 10) 1 in
  let conf :=
    Z.max 1
      (Z.min 99
         (JS.Math_round
            ((certainty * 0.65 + margin * 0.25 + prototypeWeight * 0.1) * 100))) in
  let lowConfidence := (conf <? 60)%Z || JS.ltb margin 0.12 in
  mkVerdict bestLabel bestScore secondScore voteTotal margin certainty
            prototypeWeight conf lowConfidence.

Definition classify (vec : list R) (strokes : list Stroke)
    (dataset : list Sample) (prototypes : list Prototype) : Verdict :=
  verdictOf (rank (tally vec strokes dataset prototypes)) prototypes.

(** ** The application state and its handlers *)

Record World : Type := mkWorld {
  (* React state *)
  dataset : list Sample;
  prompt : string;
  guess : string;
  confidence : Z;
  statusMessage : string;
  (* refs *)
  isDrawing : bool;
  strokes : list Stroke;
  activeStroke : bool;
  (* the drawing surface, as the ink vector vectorizeCanvas reads *)
  canvas : list R;
  (* localStorage[STORAGE_KEY] *)
  localStorage : option string
}.

(** Handlers run in a state monad over [World]. *)
Definition M (A : Type) : Type := World -> A * World.

Definition ret {A : Type} (a : A) : M A := fun w => (a, w).

Definition bind {A B : Type} (m : M A) (k : A -> M B) : M B :=
  fun w => let (a, w') := m w in k a w'.

Definition exec {A : Type} (m : M A) (w : World) : World := snd (m w).

Notation "x <- c1 ;; c2" := (bind c1 (fun x => c2))
  (at level 61, c1 at next level, right associativity).
Notation "c1 ;; c2" := (bind c1 (fun _ => c2))
  (at level 61, right associativity).

Definition read {A : Type} (f : World -> A) : M A := fun w => (f w, w).

Definition setDataset (d : list Sample) : M unit := fun w =>
  (tt, mkWorld d (prompt w) (guess w) (confidence w) (statusMessage w)
               (isDrawing w) (strokes w) (activeStroke w) (canvas w) (localStorage w)).

Definition setPrompt (p : string) : M unit := fun w =>
  (tt, mkWorld (dataset w) p (guess w) (confidence w) (statusMessage w)
               (isDrawing w) (strokes w) (activeStroke w) (canvas w) (localStorage w)).

Definition setGuess (g : string) : M unit := fun w =>
  (tt, mkWorld (dataset w) (prompt w) g (confidence w) (statusMessage w)
               (isDrawing w) (strokes w) (activeStroke w) (canvas w) (localStorage w)).

Definition setConfidence (c : Z) : M unit := fun w =>
  (tt, mkWorld (dataset w) (prompt w) (guess w) c (statusMessage w)
               (isDrawing w) (strokes w) (activeStroke w) (canvas w) (localStorage w)).

Definition setStatusMessage (m : string) : M unit := fun w =>
  (tt, mkWorld (dataset w) (prompt w) (guess w) (confidence w) m
               (isDrawing w) (strokes w) (activeStroke w) (canvas w) (localStorage w)).

Definition setIsDrawing (b : bool) : M unit := fun w =>
  (tt, mkWorld (dataset w) (prompt w) (guess w) (confidence w) (statusMessage w)
               b (strokes w) (activeStroke w) (canvas w) (localStorage w)).

Definition setStrokes (s : list Stroke) : M unit := fun w =>
  (tt, mkWorld (dataset w) (prompt w) (guess w) (confidence w) (statusMessage w)
               (isDrawing w) s (activeStroke w) (canvas w) (localStorage w)).

Definition setActiveStroke (b : bool) : M unit := fun w =>
  (tt, mkWorld (dataset w) (prompt w) (guess w) (confidence w) (statusMessage w)
               (isDrawing w) (strokes w) b (canvas w) (localStorage w)).

Definition setCanvas (c : list R) : M unit := fun w =>
  (tt, mkWorld (dataset w) (prompt w) (guess w) (confidence w) (statusMessage w)
               (isDrawing w) (strokes w) (activeStroke w) c (localStorage w)).

(** [localStorage.setItem(STORAGE_KEY, text)]. *)
Definition setItem (text : string) : M unit := fun w =>
  (tt, mkWorld (dataset w) (prompt w) (guess w) (confidence w) (statusMessage w)
               (isDrawing w) (strokes w) (activeStroke w) (canvas w) (Some text)).

(** The JSON form of a sample, as [JSON.stringify] sees it. *)
Definition jsonOfFeatures (f : Features) : json :=
  JObj
    ([ ("fillRatio", JNum (fillRatio f));
       ("aspectRatio", JNum (aspectRatio f));
       ("compactness", JNum (compactness f));
       ("symmetryX", JNum (symmetryX f));
       ("symmetryY", JNum (symmetryY f));
       ("edgeDensity", JNum (edgeDensity f));
       ("lengthNorm", JNum (lengthNorm f));
       ("straightness", JNum (straightness f)) ]%string
     ++ match strokeCount f with
        | Some n => [ ("strokeCount"%string, JNum n) ]
        | None => []
        end).

Definition jsonOfSample (item : Sample) : json :=
  JObj
    ([ ("label"%string, JStr (label item));
       ("vector"%string, JArr (map JNum (vector item))) ]
     ++ match features item with
        | Some f => [ ("features"%string, jsonOfFeatures f) ]
        | None => []
        end
     ++ [ ("ts"%string, JNum (IZR (ts item))) ]).

Section Handlers.

(** [JSON.stringify], a function of the host. *)
Variable JSON_stringify : json -> string.

Definition saveDataset (d : list Sample) : M unit :=
  setItem (JSON_stringify (JArr (map jsonOfSample d))).

Definition stopDrawing : M unit :=
  drawing <- read isDrawing ;;
  if negb drawing then ret tt
  else
    setIsDrawing false ;;
    setActiveStroke false.

(** [clearCanvas]: a white surface rasterises to the all-zero vector. *)
Definition clearCanvas : M unit :=
  setCanvas (repeat 0 (GRID_SIZE * GRID_SIZE)) ;;
  setStrokes [] ;;
  setActiveStroke false ;;
  setGuess "unknown" ;;
  setConfidence 0 ;;
  setStatusMessage "".

Definition vectorizeCanvas : M (list R) := read canvas.

Record DrawingStats : Type := mkDrawingStats {
  vec : list R;
  totalInk : R;
  activePixels : nat;
  drawnStrokeCount : nat;
  hasMeaningfulDrawing : bool
}.

(** The pure part of [getDrawingStats]. *)
Definition drawingStats (vec : list R) (strokes : list Stroke) : DrawingStats :=
  let totalInk := fold_left (fun sum value => sum + value) vec 0 in
  let activePixels :=
    fold_left (fun count value => (count + (if JS.gtb value 0.18 then 1 else 0))%nat)
              vec 0%nat in
  let drawnStrokeCount :=
    length (filter (fun stroke => Nat.ltb 1 (length stroke)) strokes) in
  mkDrawingStats vec totalInk activePixels drawnStrokeCount
    (JS.gtb totalInk 5 && Nat.ltb 8 activePixels && Nat.ltb 0 drawnStrokeCount).

Definition getDrawingStats : M DrawingStats :=
  vec <- vectorizeCanvas ;;
  strokes <- read strokes ;;
  ret (drawingStats vec strokes).

Definition guessDrawing : M unit :=
  stats <- getDrawingStats ;;
  if negb (hasMeaningfulDrawing stats) then
    setStatusMessage "Draw something first — erased/blank canvas cannot be guessed." ;;
    setGuess "unknown" ;;
    setConfidence 0
  else
    dataset <- read dataset ;;
    if Nat.eqb (length dataset) 0 then
      setGuess "Need training data first" ;;
      setConfidence 0 ;;
      setStatusMessage "Train me with a few drawings before guessing."
    else
      strokes <- read strokes ;;
      (* useMemo(() => buildPrototypes(dataset), [dataset]) *)
      let prototypes := buildPrototypes dataset in
      let v := classify (vec stats) strokes dataset prototypes in
      setGuess (if lowConfidence v then "unknown" else bestLabel v) ;;
      setConfidence (conf v) ;;
      setStatusMessage
        (if lowConfidence v
         then "Not confident enough to guess yet — try cleaner strokes."
         else "").

Definition stopDrawingAndGuess : M unit :=
  stopDrawing ;;
  guessDrawing.

(** [[...dataset, sample].slice(-2000)]. *)
Definition appendSample (dataset : list Sample) (sample : Sample) : list Sample :=
  JS.slice_last 2000 (dataset ++ [sample]).

(** [saveDrawing]; [now] is what [Date.now()] returns and [rnd] what
    [Math.random()] returns in [randomPrompt]. *)
Definition saveDrawing (now : Z) (rnd : R) : M unit :=
  stats <- getDrawingStats ;;
  if negb (hasMeaningfulDrawing stats) then
    setStatusMessage "Nope — draw first. Blank/erased canvas won't be saved to training."
  else
    strokes <- read strokes ;;
    dataset <- read dataset ;;
    prompt <- read prompt ;;
    let feats := combineFeatures (vec stats) strokes in
    let updated :=
      appendSample dataset (mkSample prompt (vec stats) (Some feats) now) in
    setDataset updated ;;
    saveDataset updated ;;
    setPrompt (randomPrompt rnd) ;;
    clearCanvas ;;
    setStatusMessage "Saved to training set. Nice.".

End Handlers.

(** The attempt on the surface passes the meaningful-drawing gate. *)
Definition meaningful (w : World) : Prop :=
  hasMeaningfulDrawing (drawingStats (canvas w) (strokes w)) = true.

(** The prototype of a label, if it has one. *)
Definition findPrototype (lbl : string) (prototypes : list Prototype) : option Prototype :=
  find (fun p => String.eqb (proto_label p) lbl) prototypes.

(** ** The specification's wording

    Definitions that follow the text of the specification, to be compared
    with the ones above. *)

Module Spec.

(** "sum of all InkGrid values". *)
Definition sum (l : list R) : R := fold_right Rplus 0 l.

(** "count of cells with intensity > 0.18". *)
Definition inkedCells (grid : list R) : nat :=
  length (filter (fun value => JS.gtb value 0.18) grid).

(** "count of strokes with at least 2 points". *)
Definition drawnStrokes (strokes : list Stroke) : nat :=
  length (filter (fun stroke => Nat.leb 2 (length stroke)) strokes).

(** "totalInk > 5 AND activePixels > 8 AND drawnStrokeCount > 0". *)
Definition meaningfulAttempt (grid : list R) (strokes : list Stroke) : Prop :=
  sum grid > 5 /\ (inkedCells grid > 8)%nat /\ (drawnStrokes strokes > 0)%nat.

(** "dot(a,b)" and the Euclidean norm. *)
Definition dot (a b : list R) : R :=
  sum (map (fun p => fst p * snd p) (combine a b)).

Definition norm (a : list R) : R := sqrt (dot a a).

(** "clamp(x, lo, hi)" on numbers and on integers. *)
Definition clamp (x lo hi : R) : R := Rmax lo (Rmin hi x).

Definition clampZ (n lo hi : Z) : Z := Z.max lo (Z.min hi n).

(** "round(100 x clamp(certainty 0.65 + margin 0.25 + prototypeWeight 0.10,
    0.01, 0.99)), clamped to [1,99]". *)
Definition confidenceOf (certainty margin prototypeWeight : R) : Z :=
  clampZ
    (JS.Math_round
       (100 * clamp (certainty * 0.65 + margin * 0.25 + prototypeWeight * 0.10)
                    0.01 0.99))
    1 99.

(** The largest of a list of tallies ([0] when there is none). *)
Definition largest (tallies : list R) : R :=
  match tallies with
  | [] => 0
  | x :: rest => fold_right Rmax x rest
  end.

(** A list without one occurrence of [x]. *)
Fixpoint removeOne (x : R) (l : list R) : list R :=
  match l with
  | [] => []
  | y :: l' => if Req_dec_T x y then l' else y :: removeOne x l'
  end.

(** "best/second be the top two tallies": the largest tally, and the largest
    of the others ([0] when there is no other label). *)
Definition best (votes : SMap.t R) : R := largest (map snd votes).

Definition second (votes : SMap.t R) : R :=
  largest (removeOne (best votes) (map snd votes)).

(** "voteTotal the sum across all labels". *)
Definition voteMass (votes : SMap.t R) : R := sum (map snd votes).

(** "number of distinct labels trained". *)
Definition distinctLabels (dataset : list Sample) : nat :=
  length (nodup string_dec (map label dataset)).

(** "label is text, inkVector has exactly N^2 numeric entries". *)
Definition structuralCheck (item : json) : bool :=
  Json.is_string (Json.prop "label" item)
  && match Json.prop "vector" item with
     | Some (JArr cells) =>
         Nat.eqb (length cells) (GRID_SIZE * GRID_SIZE) && forallb Json.is_number cells
     | _ => false
     end.

(** The check without the test on the cells: what the loader looks at. *)
Definition shapeCheck (item : json) : bool :=
  Json.is_string (Json.prop "label" item)
  && Json.is_array_of_length (GRID_SIZE * GRID_SIZE) (Json.prop "vector" item).

End Spec.

(** ** Concrete data for the examples *)

Module Ex.

(** One inked row of the grid. *)
Definition gridV : list R := repeat 1 16 ++ repeat 0 240.

(** Nine cells at 2/3: total ink 6, nine active cells. *)
Definition grid69 : list R := repeat (2 / 3) 9 ++ repeat 0 247.

Definition blankGrid : list R := repeat 0 (GRID_SIZE * GRID_SIZE).

Definition stroke3 : Stroke := [ mkPoint 0 0; mkPoint 10 0; mkPoint 10 10 ].

Definition catSample : Sample :=
  mkSample "cat" gridV (Some (combineFeatures gridV [stroke3])) 0.

Definition dogSample : Sample :=
  mkSample "dog" grid69 None 1.

(** A fresh session: empty dataset, blank surface. *)
Definition blankWorld : World :=
  mkWorld [] "cat" "unknown" 0 "" false [] false blankGrid None.

(** A drawn row on the surface, nothing trained yet. *)
Definition drawnWorld : World :=
  mkWorld [] "cat" "unknown" 0 "" false [stroke3] false gridV None.

(** Ten samples of "cat" equal to the drawing on the surface. *)
Definition catWorld : World :=
  mkWorld (repeat catSample 10) "cat" "unknown" 0 "" false [stroke3] false gridV None.

(** A stored entry whose vector holds 256 strings. *)
Definition textEntry : json :=
  JObj [ ("label"%string, JStr "cat");
         ("vector"%string, JArr (repeat (JStr "x") (GRID_SIZE * GRID_SIZE))) ].

(** A well-formed stored entry. *)
Definition goodEntry : json := jsonOfSample catSample.

(** An entry without a label. *)
Definition noLabelEntry : json :=
  JObj [ ("vector"%string, JArr (map JNum gridV)) ].

End Ex.

(** ** Auxiliary notions used in the proofs *)

(** What one sample adds to the bucket of its label. *)
Definition bump (b : Bucket) (item : Sample) : Bucket :=
  mkBucket (count b + 1)
           (addVector (vectorSum b) (vector item))
           (addFeatures (featureSum b) (featuresOf item)).

(** The bucket of [lbl] after one more sample. *)
Definition bumpFor (lbl : string) (ob : option Bucket) (item : Sample) : option Bucket :=
  if String.eqb (label item) lbl
  then Some (bump (match ob with Some b => b | None => emptyBucket end) item)
  else ob.

(** [rank] lists the tallies from the largest down. *)
Definition descending (l : list (string * R)) : Prop :=
  StronglySorted (fun a b => snd b <= snd a) l.

(** ** Further parts of [app.js] *)

(** The loop of [vectorizeCanvas] over the RGBA bytes of the downsampled
    image, [for (i = 0; i < data.length; i += 4) vec.push(1 - gray / 255)]
    with [gray = (data[i] + data[i+1] + data[i+2]) / 3].  [data] is a
    [Uint8ClampedArray]: whole pixels of four bytes; a trailing incomplete
    pixel, which an [ImageData] never has, is dropped here. *)
Fixpoint inkOfImageData (data : list Z) : list R :=
  match data with
  | r :: g :: b :: _ :: rest =>
      let gray := (IZR r + IZR g + IZR b) / 3 in
      (1 - gray / 255) :: inkOfImageData rest
  | _ => []
  end.

(** What [getPoint] reads of the event and of the element: the first touch
    if there is one, else the mouse position; the bounding rectangle of the
    canvas element and the size of its surface. *)
Record PointerEvent : Type := mkPointerEvent {
  touches : list (R * R);
  clientX : R;
  clientY : R
}.

Record Rect : Type := mkRect {
  rect_left : R;
  rect_top : R;
  rect_width : R;
  rect_height : R
}.

(** [canvas.width] and [canvas.height], set to 500 in the markup. *)
Definition CANVAS_SIZE : R := 500.

Definition getPoint (rect : Rect) (event : PointerEvent) : Point :=
  match touches event with
  | (touchX, touchY) :: _ =>
      mkPoint (((touchX - rect_left rect) * CANVAS_SIZE) / rect_width rect)
              (((touchY - rect_top rect) * CANVAS_SIZE) / rect_height rect)
  | [] =>
      mkPoint (((clientX event - rect_left rect) * CANVAS_SIZE) / rect_width rect)
              (((clientY event - rect_top rect) * CANVAS_SIZE) / rect_height rect)
  end.

(** [activeStrokeRef.current?.push(point)]: the active stroke, when there
    is one, is the array last pushed on [strokesRef.current]. *)
Definition pushToLast (point : Point) (strokes : list Stroke) : list Stroke :=
  match rev strokes with
  | [] => []
  | active :: before => rev before ++ [active ++ [point]]
  end.

(** [startDrawing], at the point [getPoint] returned. *)
Definition startDrawing (point : Point) : M unit :=
  setIsDrawing true ;;
  strokes <- read strokes ;;
  setActiveStroke true ;;
  setStrokes (strokes ++ [[point]]).

(** [draw], at the point [getPoint] returned; [painted] is the ink vector
    of the surface after [ctx.lineTo] and [ctx.stroke]. *)
Definition draw (point : Point) (painted : list R) : M unit :=
  drawing <- read isDrawing ;;
  if negb drawing then ret tt
  else
    setCanvas painted ;;
    active <- read activeStroke ;;
    if active then
      strokes <- read strokes ;;
      setStrokes (pushToLast point strokes)
    else ret tt.

(** A run of pointer moves, each handled by [draw]. *)
Fixpoint drawAll (moves : list (Point * list R)) : M unit :=
  match moves with
  | [] => ret tt
  | (point, painted) :: rest => draw point painted ;; drawAll rest
  end.

(** [(acc[item.label] || 0) + 1] on a count that may be missing. *)
Definition countOr0 (x : option nat) : nat :=
  match x with
  | Some n => n
  | None => 0
  end.

(** [promptCounts]: the reduce over the dataset into a plain object.  The
    object is read here as a map from label to count, which it is for the
    labels of the prompt vocabulary; a label naming an inherited property of
    objects or an array index is outside this reading. *)
Definition promptCounts (dataset : list Sample) : SMap.t nat :=
  fold_left
    (fun acc item =>
       SMap.set (label item) (countOr0 (SMap.get (label item) acc) + 1)%nat acc)
    dataset [].

(** The list under "Top trained objects":
    [Object.entries(promptCounts).sort((a, b) => b[1] - a[1]).slice(0, 8)]. *)
Definition topTrained (dataset : list Sample) : list (string * nat) :=
  firstn 8 (JS.sort (fun a b => INR (snd b) - INR (snd a)) (promptCounts dataset)).

(** ** The earlier variant of [app.js] *)

(** The file keeps an earlier variant of the program in front of the latest
    one.  Its helpers up to [distance] are the same functions; its
    vocabulary ends differently, its [guessDrawing] is a nearest-neighbour
    search and its [saveDrawing] has no gate.  It has no status message:
    that field of the state is left alone. *)
Module Earlier.

Definition OBJECTS : list string :=
  [ "cat"; "dog"; "tree"; "house"; "car"; "bicycle"; "apple"; "banana"; "fish"; "bird";
    "cloud"; "sun"; "moon"; "star"; "flower"; "cup"; "book"; "chair"; "table"; "phone";
    "clock"; "pizza"; "burger"; "ice cream"; "guitar"; "drum"; "camera"; "airplane"; "rocket"; "boat";
    "train"; "bus"; "robot"; "monster"; "dragon"; "castle"; "crown"; "shoe"; "hat"; "glasses";
    "toothbrush"; "key"; "lock"; "lamp"; "cookie"; "donut"; "snail"; "frog"; "whale"; "snack" ]%string.

Definition randomPrompt (rnd : R) : string :=
  nth (Z.to_nat (JS.Math_floor (rnd * INR (length OBJECTS)))) OBJECTS ""%string.

(** The body of the loop of [guessDrawing] up to [dist]. *)
Definition scoreExample (vec : list R) (feats : Features) (item : Sample) : Scored :=
  let pixelDist := distance vec (vector item) in
  let itemFeatures := featuresOf item in
  let shapeDist := featureDistance feats itemFeatures in
  (label item, pixelDist * 0.7 + shapeDist * 2.2).

(** The local [best]: [{ label, dist }], where [dist] starts as [Infinity],
    here [None]. *)
Record Best : Type := mkBest {
  best_label : string;
  best_dist : option R
}.

(** [if (dist < best.dist) best = { label: item.label, dist }]. *)
Definition nearer (vec : list R) (feats : Features) (best : Best) (item : Sample) : Best :=
  let scored := scoreExample vec feats item in
  let closer :=
    match best_dist best with
    | Some d => JS.ltb (snd scored) d
    | None => true
    end in
  if closer then mkBest (fst scored) (Some (snd scored)) else best.

(** [Math.max(1, Math.round((1 - best.dist / 11) * 100))]; at [Infinity]
    the rounded value is minus infinity and the maximum is 1. *)
Definition confidenceOf (best : Best) : Z :=
  match best_dist best with
  | Some d => Z.max 1 (JS.Math_round ((1 - d / 11) * 100))
  | None => 1
  end.

Definition guessDrawing : M unit :=
  dataset <- read dataset ;;
  if Nat.eqb (length dataset) 0 then
    setGuess "Need training data first" ;;
    setConfidence 0
  else
    vec <- vectorizeCanvas ;;
    strokes <- read strokes ;;
    let feats := combineFeatures vec strokes in
    let best := fold_left (nearer vec feats) dataset (mkBest "unknown" None) in
    setGuess (best_label best) ;;
    setConfidence (confidenceOf best).

Definition clearCanvas : M unit :=
  setCanvas (repeat 0 (GRID_SIZE * GRID_SIZE)) ;;
  setStrokes [] ;;
  setActiveStroke false ;;
  setGuess "unknown" ;;
  setConfidence 0.

Definition saveDrawing (JSON_stringify : json -> string) (now : Z) (rnd : R) : M unit :=
  vec <- vectorizeCanvas ;;
  strokes <- read strokes ;;
  dataset <- read dataset ;;
  prompt <- read prompt ;;
  let feats := combineFeatures vec strokes in
  let updated := appendSample dataset (mkSample prompt vec (Some feats) now) in
  setDataset updated ;;
  saveDataset JSON_stringify updated ;;
  setPrompt (randomPrompt rnd) ;;
  clearCanvas.

End Earlier.

(** ** The arithmetic of the program in double precision *)

(** A JavaScript number is an IEEE 754 binary64 value.  Where a property
    depends on how sums and quotients are rounded, the functions are
    modelled here on Rocq's primitive floats, whose operations are the
    binary64 ones, [NaN] and the infinities included.  [Math.log] is not
    among them, so [featureDistance] and the classifier have no counterpart
    here.  Integers of the source (indices, counts, coordinates of the
    box) are exact in binary64 and stay integers. *)
Module Double.

Import PrimFloat.
#[local] Open Scope float_scope.
#[local] Set Warnings "-inexact-float".

(** [x > y]. *)
Definition gtb (x y : float) : bool := y <? x.

(** [Math.max(x, y)] and [Math.min(x, y)]: [NaN] if either is, and [+0]
    above [-0]. *)
Definition Math_max (x y : float) : float :=
  if is_nan x then x
  else if is_nan y then y
  else if x <? y then y
  else if y <? x then x
  else if is_zero x then x + y
  else x.

Definition Math_min (x y : float) : float :=
  if is_nan x then x
  else if is_nan y then y
  else if x <? y then x
  else if y <? x then y
  else if is_zero x then - ((- x) + (- y))
  else x.

(** [x || 0]: [NaN] and both zeros are falsy. *)
Definition or0 (x : float) : float :=
  if is_nan x || is_zero x then 0 else x.

(** A count or a length as a number. *)
Fixpoint ofNat (n : nat) : float :=
  match n with
  | O => 0
  | S k => ofNat k + 1
  end.

Definition ofZ (z : Z) : float :=
  if (z <? 0)%Z then - ofNat (Z.to_nat (- z)) else ofNat (Z.to_nat z).

(** *** [getDrawingStats] *)

Record DrawingStats : Type := mkDrawingStats {
  vec : list float;
  totalInk : float;
  activePixels : nat;
  drawnStrokeCount : nat;
  hasMeaningfulDrawing : bool
}.

(** The pure part of [getDrawingStats]; of a stroke only the number of
    its points is looked at. *)
Definition drawingStats {P : Type} (vec : list float) (strokes : list (list P))
  : DrawingStats :=
  let totalInk := fold_left (fun sum value => sum + value) vec 0 in
  let activePixels :=
    fold_left (fun count value => (count + (if gtb value 0.18 then 1 else 0))%nat)
              vec 0%nat in
  let drawnStrokeCount :=
    length (filter (fun stroke => Nat.ltb 1 (length stroke)) strokes) in
  mkDrawingStats vec totalInk activePixels drawnStrokeCount
    (gtb totalInk 5 && Nat.ltb 8 activePixels && Nat.ltb 0 drawnStrokeCount).

(** The wording of the specification: "sum of all InkGrid values", taken
    cell after cell; "count of cells with intensity > 0.18"; "count of
    strokes with at least 2 points"; "totalInk > 5 AND activePixels > 8 AND
    drawnStrokeCount > 0". *)
Definition sum (grid : list float) : float := fold_left add grid 0.

Definition inkedCells (grid : list float) : nat :=
  length (filter (fun value => gtb value 0.18) grid).

Definition drawnStrokes {P : Type} (strokes : list (list P)) : nat :=
  length (filter (fun stroke => Nat.leb 2 (length stroke)) strokes).

Definition meaningfulAttempt {P : Type} (grid : list float) (strokes : list (list P))
  : Prop :=
  gtb (sum grid) 5 = true /\ (inkedCells grid > 8)%nat /\ (drawnStrokes strokes > 0)%nat.

(** *** Shape and stroke features *)

Record Features : Type := mkFeatures {
  fillRatio : float;
  aspectRatio : float;
  compactness : float;
  symmetryX : float;
  symmetryY : float;
  edgeDensity : float;
  lengthNorm : float;
  straightness : float;
  strokeCount : option float
}.

Definition threshold : float := 0.2.

Definition scanInk (vector : list float) : float * list nat :=
  fold_left
    (fun (acc : float * list nat) (i : nat) =>
       let value := nth i vector 0 in
       (fst acc + value,
        if gtb value threshold then snd acc ++ [i] else snd acc))
    (seq 0 (length vector)) (0, []).

(** [vector[y * GRID_SIZE + x]], [None] standing for [undefined]. *)
Definition cell (vector : list float) (x y : Z) : option float :=
  let idx := (y * Z.of_nat GRID_SIZE + x)%Z in
  if (idx <? 0)%Z then None else nth_error vector (Z.to_nat idx).

Definition gt_undef (x : option float) (t : float) : bool :=
  match x with
  | Some v => gtb v t
  | None => false
  end.

Definition le_undef (x : option float) (t : float) : bool :=
  match x with
  | Some v => v <=? t
  | None => false
  end.

Definition isEdgeNeighbor (vector : list float) (b : Box) (n : Z * Z) : bool :=
  let (nx, ny) := n in
  if ((nx <? minX b) || (ny <? minY b) || (nx >? maxX b) || (ny >? maxY b))%Z
  then true
  else le_undef (cell vector nx ny) threshold.

Definition shapeStep (vector : list float) (b : Box) (y x : Z) (c : ShapeCounts)
  : ShapeCounts :=
  if negb (gt_undef (cell vector x y) threshold) then c
  else
    let neighbors := [ (x - 1, y); (x + 1, y); (x, y - 1); (x, y + 1) ]%Z in
    let mirrorX := (maxX b - (x - minX b))%Z in
    let mirrorY := (maxY b - (y - minY b))%Z in
    mkShapeCounts
      (if existsb (isEdgeNeighbor vector b) neighbors
       then edgeCount c + 1 else edgeCount c)%nat
      (if gt_undef (cell vector mirrorX y) threshold
       then symmetryMatchesX c + 1 else symmetryMatchesX c)%nat
      (if gt_undef (cell vector x mirrorY) threshold
       then symmetryMatchesY c + 1 else symmetryMatchesY c)%nat
      (symmetryChecksX c + 1)%nat
      (symmetryChecksY c + 1)%nat.

Definition shapeLoop (vector : list float) (b : Box) : ShapeCounts :=
  fold_left
    (fun c y => fold_left (fun c' x => shapeStep vector b y x c')
                          (zrange (minX b) (maxX b)) c)
    (zrange (minY b) (maxY b))
    (mkShapeCounts 0 0 0 0 0).

Definition extractShapeFeatures (vector : list float) : Features :=
  let (ink, active) := scanInk vector in
  if Nat.eqb (length active) 0 then mkFeatures 0 1 0 1 1 0 0 0 None
  else
    let b := boundingBox active in
    let width := (maxX b - minX b + 1)%Z in
    let height := (maxY b - minY b + 1)%Z in
    let boxArea := (width * height)%Z in
    let c := shapeLoop vector b in
    mkFeatures
      (ink / ofNat (GRID_SIZE * GRID_SIZE))
      (ofZ width / Math_max (ofZ height) 1)
      (ofNat (length active) / Math_max (ofZ boxArea) 1)
      (ofNat (symmetryMatchesX c) / Math_max (ofNat (symmetryChecksX c)) 1)
      (ofNat (symmetryMatchesY c) / Math_max (ofNat (symmetryChecksY c)) 1)
      (ofNat (edgeCount c) / Math_max (ofNat (length active)) 1)
      0 0 None.

Record Point : Type := mkPoint { px : float; py : float }.

Definition Stroke : Type := list Point.

(** The inner loop of [extractStrokeFeatures], from the second point on. *)
Definition polylineLength (stroke : Stroke) : float :=
  match stroke with
  | [] => 0
  | first :: rest =>
      snd (fold_left
             (fun (acc : Point * float) (p : Point) =>
                let dx := px p - px (fst acc) in
                let dy := py p - py (fst acc) in
                (p, snd acc + sqrt (dx * dx + dy * dy)))
             rest (first, 0))
  end.

Definition strokeStep (acc : float * float) (stroke : Stroke) : float * float :=
  if Nat.ltb (length stroke) 2 then acc
  else
    let length := polylineLength stroke in
    let first := hd (mkPoint 0 0) stroke in
    let final := last stroke (mkPoint 0 0) in
    let dx := px final - px first in
    let dy := py final - py first in
    let directDistance := sqrt (dx * dx + dy * dy) in
    let straightness := directDistance / Math_max length 1 in
    (fst acc + length, snd acc + straightness * length).

Definition extractStrokeFeatures (strokes : list Stroke) : float * float * float :=
  if Nat.eqb (length strokes) 0 then (0, 0, 0)
  else
    let diagonal := sqrt (500 * 500 + 500 * 500) in
    let (totalLength, weightedStraightness) := fold_left strokeStep strokes (0, 0) in
    (Math_min (totalLength / diagonal) 1.5,
     weightedStraightness / Math_max totalLength 1,
     ofNat (length strokes)).

(** [{...extractShapeFeatures(vector), ...extractStrokeFeatures(strokes)}]. *)
Definition combineFeatures (vector : list float) (strokes : list Stroke) : Features :=
  let shape := extractShapeFeatures vector in
  let '(lengthNorm, straightness, strokeCount) := extractStrokeFeatures strokes in
  mkFeatures (fillRatio shape) (aspectRatio shape) (compactness shape)
             (symmetryX shape) (symmetryY shape) (edgeDensity shape)
             lengthNorm straightness (Some strokeCount).

(** *** [buildPrototypes] *)

Record Sample : Type := mkSample {
  label : string;
  vector : list float;
  features : option Features;
  ts : Z
}.

(** [item.features || combineFeatures(item.vector, [])]. *)
Definition featuresOf (item : Sample) : Features :=
  match features item with
  | Some f => f
  | None => combineFeatures (vector item) []
  end.

Record Bucket : Type := mkBucket {
  count : nat;
  vectorSum : list float;
  featureSum : Features
}.

Definition emptyBucket : Bucket :=
  mkBucket 0 (repeat 0 (GRID_SIZE * GRID_SIZE)) (mkFeatures 0 0 0 0 0 0 0 0 (Some 0)).

(** [for (i < v.length) vectorSum[i] += v[i]]; past the end of [vectorSum]
    the sum is [undefined + v[i]], which is [NaN]. *)
Fixpoint addVector (sums v : list float) : list float :=
  match sums, v with
  | s :: sums', x :: v' => (s + x) :: addVector sums' v'
  | [], x :: v' => nan :: addVector [] v'
  | _, [] => sums
  end.

(** [featureSum[key] += features[key] || 0], key by key. *)
Definition addFeatures (fs f : Features) : Features :=
  mkFeatures
    (fillRatio fs + or0 (fillRatio f))
    (aspectRatio fs + or0 (aspectRatio f))
    (compactness fs + or0 (compactness f))
    (symmetryX fs + or0 (symmetryX f))
    (symmetryY fs + or0 (symmetryY f))
    (edgeDensity fs + or0 (edgeDensity f))
    (lengthNorm fs + or0 (lengthNorm f))
    (straightness fs + or0 (straightness f))
    (Some (match strokeCount fs with Some c => c | None => 0 end
           + match strokeCount f with Some c => or0 c | None => 0 end)).

Definition addSample (byLabel : SMap.t Bucket) (item : Sample) : SMap.t Bucket :=
  let byLabel :=
    if negb (SMap.has (label item) byLabel)
    then SMap.set (label item) emptyBucket byLabel
    else byLabel in
  match SMap.get (label item) byLabel with
  | Some bucket =>
      SMap.set (label item)
        (mkBucket (count bucket + 1)
                  (addVector (vectorSum bucket) (vector item))
                  (addFeatures (featureSum bucket) (featuresOf item)))
        byLabel
  | None => byLabel
  end.

Record Prototype : Type := mkPrototype {
  proto_label : string;
  proto_count : nat;
  proto_vector : list float;
  proto_features : Features
}.

Definition meanFeatures (fs : Features) (n : nat) : Features :=
  mkFeatures
    (fillRatio fs / ofNat n)
    (aspectRatio fs / ofNat n)
    (compactness fs / ofNat n)
    (symmetryX fs / ofNat n)
    (symmetryY fs / ofNat n)
    (edgeDensity fs / ofNat n)
    (lengthNorm fs / ofNat n)
    (straightness fs / ofNat n)
    (option_map (fun c => c / ofNat n) (strokeCount fs)).

Definition prototypeOf (entry : string * Bucket) : Prototype :=
  let (label, bucket) := entry in
  mkPrototype label (count bucket)
    (map (fun value => value / ofNat (count bucket)) (vectorSum bucket))
    (meanFeatures (featureSum bucket) (count bucket)).

Definition buildPrototypes (dataset : list Sample) : list Prototype :=
  map prototypeOf (fold_left addSample dataset []).

Definition findPrototype (lbl : string) (prototypes : list Prototype) : option Prototype :=
  find (fun p => String.eqb (proto_label p) lbl) prototypes.

(** *** Concrete data for the examples *)

(** A rasterised cell of gray level [g]: [1 - g / 255]. *)
Definition ink (g : nat) : float := 1 - ofNat g / 255.

(** [distance] and [cosineDistance]: reading [b] past its end gives
    [undefined], which arithmetic turns into [NaN]. *)
Definition distance (a b : list float) : float :=
  sqrt
    (fold_left
       (fun total i =>
          let d := nth i a nan - nth i b nan in
          total + d * d)
       (seq 0 (length a)) 0).

Definition cosineLoop (a b : list float) : float * float * float :=
  fold_left
    (fun acc i =>
       let '(dot, normA, normB) := acc in
       (dot + nth i a nan * nth i b nan,
        normA + nth i a nan * nth i a nan,
        normB + nth i b nan * nth i b nan))
    (seq 0 (length a)) (0, 0, 0).

Definition cosineDistance (a b : list float) : float :=
  let '(dot, normA, normB) := cosineLoop a b in
  let denom := sqrt normA * sqrt normB in
  if denom =? 0 then 1
  else 1 - dot / denom.

(** [getPoint], on the mouse position. *)
Record Rect : Type := mkRect {
  rect_left : float;
  rect_top : float;
  rect_width : float;
  rect_height : float
}.

Definition getPoint (rect : Rect) (clientX clientY : float) : Point :=
  mkPoint (((clientX - rect_left rect) * 500) / rect_width rect)
          (((clientY - rect_top rect) * 500) / rect_height rect).

(** Nine cells at 0.625 and three at 0.125: total ink 6, nine active
    cells. *)
Definition grid6 : list float := repeat 0.625 9 ++ repeat 0.125 3 ++ repeat 0 244.

Definition blankGrid : list float := repeat 0 (GRID_SIZE * GRID_SIZE).

(** Twenty-five cells of gray level 204: each is a little below 0.2 and
    the running sum ends a little above 5. *)
Definition gray204 : list float := repeat (ink 204) 25 ++ repeat 0 231.

(** Three samples of one label whose cells have the gray levels 0, 6 and
    12. *)
Definition flat (g : nat) : Sample :=
  mkSample "cat" (repeat (ink g) (GRID_SIZE * GRID_SIZE)) None 0.

End Double.

(** ** The classifier on numbers that need not be finite *)

(** [Math.log] is [NaN] below 0 and minus infinity at 0, and the loader
    does not look at stored feature bundles: a store edited by hand can
    hold an aspect ratio whose logarithm is no number.  Here the classifier
    is modelled on the reals extended by the two infinities and [NaN];
    finite values are computed exactly as in the rest of the file, the
    others as IEEE 754 prescribes.  A zero divisor counts as [+0]; the
    classifier divides by none. *)
Module Ext.

Inductive num : Type :=
| Fin (r : R)
| PInf
| NInf
| NaN.

(** An infinity of the sign of [r]; [NaN] at zero. *)
Definition signed (r : R) (pos neg : num) : num :=
  if Rlt_dec 0 r then pos else if Rlt_dec r 0 then neg else NaN.

Definition add (x y : num) : num :=
  match x, y with
  | Fin a, Fin b => Fin (a + b)
  | NaN, _ | _, NaN => NaN
  | PInf, NInf | NInf, PInf => NaN
  | PInf, _ | _, PInf => PInf
  | NInf, _ | _, NInf => NInf
  end.

Definition opp (x : num) : num :=
  match x with
  | Fin a => Fin (- a)
  | PInf => NInf
  | NInf => PInf
  | NaN => NaN
  end.

Definition sub (x y : num) : num := add x (opp y).

Definition mul (x y : num) : num :=
  match x, y with
  | Fin a, Fin b => Fin (a * b)
  | NaN, _ | _, NaN => NaN
  | Fin a, PInf | PInf, Fin a => signed a PInf NInf
  | Fin a, NInf | NInf, Fin a => signed a NInf PInf
  | PInf, PInf | NInf, NInf => PInf
  | PInf, NInf | NInf, PInf => NInf
  end.

Definition div (x y : num) : num :=
  match x, y with
  | Fin a, Fin b => if Req_dec_T b 0 then signed a PInf NInf else Fin (a / b)
  | NaN, _ | _, NaN => NaN
  | Fin _, _ => Fin 0
  | PInf, Fin b => if Rlt_dec b 0 then NInf else PInf
  | NInf, Fin b => if Rlt_dec b 0 then PInf else NInf
  | _, _ => NaN
  end.

Definition Math_sqrt (x : num) : num :=
  match x with
  | Fin a => if Rlt_dec a 0 then NaN else Fin (sqrt a)
  | PInf => PInf
  | _ => NaN
  end.

Definition Math_log (x : num) : num :=
  match x with
  | Fin a => if Rlt_dec 0 a then Fin (ln a) else if Rlt_dec a 0 then NaN else NInf
  | PInf => PInf
  | _ => NaN
  end.

Definition Math_max (x y : num) : num :=
  match x, y with
  | Fin a, Fin b => Fin (Rmax a b)
  | NaN, _ | _, NaN => NaN
  | PInf, _ | _, PInf => PInf
  | NInf, z | z, NInf => z
  end.

Definition Math_min (x y : num) : num :=
  match x, y with
  | Fin a, Fin b => Fin (Rmin a b)
  | NaN, _ | _, NaN => NaN
  | NInf, _ | _, NInf => NInf
  | PInf, z | z, PInf => z
  end.

Definition Math_round (x : num) : num :=
  match x with
  | Fin a => Fin (IZR (JS.Math_round a))
  | _ => x
  end.

(** [x < y] and [x > y]: false when either is [NaN]. *)
Definition ltb (x y : num) : bool :=
  match x, y with
  | Fin a, Fin b => JS.ltb a b
  | NaN, _ | _, NaN => false
  | _, NInf | PInf, _ => false
  | _, _ => true
  end.

Definition gtb (x y : num) : bool := ltb y x.

(** [x || 0]: [NaN] is falsy, and so is 0. *)
Definition or0 (x : option num) : num :=
  match x with
  | Some NaN | None => Fin 0
  | Some v => v
  end.

(** What [sort] makes of the value [v] of its comparator: [NaN] counts as
    [+0], and [v <= 0] keeps the first element first. *)
Definition keepsOrder (v : num) : bool :=
  match v with
  | Fin r => if Rle_dec r 0 then true else false
  | PInf => false
  | NInf => true
  | NaN => true
  end.

(** [arr.sort(cmp)] as in [JS.sort].  With a comparator that yields [NaN]
    on some pairs only, the order of the result is left to the
    implementation; this is one order it may take. *)
Fixpoint sort_insert {A : Type} (cmp : A -> A -> num) (x : A) (l : list A) : list A :=
  match l with
  | [] => [x]
  | y :: l' => if keepsOrder (cmp x y) then x :: y :: l' else y :: sort_insert cmp x l'
  end.

Definition sort {A : Type} (cmp : A -> A -> num) (l : list A) : list A :=
  fold_right (sort_insert cmp) [] l.

(** The [terms] table of [featureDistance]. *)
Definition featureTerms (a b : Features) : list (num * num * R) :=
  let aspectA := Math_log (Fin (aspectRatio a + 1e-6)) in
  let aspectB := Math_log (Fin (aspectRatio b + 1e-6)) in
  let strokeCountA := JS.Math_min (JS.or0 (strokeCount a)) 8 / 8 in
  let strokeCountB := JS.Math_min (JS.or0 (strokeCount b)) 8 / 8 in
  [ (Fin (fillRatio a), Fin (fillRatio b), 1.4);
    (aspectA, aspectB, 1.1);
    (Fin (compactness a), Fin (compactness b), 1.3);
    (Fin (symmetryX a), Fin (symmetryX b), 0.8);
    (Fin (symmetryY a), Fin (symmetryY b), 0.8);
    (Fin (edgeDensity a), Fin (edgeDensity b), 1.1);
    (Fin (lengthNorm a), Fin (lengthNorm b), 1.3);
    (Fin (straightness a), Fin (straightness b), 1.4);
    (Fin strokeCountA, Fin strokeCountB, 0.7) ].

Definition featureDistance (a b : Features) : num :=
  Math_sqrt
    (fold_left
       (fun total (term : num * num * R) =>
          let '(x, y, weight) := term in
          let delta := sub x y in
          add total (mul (mul (Fin weight) delta) delta))
       (featureTerms a b) (Fin 0)).

Definition Scored : Type := (string * num)%type.

Definition scoreExample (vec : list R) (feats : Features) (item : Sample) : Scored :=
  let itemFeatures := featuresOf item in
  let pixelDist := Fin (distance vec (vector item) / JS.Math_sqrt (INR (length vec))) in
  let angularDist := Fin (cosineDistance vec (vector item)) in
  let shapeDist := featureDistance feats itemFeatures in
  (label item,
   add (add (mul pixelDist (Fin 1.9)) (mul angularDist (Fin 1.4)))
       (mul shapeDist (Fin 1.7))).

Definition scorePrototype (vec : list R) (feats : Features) (proto : Prototype) : Scored :=
  let pixelDist :=
    Fin (distance vec (proto_vector proto) / JS.Math_sqrt (INR (length vec))) in
  let angularDist := Fin (cosineDistance vec (proto_vector proto)) in
  let shapeDist := featureDistance feats (proto_features proto) in
  let sampleBonus := Fin (JS.Math_min (INR (proto_count proto)) 12 / 120) in
  (proto_label proto,
   sub (add (add (mul pixelDist (Fin 1.6)) (mul angularDist (Fin 1.2)))
            (mul shapeDist (Fin 1.5)))
       sampleBonus).

Definition castVote (scale : R) (votes : SMap.t num) (scored : Scored) : SMap.t num :=
  let weight := div (Fin scale) (Math_max (snd scored) (Fin 0.05)) in
  SMap.set (fst scored) (add (or0 (SMap.get (fst scored) votes)) weight) votes.

Definition nearestOf (scoredExamples : list Scored) : list Scored :=
  firstn 9 (sort (fun a b => sub (snd a) (snd b)) scoredExamples).

Definition tally (vec : list R) (strokes : list Stroke)
    (dataset : list Sample) (prototypes : list Prototype) : SMap.t num :=
  let feats := combineFeatures vec strokes in
  let scoredExamples := map (scoreExample vec feats) dataset in
  let scoredPrototypes := map (scorePrototype vec feats) prototypes in
  let votes := fold_left (castVote 1) (nearestOf scoredExamples) [] in
  fold_left (castVote 0.9) scoredPrototypes votes.

Definition rank (votes : SMap.t num) : list (string * num) :=
  sort (fun a b => sub (snd b) (snd a)) votes.

Record Verdict : Type := mkVerdict {
  bestLabel : string;
  bestScore : num;
  secondScore : num;
  voteTotal : num;
  margin : num;
  certainty : num;
  prototypeWeight : num;
  conf : num;
  lowConfidence : bool
}.

Definition verdictOf (ranked : list (string * num)) (prototypes : list Prototype)
  : Verdict :=
  let (bestLabel, bestScore) :=
    match ranked with
    | first :: _ => first
    | [] => ("unknown"%string, Fin 0)
    end in
  let secondScore :=
    match ranked with
    | _ :: second :: _ => or0 (Some (snd second))
    | _ => Fin 0
    end in
  let voteTotal := fold_left (fun sum entry => add sum (snd entry)) ranked (Fin 0) in
  let margin := sub bestScore secondScore in
  let certainty := if gtb voteTotal (Fin 0) then div bestScore voteTotal else Fin 0 in
  let prototypeWeight := Fin (JS.Math_min (INR (length prototypes) / 10) 1) in
  let conf :=
    Math_max (Fin 1)
      (Math_min (Fin 99)
         (Math_round
            (mul (add (add (mul certainty (Fin 0.65)) (mul margin (Fin 0.25)))
                      (mul prototypeWeight (Fin 0.1)))
                 (Fin 100)))) in
  let lowConfidence := ltb conf (Fin 60) || ltb margin (Fin 0.12) in
  mkVerdict bestLabel bestScore secondScore voteTotal margin certainty
            prototypeWeight conf lowConfidence.

Definition classify (vec : list R) (strokes : list Stroke)
    (dataset : list Sample) (prototypes : list Prototype) : Verdict :=
  verdictOf (rank (tally vec strokes dataset prototypes)) prototypes.

(** What [guessDrawing] hands to [setGuess], [setConfidence] and
    [setStatusMessage]. *)
Record Shown : Type := mkShown {
  shownGuess : string;
  shownConfidence : num;
  shownStatus : string
}.

Definition guessDrawing (w : World) : Shown :=
  let stats := drawingStats (canvas w) (strokes w) in
  if negb (hasMeaningfulDrawing stats) then
    mkShown "unknown" (Fin 0)
            "Draw something first — erased/blank canvas cannot be guessed."
  else if Nat.eqb (length (dataset w)) 0 then
    mkShown "Need training data first" (Fin 0)
            "Train me with a few drawings before guessing."
  else
    let v := classify (vec stats) (strokes w) (dataset w) (buildPrototypes (dataset w)) in
    mkShown (if lowConfidence v then "unknown" else bestLabel v)
            (conf v)
            (if lowConfidence v
             then "Not confident enough to guess yet — try cleaner strokes."
             else "").

End Ext.

(** A verdict on finite numbers as one on extended numbers, and what the
    state shows as [Ext.guessDrawing] reports it. *)
Definition finiteVerdict (v : Verdict) : Ext.Verdict :=
  Ext.mkVerdict (bestLabel v) (Ext.Fin (bestScore v)) (Ext.Fin (secondScore v))
                (Ext.Fin (voteTotal v)) (Ext.Fin (margin v)) (Ext.Fin (certainty v))
                (Ext.Fin (prototypeWeight v)) (Ext.Fin (IZR (conf v))) (lowConfidence v).

Definition shownBy (w : World) : Ext.Shown :=
  Ext.mkShown (guess w) (Ext.Fin (IZR (confidence w))) (statusMessage w).

(** A scored element and a vote map on finite numbers as ones on extended
    numbers. *)
Definition finiteScored (x : Scored) : Ext.Scored := (fst x, Ext.Fin (snd x)).

Definition finiteVotes (m : SMap.t R) : SMap.t Ext.num :=
  map (fun e => (fst e, Ext.Fin (snd e))) m.

(** ** Further notions used in the statements *)

(** The samples of a dataset that carry a label. *)
Definition samplesOf (lbl : string) (dataset : list Sample) : list Sample :=
  filter (fun s => String.eqb (label s) lbl) dataset.

(** The labels of a list in the order of their first occurrence. *)
Definition firstOccurrences (labels : list string) : list string :=
  fold_left
    (fun seen k => if existsb (String.eqb k) seen then seen else seen ++ [k])
    labels [].

(** The sum of a real-valued quantity over a list. *)
Definition total {A : Type} (f : A -> R) (l : list A) : R :=
  Spec.sum (map f l).

(** The squared Euclidean distance of two vectors, cell by cell. *)
Definition squaredDistance (a b : list R) : R :=
  Spec.sum (map (fun p => (fst p - snd p) * (fst p - snd p)) (combine a b)).

(** The Euclidean distance of two points. *)
Definition pointDistance (p q : Point) : R :=
  sqrt ((px q - px p) * (px q - px p) + (py q - py p) * (py q - py p)).

(** A cell of the grid is above the threshold. *)
Definition inked (vector : list R) (x y : Z) : bool :=
  JS.gt_undef (cell vector x y) threshold.

(** The cells of the bounding box in the order in which the double loop of
    [extractShapeFeatures] visits them. *)
Definition boxCells (b : Box) : list (Z * Z) :=
  flat_map (fun y => map (fun x => (x, y)) (zrange (minX b) (maxX b)))
           (zrange (minY b) (maxY b)).

(** The bounding box [extractShapeFeatures] computes for a vector. *)
Definition boxOf (vector : list R) : Box := boundingBox (snd (scanInk vector)).

(** The inked cells are mirrored left-right, resp. top-bottom, inside the
    bounding box. *)
Definition mirroredX (vector : list R) : Prop :=
  let b := boxOf vector in
  forall x y, In (x, y) (boxCells b) -> inked vector x y = true ->
              inked vector (maxX b - (x - minX b)) y = true.

Definition mirroredY (vector : list R) : Prop :=
  let b := boxOf vector in
  forall x y, In (x, y) (boxCells b) -> inked vector x y = true ->
              inked vector x (maxY b - (y - minY b)) = true.

(** Where the pointer is: the first touch of a touch event, else the
    mouse position. *)
Definition pointerPosition (event : PointerEvent) : R * R :=
  match touches event with
  | touch :: _ => touch
  | [] => (clientX event, clientY event)
  end.

(** The labels of a dataset all belong to the prompt vocabulary. *)
Definition promptLabelled (dataset : list Sample) : Prop :=
  Forall (fun s => In (label s) OBJECTS) dataset.

(** A serialiser for the examples: it prints every value as an empty
    array. *)
Definition constStringify (j : json) : string := "[]"%string.

(** The argument of [Math.log] in [featureDistance] is positive, so that
    the logarithm is a number.  Every bundle the program computes is so
    (its aspect ratio is positive); a bundle read back from a store that
    was edited by hand need not be. *)
Definition logDefined (f : Features) : Prop := 0 < aspectRatio f + 1e-6.

(** Every sample of the dataset has such a bundle. *)
Definition logDefinedOn (dataset : list Sample) : Prop :=
  Forall (fun s => logDefined (featuresOf s)) dataset.

(** How often each label occurs, in the order of first occurrence. *)
Definition labelCounts (labels : list string) : SMap.t nat :=
  fold_left (fun acc l => SMap.set l (countOr0 (SMap.get l acc) + 1)%nat acc) labels [].

(** A stored sample whose bundle was edited by hand: its aspect ratio is
    negative.  The loader keeps it. *)
Definition tamperedSample : Sample :=
  mkSample "cat" Ex.gridV (Some (mkFeatures 0 (-1) 0 1 1 0 0 0 None)) 0.

Definition tamperedWorld : World :=
  mkWorld [tamperedSample] "cat" "unknown" 0 "" false [Ex.stroke3] false Ex.gridV None.

(** The drawing of [Ex.catSample] stored once more, as a "dog". *)
Definition dogTwin : Sample :=
  mkSample "dog" Ex.gridV (Some (combineFeatures Ex.gridV [Ex.stroke3])) 1.

(** The same drawing on the surface, trained once as "cat" and once as
    "dog". *)
Definition tieWorld : World :=
  mkWorld [Ex.catSample; dogTwin] "cat" "unknown" 0 "" false [Ex.stroke3] false
          Ex.gridV None.

(** What the refs of a session always satisfy: an active stroke is the
    last recorded stroke, and there is one only while drawing. *)
Definition refsConsistent (w : World) : Prop :=
  (activeStroke w = true -> strokes w <> [])
  /\ (activeStroke w = true -> isDrawing w = true).

(** All stored vectors have [GRID_SIZE * GRID_SIZE] cells. *)
Definition gridSized (dataset : list Sample) : Prop :=
  Forall (fun s => length (vector s) = (GRID_SIZE * GRID_SIZE)%nat) dataset.

(** * Properties *)

Arguments drawingStats : simpl never.
Arguments classify : simpl never.
Arguments buildPrototypes : simpl never.

(** ** Comparisons *)

Lemma ltb_true_iff (x y : R) : JS.ltb x y = true <-> x < y.
Proof.
  unfold JS.ltb. destruct (Rlt_dec x y); split; intros; try reflexivity;
    try assumption; try discriminate; contradiction.
Qed.

Lemma ltb_false_iff (x y : R) : JS.ltb x y = false <-> y <= x.
Proof.
  unfold JS.ltb. destruct (Rlt_dec x y); split; intros; try reflexivity;
    try discriminate; lra.
Qed.

Lemma gtb_true_iff (x y : R) : JS.gtb x y = true <-> x > y.
Proof. unfold JS.gtb. rewrite ltb_true_iff. lra. Qed.

Lemma gtb_false_iff (x y : R) : JS.gtb x y = false <-> x <= y.
Proof. unfold JS.gtb. apply ltb_false_iff. Qed.

Lemma leb_true_iff (x y : R) : JS.leb x y = true <-> x <= y.
Proof.
  unfold JS.leb. destruct (Rle_dec x y); split; intros; try reflexivity;
    try assumption; try discriminate; contradiction.
Qed.

(** ** What the handlers do to the state *)

(** The three outcomes of [guessDrawing]. *)
Lemma guessDrawing_blank (w : World) :
  ~ meaningful w ->
  exec guessDrawing w =
  mkWorld (dataset w) (prompt w) "unknown" 0
          "Draw something first — erased/blank canvas cannot be guessed."
          (isDrawing w) (strokes w) (activeStroke w) (canvas w) (localStorage w).
Proof.
  unfold meaningful, exec, guessDrawing, getDrawingStats, vectorizeCanvas, bind, read, ret.
  intros H.
  destruct (hasMeaningfulDrawing (drawingStats (canvas w) (strokes w))) eqn:E.
  - exfalso. apply H. reflexivity.
  - reflexivity.
Qed.

Lemma guessDrawing_untrained (w : World) :
  meaningful w -> dataset w = [] ->
  exec guessDrawing w =
  mkWorld (dataset w) (prompt w) "Need training data first" 0
          "Train me with a few drawings before guessing."
          (isDrawing w) (strokes w) (activeStroke w) (canvas w) (localStorage w).
Proof.
  unfold meaningful, exec, guessDrawing, getDrawingStats, vectorizeCanvas, bind, read, ret.
  intros H E. cbv beta iota zeta. rewrite H. cbv beta iota zeta delta [negb]. rewrite E. simpl. rewrite ?E. reflexivity.
Qed.

Lemma guessDrawing_trained (w : World) :
  meaningful w -> dataset w <> [] ->
  exec guessDrawing w =
  let v := classify (canvas w) (strokes w) (dataset w) (buildPrototypes (dataset w)) in
  mkWorld (dataset w) (prompt w)
          (if lowConfidence v then "unknown" else bestLabel v)
          (conf v)
          (if lowConfidence v
           then "Not confident enough to guess yet — try cleaner strokes."
           else "")
          (isDrawing w) (strokes w) (activeStroke w) (canvas w) (localStorage w).
Proof.
  unfold meaningful, exec, guessDrawing, getDrawingStats, vectorizeCanvas, bind, read, ret.
  intros H E. cbv beta iota zeta. rewrite H. cbv beta iota zeta delta [negb].
  destruct (dataset w) as [| s d] eqn:D.
  - contradiction.
  - simpl. rewrite ?D. reflexivity.
Qed.

Lemma meaningful_dec (w : World) : meaningful w \/ ~ meaningful w.
Proof.
  unfold meaningful.
  destruct (hasMeaningfulDrawing (drawingStats (canvas w) (strokes w))).
  - left. reflexivity.
  - right. discriminate.
Qed.

(** C10. Running the classifier leaves the dataset and the persisted store
    as they were: [guessDrawing] changes nothing but the displayed guess,
    the confidence and the status message, and [stopDrawingAndGuess]
    besides only ends the stroke in progress. *)
Theorem guessDrawing_frame :
  forall w : World,
    let w' := exec guessDrawing w in
    let w'' := exec stopDrawingAndGuess w in
    (dataset w' = dataset w /\ localStorage w' = localStorage w
     /\ prompt w' = prompt w /\ strokes w' = strokes w /\ canvas w' = canvas w
     /\ isDrawing w' = isDrawing w /\ activeStroke w' = activeStroke w)
    /\ (dataset w'' = dataset w /\ localStorage w'' = localStorage w
        /\ prompt w'' = prompt w /\ strokes w'' = strokes w /\ canvas w'' = canvas w).
Proof.
  assert (G : forall w, let w' := exec guessDrawing w in
     dataset w' = dataset w /\ localStorage w' = localStorage w
     /\ prompt w' = prompt w /\ strokes w' = strokes w /\ canvas w' = canvas w
     /\ isDrawing w' = isDrawing w /\ activeStroke w' = activeStroke w).
  { intros w. destruct (meaningful_dec w) as [Hm | Hm].
    - destruct (dataset w) as [| s d] eqn:D.
      + cbv zeta. rewrite (guessDrawing_untrained w Hm D). simpl. rewrite D. tauto.
      + assert (Hne : dataset w <> []) by (rewrite D; discriminate).
        cbv zeta. rewrite (guessDrawing_trained w Hm Hne). simpl. rewrite D. tauto.
    - cbv zeta. rewrite (guessDrawing_blank w Hm). simpl. tauto. }
  intros w. split.
  - apply G.
  - unfold stopDrawingAndGuess, stopDrawing, exec, bind, read, ret. simpl.
    destruct (isDrawing w); simpl.
    + match goal with
      | |- context [guessDrawing ?x] => pose proof (G x) as Hx
      end.
      unfold exec in Hx. cbv zeta in Hx. simpl in Hx. tauto.
    + pose proof (G w) as Hx. unfold exec in Hx. tauto.
Qed.

(** ** The meaningful-drawing gate *)

Lemma fold_left_sum (l : list R) (a : R) :
  fold_left (fun sum value => sum + value) l a = a + Spec.sum l.
Proof.
  revert a. induction l as [| x l IH]; intros a; simpl.
  - lra.
  - rewrite IH. lra.
Qed.

Lemma fold_left_count (p : R -> bool) (l : list R) (a : nat) :
  fold_left (fun count value => (count + (if p value then 1 else 0))%nat) l a
  = (a + length (filter p l))%nat.
Proof.
  revert a. induction l as [| x l IH]; intros a; simpl.
  - lia.
  - rewrite IH. destruct (p x); simpl; lia.
Qed.

Lemma sum_app (l1 l2 : list R) : Spec.sum (l1 ++ l2) = Spec.sum l1 + Spec.sum l2.
Proof.
  induction l1 as [| x l1 IH]; simpl.
  - lra.
  - rewrite IH. lra.
Qed.

Lemma sum_repeat (c : R) (n : nat) : Spec.sum (repeat c n) = INR n * c.
Proof.
  induction n as [| n IH].
  - simpl. lra.
  - change (repeat c (S n)) with (c :: repeat c n).
    simpl Spec.sum. rewrite IH, S_INR. lra.
Qed.

Lemma filter_repeat_true {A : Type} (p : A -> bool) (c : A) (n : nat) :
  p c = true -> filter p (repeat c n) = repeat c n.
Proof.
  intros H. induction n as [| n IH]; simpl.
  - reflexivity.
  - rewrite H, IH. reflexivity.
Qed.

Lemma filter_repeat_false {A : Type} (p : A -> bool) (c : A) (n : nat) :
  p c = false -> filter p (repeat c n) = [].
Proof.
  intros H. induction n as [| n IH]; simpl.
  - reflexivity.
  - rewrite H, IH. reflexivity.
Qed.

Lemma drawingStats_fields (grid : list R) (strokes : list Stroke) :
  let st := drawingStats grid strokes in
  vec st = grid
  /\ totalInk st = Spec.sum grid
  /\ activePixels st = Spec.inkedCells grid
  /\ drawnStrokeCount st = Spec.drawnStrokes strokes
  /\ hasMeaningfulDrawing st
     = (JS.gtb (totalInk st) 5 && Nat.ltb 8 (activePixels st)
        && Nat.ltb 0 (drawnStrokeCount st)).
Proof.
  unfold drawingStats. cbv zeta. simpl.
  rewrite fold_left_sum, fold_left_count.
  repeat split.
  - lra.
Qed.

Lemma hasMeaningfulDrawing_iff (grid : list R) (strokes : list Stroke) :
  hasMeaningfulDrawing (drawingStats grid strokes) = true
  <-> Spec.meaningfulAttempt grid strokes.
Proof.
  destruct (drawingStats_fields grid strokes) as (_ & Hi & Ha & Hd & Hm).
  cbv zeta in *. rewrite Hm, Hi, Ha, Hd.
  unfold Spec.meaningfulAttempt.
  rewrite !andb_true_iff, gtb_true_iff, !Nat.ltb_lt. tauto.
Qed.

(** The gate on doubles, as the source computes it. *)
Section DoubleGate.

Import PrimFloat.
#[local] Set Warnings "-inexact-float".

Lemma fold_left_tally {A : Type} (p : A -> bool) (l : list A) (a : nat) :
  fold_left (fun count value => (count + (if p value then 1 else 0))%nat) l a
  = (a + length (filter p l))%nat.
Proof.
  revert a. induction l as [| x l IH]; intros a; simpl.
  - lia.
  - rewrite IH. destruct (p x); simpl; lia.
Qed.

Lemma drawn_strokes_filter {P : Type} (strokes : list (list P)) :
  filter (fun stroke => Nat.ltb 1 (length stroke)) strokes
  = filter (fun stroke => Nat.leb 2 (length stroke)) strokes.
Proof. apply filter_ext. intros stroke. reflexivity. Qed.

Lemma double_stats_fields {P : Type} (grid : list PrimFloat.float)
    (strokes : list (list P)) :
  let st := Double.drawingStats grid strokes in
  Double.totalInk st = Double.sum grid
  /\ Double.activePixels st = Double.inkedCells grid
  /\ Double.drawnStrokeCount st = Double.drawnStrokes strokes
  /\ Double.hasMeaningfulDrawing st
     = (Double.gtb (Double.sum grid) 5%float && Nat.ltb 8 (Double.inkedCells grid)
        && Nat.ltb 0 (Double.drawnStrokes strokes)).
Proof.
  unfold Double.drawingStats, Double.sum, Double.inkedCells, Double.drawnStrokes.
  cbv zeta.
  cbn [Double.totalInk Double.activePixels Double.drawnStrokeCount
       Double.hasMeaningfulDrawing].
  rewrite fold_left_tally, drawn_strokes_filter. repeat split.
Qed.

Lemma double_gate_iff {P : Type} (grid : list PrimFloat.float)
    (strokes : list (list P)) :
  Double.hasMeaningfulDrawing (Double.drawingStats grid strokes) = true
  <-> Double.meaningfulAttempt grid strokes.
Proof.
  destruct (double_stats_fields grid strokes) as (_ & _ & _ & Hm).
  rewrite Hm. unfold Double.meaningfulAttempt.
  rewrite !andb_true_iff, !Nat.ltb_lt. tauto.
Qed.

(** C3.  In the arithmetic of the source, where the ink total is the sum
    of the cells taken in order and rounded at each step, the gate accepts
    exactly when that total exceeds 5, more than 8 cells exceed 0.18 and at
    least one stroke has two points or more; an all-zero grid without
    strokes is rejected, and a grid with ink total 6, 9 active cells and
    one 3-point stroke is accepted. *)
Theorem meaningful_gate :
  (forall (grid : list PrimFloat.float) (strokes : list Stroke),
      let st := Double.drawingStats grid strokes in
      Double.totalInk st = Double.sum grid
      /\ Double.activePixels st = Double.inkedCells grid
      /\ Double.drawnStrokeCount st = Double.drawnStrokes strokes
      /\ (Double.hasMeaningfulDrawing st = true
          <-> Double.gtb (Double.sum grid) 5%float = true
              /\ (Double.inkedCells grid > 8)%nat
              /\ (Double.drawnStrokes strokes > 0)%nat))
  /\ (forall grid : list PrimFloat.float,
         Forall (fun value => value = PrimFloat.zero) grid ->
         Double.hasMeaningfulDrawing (Double.drawingStats grid (@nil Stroke)) = false)
  /\ (forall (grid : list PrimFloat.float) (p q r : Point),
         Double.sum grid = 6%float -> Double.inkedCells grid = 9%nat ->
         Double.hasMeaningfulDrawing (Double.drawingStats grid [[p; q; r]]) = true).
Proof.
  split; [| split].
  - intros grid strokes st.
    destruct (double_stats_fields grid strokes) as (Hi & Ha & Hd & _).
    split; [exact Hi | split; [exact Ha | split; [exact Hd |]]].
    exact (double_gate_iff grid strokes).
  - intros grid _.
    destruct (double_stats_fields grid (@nil Stroke)) as (_ & _ & _ & Hm).
    rewrite Hm. apply andb_false_r.
  - intros grid p q r Hs Ha.
    apply double_gate_iff. unfold Double.meaningfulAttempt.
    rewrite Hs, Ha. split; [reflexivity | split; [lia |]].
    unfold Double.drawnStrokes. cbn. lia.
Qed.

Lemma blankGrid_double_zero :
  Forall (fun value => value = PrimFloat.zero) Double.blankGrid.
Proof.
  unfold Double.blankGrid. apply Forall_forall. intros x Hx.
  apply repeat_spec in Hx. exact Hx.
Qed.

Lemma grid6_sum : Double.sum Double.grid6 = 6%float.
Proof. vm_compute. reflexivity. Qed.

Lemma grid6_inked : Double.inkedCells Double.grid6 = 9%nat.
Proof. vm_compute. reflexivity. Qed.

(** The two examples of C3, on concrete grids. *)
Lemma meaningful_gate_witness :
  Double.hasMeaningfulDrawing (Double.drawingStats Double.blankGrid (@nil Stroke)) = false
  /\ Double.hasMeaningfulDrawing (Double.drawingStats Double.grid6 [Ex.stroke3]) = true.
Proof.
  split.
  - exact (proj1 (proj2 meaningful_gate) Double.blankGrid blankGrid_double_zero).
  - exact (proj2 (proj2 meaningful_gate) Double.grid6 _ _ _ grid6_sum grid6_inked).
Defined.

(** The sum is the rounded one: twenty-five cells just below 0.2 add up to
    just above 5 and pass, where their exact sum would be 5 and fail. *)
Example gate_follows_rounding :
  Double.sum Double.gray204 = 5.000000000000002%float
  /\ Double.inkedCells Double.gray204 = 25%nat
  /\ Double.hasMeaningfulDrawing (Double.drawingStats Double.gray204 [Ex.stroke3]) = true.
Proof.
  assert (Hs : Double.sum Double.gray204 = 5.000000000000002%float)
    by (vm_compute; reflexivity).
  assert (Hi : Double.inkedCells Double.gray204 = 25%nat) by (vm_compute; reflexivity).
  split; [exact Hs | split; [exact Hi |]].
  apply double_gate_iff. unfold Double.meaningfulAttempt. rewrite Hs, Hi.
  split; [vm_compute; reflexivity | split; [lia |]].
  unfold Double.drawnStrokes. cbn. lia.
Qed.

End DoubleGate.

Lemma gridV_meaningful (strokes : list Stroke) :
  hasMeaningfulDrawing (drawingStats Ex.gridV (Ex.stroke3 :: strokes)) = true.
Proof.
  apply hasMeaningfulDrawing_iff. unfold Spec.meaningfulAttempt, Ex.gridV.
  split; [| split].
  - rewrite sum_app, !sum_repeat, Rmult_0_r.
    change 16%nat with (15 + 1)%nat. rewrite plus_INR. simpl. lra.
  - unfold Spec.inkedCells. rewrite filter_app.
    rewrite filter_repeat_true by (apply gtb_true_iff; lra).
    rewrite filter_repeat_false by (apply gtb_false_iff; lra).
    rewrite app_nil_r, repeat_length. lia.
  - unfold Spec.drawnStrokes. simpl. lia.
Qed.

Lemma no_strokes_not_meaningful (grid : list R) :
  hasMeaningfulDrawing (drawingStats grid []) = false.
Proof.
  destruct (hasMeaningfulDrawing (drawingStats grid [])) eqn:E.
  - apply hasMeaningfulDrawing_iff in E.
    destruct E as (_ & _ & E). unfold Spec.drawnStrokes in E. simpl in E. lia.
  - reflexivity.
Qed.

Lemma drawnWorld_meaningful : meaningful Ex.drawnWorld.
Proof. exact (gridV_meaningful []). Qed.

Lemma catWorld_meaningful : meaningful Ex.catWorld.
Proof. exact (gridV_meaningful []). Qed.

Lemma blankWorld_not_meaningful : ~ meaningful Ex.blankWorld.
Proof.
  unfold meaningful.
  change (strokes Ex.blankWorld) with (@nil Stroke).
  rewrite no_strokes_not_meaningful. discriminate.
Qed.

(** ** Classification against an empty dataset *)

(** C6, as amended.  With an empty dataset the confidence is always 0; a
    meaningful attempt gets the "Need training data first" sentinel, the
    handler reducing to its three state updates, while an attempt that is
    not meaningful is rejected before the dataset is looked at and gets
    "unknown". *)
Theorem guessDrawing_empty_dataset :
  forall w : World,
    dataset w = [] ->
    confidence (exec guessDrawing w) = 0%Z
    /\ (meaningful w ->
        exec guessDrawing w
        = exec (setGuess "Need training data first" ;;
                setConfidence 0 ;;
                setStatusMessage "Train me with a few drawings before guessing.") w
        /\ guess (exec guessDrawing w) = "Need training data first"%string)
    /\ (~ meaningful w -> guess (exec guessDrawing w) = "unknown"%string).
Proof.
  intros w E. split; [| split].
  - destruct (meaningful_dec w) as [Hm | Hm].
    + rewrite (guessDrawing_untrained w Hm E). reflexivity.
    + rewrite (guessDrawing_blank w Hm). reflexivity.
  - intros Hm. rewrite (guessDrawing_untrained w Hm E). split; reflexivity.
  - intros Hm. rewrite (guessDrawing_blank w Hm). reflexivity.
Qed.

(** C6 at a drawn surface with nothing trained. *)
Lemma guessDrawing_empty_dataset_witness :
  confidence (exec guessDrawing Ex.drawnWorld) = 0%Z
  /\ guess (exec guessDrawing Ex.drawnWorld) = "Need training data first"%string.
Proof.
  destruct (guessDrawing_empty_dataset Ex.drawnWorld eq_refl) as (Hc & Hm & _).
  split.
  - exact Hc.
  - exact (proj2 (Hm drawnWorld_meaningful)).
Defined.

(** C6 as stated fails on a blank surface: the dataset is empty, and the
    guess is "unknown", not the training sentinel. *)
Lemma guessDrawing_empty_dataset_blank :
  dataset Ex.blankWorld = []
  /\ guess (exec guessDrawing Ex.blankWorld) = "unknown"%string
  /\ guess (exec guessDrawing Ex.blankWorld) <> "Need training data first"%string.
Proof.
  rewrite (guessDrawing_blank _ blankWorld_not_meaningful).
  split; [reflexivity | split; [reflexivity | discriminate]].
Qed.

(** ** The low-confidence rule *)

Lemma verdictOf_fields (ranked : list (string * R)) (prototypes : list Prototype) :
  let v := verdictOf ranked prototypes in
  margin v = bestScore v - secondScore v
  /\ certainty v = (if JS.gtb (voteTotal v) 0 then bestScore v / voteTotal v else 0)
  /\ prototypeWeight v = JS.Math_min (INR (length prototypes) / 10) 1
  /\ conf v = Z.max 1 (Z.min 99 (JS.Math_round
       ((certainty v * 0.65 + margin v * 0.25 + prototypeWeight v * 0.1) * 100)))
  /\ lowConfidence v = ((conf v <? 60)%Z || JS.ltb (margin v) 0.12).
Proof.
  unfold verdictOf.
  destruct ranked as [| [l s] rest]; cbv zeta; simpl; repeat split.
Qed.

Lemma catWorld_trained : dataset Ex.catWorld <> [].
Proof.
  change (dataset Ex.catWorld) with (Ex.catSample :: repeat Ex.catSample 9).
  discriminate.
Qed.

(** ** Appending to the dataset *)

Lemma slice_last_length {A : Type} (n : nat) (l : list A) :
  length (JS.slice_last n l) = Nat.min n (length l).
Proof. unfold JS.slice_last. rewrite length_skipn. lia. Qed.

Lemma slice_last_all {A : Type} (n : nat) (l : list A) :
  (length l <= n)%nat -> JS.slice_last n l = l.
Proof.
  intros H. unfold JS.slice_last.
  replace (length l - n)%nat with 0%nat by lia. reflexivity.
Qed.

Lemma appendSample_survivors (ds : list Sample) (s : Sample) :
  appendSample ds s = skipn (length ds + 1 - 2000) ds ++ [s].
Proof.
  unfold appendSample, JS.slice_last.
  rewrite length_app. cbn [length].
  rewrite skipn_app.
  replace (length ds + 1 - 2000 - length ds)%nat with 0%nat by lia.
  reflexivity.
Qed.

Lemma saveDrawing_meaningful (stringify : json -> string) (now : Z) (rnd : R) (w : World) :
  meaningful w ->
  let updated :=
    appendSample (dataset w)
      (mkSample (prompt w) (canvas w)
                (Some (combineFeatures (canvas w) (strokes w))) now) in
  exec (saveDrawing stringify now rnd) w =
  mkWorld updated (randomPrompt rnd) "unknown" 0 "Saved to training set. Nice."
          (isDrawing w) [] false (repeat 0 (GRID_SIZE * GRID_SIZE))
          (Some (stringify (JArr (map jsonOfSample updated)))).
Proof.
  unfold meaningful, exec, saveDrawing, getDrawingStats, vectorizeCanvas, bind, read, ret.
  intros H. cbv beta iota zeta. rewrite H. reflexivity.
Qed.

Lemma saveDrawing_blank (stringify : json -> string) (now : Z) (rnd : R) (w : World) :
  ~ meaningful w ->
  exec (saveDrawing stringify now rnd) w =
  mkWorld (dataset w) (prompt w) (guess w) (confidence w)
          "Nope — draw first. Blank/erased canvas won't be saved to training."
          (isDrawing w) (strokes w) (activeStroke w) (canvas w) (localStorage w).
Proof.
  unfold meaningful, exec, saveDrawing, getDrawingStats, vectorizeCanvas, bind, read, ret.
  intros H.
  destruct (hasMeaningfulDrawing (drawingStats (canvas w) (strokes w))) eqn:E.
  - exfalso. apply H. reflexivity.
  - reflexivity.
Qed.

(** C4. Appending keeps the prior samples in order with the new one at the
    end and never yields more than 2000 entries; below the cap nothing is
    evicted, and at exactly 2000 entries exactly the oldest one is.
    [saveDrawing] on a meaningful attempt stores and persists that list. *)
Theorem appendSample_bounded :
  forall (ds : list Sample) (s : Sample),
    let ds' := appendSample ds s in
    (length ds' <= 2000)%nat
    /\ ds' = skipn (length ds + 1 - 2000) ds ++ [s]
    /\ ((length ds < 2000)%nat -> ds' = ds ++ [s])
    /\ (length ds = 2000%nat ->
        ds' = tl ds ++ [s] /\ length ds' = 2000%nat /\ length (tl ds) = 1999%nat)
    /\ (forall (stringify : json -> string) (now : Z) (rnd : R) (w : World),
           dataset w = ds -> meaningful w ->
           s = mkSample (prompt w) (canvas w)
                        (Some (combineFeatures (canvas w) (strokes w))) now ->
           let w' := exec (saveDrawing stringify now rnd) w in
           dataset w' = ds'
           /\ localStorage w' = Some (stringify (JArr (map jsonOfSample ds')))).
Proof.
  intros ds s ds'. subst ds'.
  split; [| split; [| split; [| split]]].
  - unfold appendSample. rewrite slice_last_length. lia.
  - apply appendSample_survivors.
  - intros H. unfold appendSample. apply slice_last_all.
    rewrite length_app. cbn [length]. lia.
  - intros H. rewrite appendSample_survivors, H.
    replace (2000 + 1 - 2000)%nat with 1%nat by lia.
    destruct ds as [| x ds]; [discriminate |].
    cbn [skipn tl]. cbn [length] in H.
    split; [reflexivity | split].
    + rewrite length_app. cbn [length]. lia.
    + lia.
  - intros stringify now rnd w Hd Hm Hs. cbv zeta.
    rewrite (saveDrawing_meaningful stringify now rnd w Hm). cbv zeta.
    cbn [dataset localStorage]. rewrite Hd, <- Hs. split; reflexivity.
Qed.

(** C4 at a full dataset: 2000 samples, the oldest one distinguished. *)
Lemma appendSample_bounded_witness :
  appendSample (Ex.dogSample :: repeat Ex.catSample 1999) Ex.catSample
  = repeat Ex.catSample 1999 ++ [Ex.catSample].
Proof.
  refine (proj1 (proj1 (proj2 (proj2 (proj2
    (appendSample_bounded (Ex.dogSample :: repeat Ex.catSample 1999) Ex.catSample)))) _)).
  cbn [length]. rewrite repeat_length. reflexivity.
Defined.

(** ** Loading the dataset *)

(** Only an object has a [label] property, so the truthiness test of the
    filter is implied by the test on the label. *)
Lemma validEntry_shapeCheck (item : json) : validEntry item = Spec.shapeCheck item.
Proof.
  unfold validEntry, Spec.shapeCheck.
  destruct item; cbn [Json.truthy Json.prop Json.is_string andb];
    rewrite ?andb_false_r; reflexivity.
Qed.

Lemma structuralCheck_shapeCheck (item : json) :
  Spec.structuralCheck item = true -> Spec.shapeCheck item = true.
Proof.
  unfold Spec.structuralCheck, Spec.shapeCheck, Json.is_array_of_length.
  intros H. apply andb_true_iff in H. destruct H as [Hl Hv].
  rewrite Hl. simpl.
  destruct (Json.prop "vector" item) as [[| | | | cells |] |]; try discriminate.
  apply andb_true_iff in Hv. apply Hv.
Qed.

Lemma loadDataset_parsed (parse : string -> option json) (text : string)
    (items : list json) :
  text <> ""%string -> parse text = Some (JArr items) ->
  loadDataset parse (Some text) = filter validEntry items.
Proof.
  intros Hne Hp. unfold loadDataset.
  destruct (String.eqb_spec text "") as [E | _]; [contradiction |].
  rewrite Hp. reflexivity.
Qed.

Lemma loadDataset_cases (parse : string -> option json) (raw : option string) :
  loadDataset parse raw = []
  \/ exists text items,
       raw = Some text /\ text <> ""%string /\ parse text = Some (JArr items)
       /\ loadDataset parse raw = filter validEntry items.
Proof.
  destruct raw as [text |]; [| left; reflexivity].
  unfold loadDataset.
  destruct (String.eqb_spec text "") as [E | Hne]; [left; reflexivity |].
  destruct (parse text) as [[| | | | items |] |] eqn:Hp; try (left; reflexivity).
  right. exists text, items. repeat split; assumption.
Qed.

(** C5, as amended.  [loadDataset] returns exactly the stored entries whose
    label is a string and whose vector is an array of [GRID_SIZE * GRID_SIZE]
    cells (the cells themselves are not looked at), in their stored order,
    and it returns the empty dataset when the item is absent or empty, does
    not parse, or does not parse to an array. *)
Theorem loadDataset_forgiving :
  forall (parse : string -> option json) (raw : option string),
    (forall item, In item (loadDataset parse raw) -> Spec.shapeCheck item = true)
    /\ (forall text items,
           raw = Some text -> text <> ""%string -> parse text = Some (JArr items) ->
           loadDataset parse raw = filter Spec.shapeCheck items
           /\ (forall item, In item items -> Spec.structuralCheck item = true ->
                            In item (loadDataset parse raw)))
    /\ (raw = None -> loadDataset parse raw = [])
    /\ (raw = Some ""%string -> loadDataset parse raw = [])
    /\ (forall text, raw = Some text -> parse text = None -> loadDataset parse raw = [])
    /\ (forall text v, raw = Some text -> parse text = Some v ->
                       (forall items, v <> JArr items) -> loadDataset parse raw = []).
Proof.
  intros parse raw.
  assert (Hfilter : forall items, filter validEntry items = filter Spec.shapeCheck items).
  { intros items. apply filter_ext. intros a. apply validEntry_shapeCheck. }
  split; [| split; [| split; [| split; [| split]]]].
  - intros item Hin.
    destruct (loadDataset_cases parse raw) as [E | (text & items & _ & _ & _ & E)];
      rewrite E in Hin.
    + destruct Hin.
    + apply filter_In in Hin. rewrite <- validEntry_shapeCheck. apply Hin.
  - intros text items Hr Hne Hp. subst raw.
    rewrite (loadDataset_parsed parse text items Hne Hp), Hfilter.
    split; [reflexivity |].
    intros item Hin Hs. apply filter_In. split; [exact Hin |].
    apply structuralCheck_shapeCheck. exact Hs.
  - intros Hr. subst raw. reflexivity.
  - intros Hr. subst raw. reflexivity.
  - intros text Hr Hp. subst raw. unfold loadDataset.
    destruct (String.eqb text ""); [reflexivity |]. rewrite Hp. reflexivity.
  - intros text v Hr Hp Hv. subst raw. unfold loadDataset.
    destruct (String.eqb text ""); [reflexivity |]. rewrite Hp.
    destruct v; try reflexivity. exfalso. apply (Hv items). reflexivity.
Qed.

Lemma goodEntry_valid : validEntry Ex.goodEntry = true.
Proof. reflexivity. Qed.

Lemma noLabelEntry_invalid : validEntry Ex.noLabelEntry = false.
Proof. reflexivity. Qed.

(** A store holding one well-formed sample and one entry without a label
    loads as the sample alone. *)
Lemma loadDataset_drops_unlabelled (parse : string -> option json) (text : string) :
  text <> ""%string ->
  parse text = Some (JArr [Ex.goodEntry; Ex.noLabelEntry]) ->
  loadDataset parse (Some text) = [Ex.goodEntry].
Proof.
  intros Hne Hp. rewrite (loadDataset_parsed parse text _ Hne Hp).
  cbn [filter]. rewrite goodEntry_valid, noLabelEntry_invalid. reflexivity.
Qed.

(** C5 as stated fails on an entry whose vector holds 256 strings: it is
    not a vector of numbers, and the loader keeps it. *)
Lemma loadDataset_keeps_text_vector :
  Spec.structuralCheck Ex.textEntry = false
  /\ validEntry Ex.textEntry = true
  /\ (forall (parse : string -> option json) (text : string),
         text <> ""%string -> parse text = Some (JArr [Ex.textEntry]) ->
         loadDataset parse (Some text) = [Ex.textEntry]).
Proof.
  assert (Hv : validEntry Ex.textEntry = true) by reflexivity.
  split; [reflexivity | split; [exact Hv |]].
  intros parse text Hne Hp.
  rewrite (loadDataset_parsed parse text _ Hne Hp).
  cbn [filter]. rewrite Hv. reflexivity.
Qed.

(** ** Index loops and sums *)

Lemma fold_left_over_map {A B C : Type} (f : A -> B -> A) (g : C -> B)
    (l : list C) (acc : A) :
  fold_left f (map g l) acc = fold_left (fun a c => f a (g c)) l acc.
Proof.
  revert acc. induction l as [| c l IH]; intros acc; simpl.
  - reflexivity.
  - apply IH.
Qed.

(** A loop over the indices of [a] that reads [a[i]] and [b[i]] is a fold
    over the pairs of cells, when [b] is as long as [a]. *)
Lemma fold_index_combine {S : Type} (F : S -> R -> R -> S) (a b : list R) (acc : S) :
  length a = length b ->
  fold_left (fun acc i => F acc (nth i a 0) (nth i b 0)) (seq 0 (length a)) acc
  = fold_left (fun acc p => F acc (fst p) (snd p)) (combine a b) acc.
Proof.
  revert b acc. induction a as [| x a IH]; intros b acc Hlen.
  - reflexivity.
  - destruct b as [| y b]; [discriminate |].
    cbn [length seq fold_left combine nth fst snd].
    rewrite <- seq_shift, fold_left_over_map. cbn [nth].
    apply IH. cbn [length] in Hlen. lia.
Qed.

Lemma fold_left_sum_map {A : Type} (f : A -> R) (l : list A) (acc : R) :
  fold_left (fun total p => total + f p) l acc = acc + Spec.sum (map f l).
Proof.
  revert acc. induction l as [| x l IH]; intros acc; simpl.
  - lra.
  - rewrite IH. lra.
Qed.

Lemma sum_nonneg (l : list R) : Forall (fun x => 0 <= x) l -> 0 <= Spec.sum l.
Proof.
  induction 1 as [| x l Hx _ IH]; simpl; lra.
Qed.

Lemma dot_self_nonneg (a : list R) : 0 <= Spec.dot a a.
Proof.
  unfold Spec.dot. apply sum_nonneg.
  apply Forall_forall. intros x Hx. apply in_map_iff in Hx.
  destruct Hx as ([u v] & <- & Hin). apply in_combine_l in Hin as Hu.
  assert (u = v).
  { clear Hu. revert Hin. generalize a at 1 2. induction a0 as [| z a0 IH]; simpl.
    - intros [].
    - intros [E | Hin]; [inversion E; reflexivity | apply IH; exact Hin]. }
  subst v. simpl. nra.
Qed.

(** ** Cosine distance *)

Lemma cosineLoop_spec (a b : list R) :
  length a = length b ->
  cosineLoop a b = mkCosineAcc (Spec.dot a b) (Spec.dot a a) (Spec.dot b b).
Proof.
  intros Hlen. unfold cosineLoop.
  rewrite (fold_index_combine
             (fun acc x y => mkCosineAcc (acc_dot acc + x * y)
                                         (acc_normA acc + x * x)
                                         (acc_normB acc + y * y)) a b _ Hlen).
  unfold Spec.dot.
  assert (G : forall (l : list (R * R)) d na nb,
             fold_left (fun acc p => mkCosineAcc (acc_dot acc + fst p * snd p)
                                                 (acc_normA acc + fst p * fst p)
                                                 (acc_normB acc + snd p * snd p))
                       l (mkCosineAcc d na nb)
             = mkCosineAcc (d + Spec.sum (map (fun p => fst p * snd p) l))
                           (na + Spec.sum (map (fun p => fst p * fst p) l))
                           (nb + Spec.sum (map (fun p => snd p * snd p) l))).
  { induction l as [| p l IH]; intros d na nb; cbn [fold_left map Spec.sum fold_right].
    - f_equal; lra.
    - cbn [acc_dot acc_normA acc_normB]. rewrite IH. unfold Spec.sum. f_equal; simpl; lra. }
  rewrite G, !Rplus_0_l.
  assert (Ha : forall (f : R -> R) (l1 l2 : list R),
             length l1 = length l2 ->
             map (fun p : R * R => f (fst p)) (combine l1 l2) = map f l1).
  { intros f l1. induction l1 as [| x l1 IH]; intros [| y l2] E; try discriminate.
    - reflexivity.
    - simpl. rewrite IH by (simpl in E; lia). reflexivity. }
  assert (Hb : forall (f : R -> R) (l1 l2 : list R),
             length l1 = length l2 ->
             map (fun p : R * R => f (snd p)) (combine l1 l2) = map f l2).
  { intros f l1. induction l1 as [| x l1 IH]; intros [| y l2] E; try discriminate.
    - reflexivity.
    - simpl. rewrite IH by (simpl in E; lia). reflexivity. }
  assert (Hd : forall l : list R,
             map (fun p : R * R => fst p * snd p) (combine l l) = map (fun x => x * x) l).
  { induction l as [| x l IH]; simpl; [reflexivity | rewrite IH; reflexivity]. }
  rewrite (Ha (fun x => x * x) a b Hlen), (Hb (fun x => x * x) a b Hlen), !Hd.
  reflexivity.
Qed.

(** C8. On vectors of equal length [cosineDistance] is
    [1 - dot(a,b) / (|a| |b|)] when both norms are non-zero, the divisor
    being non-zero then, and it is exactly 1 when either norm is zero: the
    division is never reached with a zero divisor. *)
Theorem cosineDistance_spec :
  forall a b : list R,
    length a = length b ->
    (Spec.norm a <> 0 -> Spec.norm b <> 0 ->
     Spec.norm a * Spec.norm b <> 0
     /\ cosineDistance a b = 1 - Spec.dot a b / (Spec.norm a * Spec.norm b))
    /\ (Spec.norm a = 0 \/ Spec.norm b = 0 -> cosineDistance a b = 1).
Proof.
  intros a b Hlen. unfold cosineDistance.
  rewrite (cosineLoop_spec a b Hlen). cbn [acc_dot acc_normA acc_normB].
  fold (Spec.norm a). fold (Spec.norm b). unfold JS.Math_sqrt.
  fold (Spec.norm a). fold (Spec.norm b).
  split.
  - intros Ha Hb.
    assert (Hab : Spec.norm a * Spec.norm b <> 0).
    { intros E. apply Rmult_integral in E. tauto. }
    split; [exact Hab |].
    destruct (Req_dec_T (Spec.norm a * Spec.norm b) 0); [contradiction | reflexivity].
  - intros H.
    destruct (Req_dec_T (Spec.norm a * Spec.norm b) 0) as [_ | Hne]; [reflexivity |].
    exfalso. apply Hne. destruct H as [H | H]; rewrite H; ring.
Qed.

Lemma norm_unit : Spec.norm [1; 0] = 1.
Proof.
  unfold Spec.norm, Spec.dot. simpl.
  replace (1 * 1 + (0 * 0 + 0)) with 1 by lra. apply sqrt_1.
Qed.

Lemma norm_zero : Spec.norm [0; 0] = 0.
Proof.
  unfold Spec.norm, Spec.dot. simpl.
  replace (0 * 0 + (0 * 0 + 0)) with 0 by lra. apply sqrt_0.
Qed.

(** C8 on a unit vector against itself and against the zero vector. *)
Lemma cosineDistance_spec_witness :
  cosineDistance [1; 0] [1; 0] = 1 - Spec.dot [1; 0] [1; 0] / (Spec.norm [1; 0] * Spec.norm [1; 0])
  /\ cosineDistance [0; 0] [1; 0] = 1.
Proof.
  split.
  - refine (proj2 (proj1 (cosineDistance_spec [1; 0] [1; 0] eq_refl) _ _));
      rewrite norm_unit; lra.
  - refine (proj2 (cosineDistance_spec [0; 0] [1; 0] eq_refl) _).
    left. exact norm_zero.
Defined.

(** ** Insertion-ordered maps *)

Section SMapFacts.

Context {V : Type}.

Lemma smap_get_set_same (k : string) (v : V) (m : SMap.t V) :
  SMap.get k (SMap.set k v m) = Some v.
Proof.
  induction m as [| [k' v'] m IH]; simpl.
  - rewrite String.eqb_refl. reflexivity.
  - destruct (String.eqb k' k) eqn:E; simpl; rewrite E; [reflexivity | exact IH].
Qed.

Lemma smap_get_set_other (k k' : string) (v : V) (m : SMap.t V) :
  k <> k' -> SMap.get k' (SMap.set k v m) = SMap.get k' m.
Proof.
  intros Hne. induction m as [| [k0 v0] m IH]; simpl.
  - destruct (String.eqb_spec k k'); [contradiction | reflexivity].
  - destruct (String.eqb_spec k0 k) as [-> | Hk]; simpl.
    + destruct (String.eqb_spec k k'); [contradiction | reflexivity].
    + destruct (String.eqb_spec k0 k'); [reflexivity | exact IH].
Qed.

Lemma smap_keys_set (k : string) (v : V) (m : SMap.t V) :
  map fst (SMap.set k v m)
  = if SMap.has k m then map fst m else map fst m ++ [k].
Proof.
  unfold SMap.has. induction m as [| [k' v'] m IH]; simpl.
  - reflexivity.
  - destruct (String.eqb k' k) eqn:E; simpl.
    + reflexivity.
    + rewrite IH. destruct (SMap.get k m); reflexivity.
Qed.

Lemma smap_get_in_keys (k : string) (m : SMap.t V) :
  SMap.get k m <> None <-> In k (map fst m).
Proof.
  induction m as [| [k' v'] m IH]; simpl.
  - split; [congruence | tauto].
  - destruct (String.eqb_spec k' k) as [-> | Hne].
    + split; [intros _; left; reflexivity | discriminate].
    + rewrite IH. split; [tauto | intros [E | H]; [contradiction | exact H]].
Qed.

Lemma smap_get_in (k : string) (v : V) (m : SMap.t V) :
  NoDup (map fst m) -> (SMap.get k m = Some v <-> In (k, v) m).
Proof.
  induction m as [| [k' v'] m IH]; simpl; intros Hnd.
  - split; [discriminate | tauto].
  - inversion Hnd as [| ? ? Hnotin Hnd']; subst.
    destruct (String.eqb_spec k' k) as [-> | Hne].
    + split.
      * intros E. inversion E. left. reflexivity.
      * intros [E | Hin]; [inversion E; reflexivity |].
        exfalso. apply Hnotin. apply in_map_iff. exists (k, v). split; [reflexivity | exact Hin].
    + rewrite (IH Hnd'). split; [tauto |].
      intros [E | Hin]; [inversion E; contradiction | exact Hin].
Qed.

Lemma smap_set_nodup (k : string) (v : V) (m : SMap.t V) :
  NoDup (map fst m) -> NoDup (map fst (SMap.set k v m)).
Proof.
  intros Hnd. rewrite smap_keys_set. unfold SMap.has.
  destruct (SMap.get k m) eqn:E; [exact Hnd |].
  apply NoDup_app; [exact Hnd | repeat constructor; intros [] |].
  intros x Hin [<- | []].
  apply smap_get_in_keys in Hin. congruence.
Qed.

Lemma smap_nodup_pairs (m : SMap.t V) : NoDup (map fst m) -> NoDup m.
Proof. apply NoDup_map_inv. Qed.

(** Two maps with distinct keys and the same bindings hold the same
    entries, possibly in another order. *)
Lemma smap_same_bindings (m1 m2 : SMap.t V) :
  NoDup (map fst m1) -> NoDup (map fst m2) ->
  (forall k, SMap.get k m1 = SMap.get k m2) ->
  Permutation m1 m2.
Proof.
  intros H1 H2 Hget.
  apply NoDup_Permutation; try (apply smap_nodup_pairs; assumption).
  intros [k v]. rewrite <- (smap_get_in k v m1 H1), <- (smap_get_in k v m2 H2), Hget.
  tauto.
Qed.

End SMapFacts.

(** ** Prototypes *)


Lemma addVector_nil_r (sums : list R) : addVector sums [] = sums.
Proof. destruct sums; reflexivity. Qed.

Lemma addVector_comm (sums v1 v2 : list R) :
  addVector (addVector sums v1) v2 = addVector (addVector sums v2) v1.
Proof.
  revert v1 v2. induction sums as [| s sums IH]; intros v1 v2.
  - reflexivity.
  - destruct v1 as [| x1 v1], v2 as [| x2 v2]; cbn [addVector]; try reflexivity.
    rewrite IH. f_equal. lra.
Qed.

Lemma addFeatures_comm (fs : FeatureSum) (f g : Features) :
  addFeatures (addFeatures fs f) g = addFeatures (addFeatures fs g) f.
Proof.
  unfold addFeatures. cbn. f_equal; lra.
Qed.

Lemma bump_comm (b : Bucket) (x y : Sample) :
  bump (bump b x) y = bump (bump b y) x.
Proof.
  unfold bump. cbn [count vectorSum featureSum].
  rewrite addVector_comm, addFeatures_comm. reflexivity.
Qed.

Lemma bumpFor_comm (lbl : string) (ob : option Bucket) (x y : Sample) :
  bumpFor lbl (bumpFor lbl ob x) y = bumpFor lbl (bumpFor lbl ob y) x.
Proof.
  unfold bumpFor.
  destruct (String.eqb (label x) lbl), (String.eqb (label y) lbl); try reflexivity.
  rewrite bump_comm. reflexivity.
Qed.

(** A fold whose steps commute does not depend on the order of the list. *)
Lemma fold_left_commuting {A B : Type} (f : A -> B -> A) :
  (forall a x y, f (f a x) y = f (f a y) x) ->
  forall l1 l2, Permutation l1 l2 -> forall a, fold_left f l1 a = fold_left f l2 a.
Proof.
  intros Hc l1 l2 Hp. induction Hp as [| x l1 l2 _ IH | x y l | l1 l2 l3 _ IH1 _ IH2];
    intros a; cbn [fold_left].
  - reflexivity.
  - apply IH.
  - rewrite Hc. reflexivity.
  - rewrite IH1. apply IH2.
Qed.

Lemma addSample_get (lbl : string) (m : SMap.t Bucket) (item : Sample) :
  SMap.get lbl (addSample m item) = bumpFor lbl (SMap.get lbl m) item.
Proof.
  unfold addSample, bumpFor, SMap.has.
  destruct (SMap.get (label item) m) as [b |] eqn:E; cbn [negb].
  - rewrite E. fold (bump b item).
    destruct (String.eqb_spec (label item) lbl) as [<- | Hne].
    + rewrite smap_get_set_same, E. reflexivity.
    + apply smap_get_set_other. exact Hne.
  - rewrite smap_get_set_same. fold (bump emptyBucket item).
    destruct (String.eqb_spec (label item) lbl) as [<- | Hne].
    + rewrite smap_get_set_same, E. reflexivity.
    + rewrite !smap_get_set_other by exact Hne. reflexivity.
Qed.

Lemma buckets_get (lbl : string) (ds : list Sample) (m : SMap.t Bucket) :
  SMap.get lbl (fold_left addSample ds m) = fold_left (bumpFor lbl) ds (SMap.get lbl m).
Proof.
  revert m. induction ds as [| item ds IH]; intros m; cbn [fold_left].
  - reflexivity.
  - rewrite IH, addSample_get. reflexivity.
Qed.

Lemma addSample_nodup (m : SMap.t Bucket) (item : Sample) :
  NoDup (map fst m) -> NoDup (map fst (addSample m item)).
Proof.
  intros Hnd. unfold addSample.
  set (m' := if negb (SMap.has (label item) m)
             then SMap.set (label item) emptyBucket m else m).
  assert (Hnd' : NoDup (map fst m')).
  { subst m'. destruct (negb (SMap.has (label item) m));
      [apply smap_set_nodup |]; exact Hnd. }
  destruct (SMap.get (label item) m'); [apply smap_set_nodup |]; exact Hnd'.
Qed.

Lemma buckets_nodup (ds : list Sample) (m : SMap.t Bucket) :
  NoDup (map fst m) -> NoDup (map fst (fold_left addSample ds m)).
Proof.
  revert m. induction ds as [| item ds IH]; intros m Hnd; cbn [fold_left].
  - exact Hnd.
  - apply IH, addSample_nodup, Hnd.
Qed.

Lemma bumpFor_some (lbl : string) (ds : list Sample) (ob : option Bucket) :
  fold_left (bumpFor lbl) ds ob <> None <-> ob <> None \/ In lbl (map label ds).
Proof.
  revert ob. induction ds as [| item ds IH]; intros ob; cbn [fold_left map In].
  - tauto.
  - rewrite IH. unfold bumpFor.
    destruct (String.eqb_spec (label item) lbl) as [E | Hne].
    + split; [intros _; right; left; exact E | intros _; left; discriminate].
    + tauto.
Qed.

(** The labels that get a bucket are the labels of the dataset. *)
Lemma buckets_keys (lbl : string) (ds : list Sample) :
  In lbl (map fst (fold_left addSample ds [])) <-> In lbl (map label ds).
Proof.
  rewrite <- smap_get_in_keys, buckets_get, bumpFor_some. cbn [SMap.get].
  split; [intros [H | H]; [congruence | exact H] | intros H; right; exact H].
Qed.

Lemma findPrototype_get (lbl : string) (m : SMap.t Bucket) :
  findPrototype lbl (map prototypeOf m)
  = option_map (fun b => prototypeOf (lbl, b)) (SMap.get lbl m).
Proof.
  unfold findPrototype. induction m as [| [k b] m IH]; cbn [map find SMap.get].
  - reflexivity.
  - cbn [prototypeOf proto_label].
    destruct (String.eqb_spec k lbl) as [-> | Hne]; [reflexivity | exact IH].
Qed.

(** With exact sums, two datasets holding the same samples in different
    orders give the same prototype for every label, and the two lists of
    prototypes hold the same prototypes. *)
Lemma buildPrototypes_permuted :
  forall ds1 ds2 : list Sample,
    Permutation ds1 ds2 ->
    (forall lbl, findPrototype lbl (buildPrototypes ds1)
                 = findPrototype lbl (buildPrototypes ds2))
    /\ Permutation (buildPrototypes ds1) (buildPrototypes ds2)
    /\ length (buildPrototypes ds1) = length (buildPrototypes ds2).
Proof.
  intros ds1 ds2 Hp.
  assert (Hget : forall lbl,
             SMap.get lbl (fold_left addSample ds1 [])
             = SMap.get lbl (fold_left addSample ds2 [])).
  { intros lbl. rewrite !buckets_get.
    apply fold_left_commuting; [apply bumpFor_comm | exact Hp]. }
  assert (Hperm : Permutation (buildPrototypes ds1) (buildPrototypes ds2)).
  { unfold buildPrototypes. apply Permutation_map.
    apply smap_same_bindings; try (apply buckets_nodup; constructor). exact Hget. }
  split; [| split].
  - intros lbl. unfold buildPrototypes. rewrite !findPrototype_get, Hget. reflexivity.
  - exact Hperm.
  - apply Permutation_length. exact Hperm.
Qed.

Lemma buildPrototypes_length (ds : list Sample) :
  length (buildPrototypes ds) = Spec.distinctLabels ds.
Proof.
  unfold buildPrototypes, Spec.distinctLabels.
  rewrite length_map, <- (length_map fst).
  apply Permutation_length, NoDup_Permutation.
  - apply buckets_nodup. constructor.
  - apply NoDup_nodup.
  - intros lbl. rewrite buckets_keys, nodup_In. tauto.
Qed.

Lemma buildPrototypes_labels (ds : list Sample) (p : Prototype) :
  In p (buildPrototypes ds) -> In (proto_label p) (map label ds).
Proof.
  unfold buildPrototypes. intros Hin. apply in_map_iff in Hin.
  destruct Hin as ([k b] & <- & Hin). cbn [prototypeOf proto_label].
  apply buckets_keys. apply in_map_iff. exists (k, b). split; [reflexivity | exact Hin].
Qed.

(** ** Sorting *)

Section SortFacts.

Context {A : Type} (cmp : A -> A -> R).

Lemma sort_insert_perm (x : A) (l : list A) :
  Permutation (JS.sort_insert cmp x l) (x :: l).
Proof.
  induction l as [| y l IH]; cbn [JS.sort_insert].
  - apply Permutation_refl.
  - destruct (Rle_dec (cmp x y) 0).
    + apply Permutation_refl.
    + apply perm_trans with (y :: x :: l); [apply perm_skip, IH | apply perm_swap].
Qed.

Lemma sort_perm (l : list A) : Permutation (JS.sort cmp l) l.
Proof.
  unfold JS.sort. induction l as [| x l IH]; cbn [fold_right].
  - apply perm_nil.
  - apply perm_trans with (x :: fold_right (JS.sort_insert cmp) [] l).
    + apply sort_insert_perm.
    + apply perm_skip, IH.
Qed.

Lemma sort_length (l : list A) : length (JS.sort cmp l) = length l.
Proof. apply Permutation_length, sort_perm. Qed.

Lemma sort_forall (P : A -> Prop) (l : list A) :
  Forall P l -> Forall P (JS.sort cmp l).
Proof.
  intros H. apply (Permutation_Forall (Permutation_sym (sort_perm l))). exact H.
Qed.

End SortFacts.


Lemma rank_insert_descending (x : string * R) (l : list (string * R)) :
  descending l -> descending (JS.sort_insert (fun a b => snd b - snd a) x l).
Proof.
  unfold descending. induction 1 as [| y l Hs IH Hall]; cbn [JS.sort_insert].
  - repeat constructor.
  - destruct (Rle_dec (snd y - snd x) 0) as [Hle | Hgt].
    + constructor; [constructor; assumption |].
      constructor; [lra |].
      eapply Forall_impl; [| exact Hall]. cbn beta. intros a Ha. lra.
    + constructor; [exact IH |].
      apply (Permutation_Forall (Permutation_sym
               (sort_insert_perm (fun a b => snd b - snd a) x l))).
      constructor; [lra | exact Hall].
Qed.

Lemma rank_descending (votes : SMap.t R) : descending (rank votes).
Proof.
  unfold rank, JS.sort. induction votes as [| x l IH]; cbn [fold_right].
  - constructor.
  - apply rank_insert_descending, IH.
Qed.

Lemma rank_perm (votes : SMap.t R) : Permutation (rank votes) votes.
Proof. apply sort_perm. Qed.

(** ** The largest tallies *)

Lemma largest_cons_ge (x : R) (rest : list R) :
  x <= fold_right Rmax x rest /\ Forall (fun y => y <= fold_right Rmax x rest) rest.
Proof.
  induction rest as [| y rest [IH1 IH2]]; cbn [fold_right].
  - split; [lra | constructor].
  - split.
    + apply Rle_trans with (fold_right Rmax x rest); [exact IH1 | apply Rmax_r].
    + constructor; [apply Rmax_l |].
      eapply Forall_impl; [| exact IH2]. cbn beta. intros a Ha.
      apply Rle_trans with (fold_right Rmax x rest); [exact Ha | apply Rmax_r].
Qed.

Lemma largest_cons_in (x : R) (rest : list R) : In (fold_right Rmax x rest) (x :: rest).
Proof.
  induction rest as [| y rest IH]; cbn [fold_right].
  - left. reflexivity.
  - unfold Rmax at 1. destruct (Rle_dec y (fold_right Rmax x rest)).
    + destruct IH as [IH | IH]; [left; exact IH | right; right; exact IH].
    + right. left. reflexivity.
Qed.

Lemma largest_ge (l : list R) (x : R) : In x l -> x <= Spec.largest l.
Proof.
  destruct l as [| y rest]; [intros [] |].
  cbn [Spec.largest]. destruct (largest_cons_ge y rest) as [H1 H2].
  intros [<- | Hin]; [exact H1 |].
  rewrite Forall_forall in H2. apply H2, Hin.
Qed.

Lemma largest_in (l : list R) : l <> [] -> In (Spec.largest l) l.
Proof.
  destruct l as [| y rest]; [congruence |].
  intros _. apply largest_cons_in.
Qed.

Lemma largest_perm (l l' : list R) :
  Permutation l l' -> Spec.largest l = Spec.largest l'.
Proof.
  intros Hp. destruct l as [| x l].
  - apply Permutation_nil in Hp. subst l'. reflexivity.
  - assert (Hne : x :: l <> []) by discriminate.
    assert (Hne' : l' <> []).
    { intros ->. apply Permutation_sym, Permutation_nil in Hp. discriminate. }
    apply Rle_antisym; apply largest_ge.
    + apply (Permutation_in _ Hp), largest_in, Hne.
    + apply (Permutation_in _ (Permutation_sym Hp)), largest_in, Hne'.
Qed.

Lemma largest_head (x : R) (rest : list R) :
  Forall (fun y => y <= x) rest -> Spec.largest (x :: rest) = x.
Proof.
  intros H. apply Rle_antisym.
  - destruct (largest_in (x :: rest)) as [E | Hin]; [discriminate | rewrite <- E; lra |].
    rewrite Forall_forall in H. apply H, Hin.
  - apply largest_ge. left. reflexivity.
Qed.

Lemma removeOne_perm (x : R) (l r : list R) :
  Permutation (x :: r) l -> Permutation r (Spec.removeOne x l).
Proof.
  intros Hp.
  assert (Hin : In x l) by (apply (Permutation_in _ Hp); left; reflexivity).
  assert (Hx : Permutation l (x :: Spec.removeOne x l)).
  { clear Hp. induction l as [| y l IH]; [destruct Hin |].
    cbn [Spec.removeOne]. destruct (Req_dec_T x y) as [<- | Hne].
    - apply Permutation_refl.
    - destruct Hin as [E | Hin]; [congruence |].
      apply perm_trans with (y :: x :: Spec.removeOne x l);
        [apply perm_skip, IH, Hin | apply perm_swap]. }
  apply Permutation_cons_inv with x.
  apply perm_trans with l; assumption.
Qed.

Lemma sum_perm (l l' : list R) : Permutation l l' -> Spec.sum l = Spec.sum l'.
Proof.
  induction 1 as [| x l l' _ IH | x y l | l1 l2 l3 _ IH1 _ IH2]; simpl; lra.
Qed.

Lemma sum_positive (l : list R) :
  l <> [] -> Forall (fun x => 0 < x) l -> 0 < Spec.sum l.
Proof.
  intros Hne H. destruct H as [| x l Hx Hl]; [congruence |].
  simpl. assert (0 <= Spec.sum l); [| lra].
  apply sum_nonneg. eapply Forall_impl; [| exact Hl]. cbn beta. intros a Ha. lra.
Qed.

(** The top of the ranking is the largest tally, the next one the largest
    of the others, and the total is the sum of all tallies. *)
Lemma verdictOf_rank (votes : SMap.t R) (prototypes : list Prototype) :
  votes <> [] ->
  let v := verdictOf (rank votes) prototypes in
  bestScore v = Spec.best votes
  /\ secondScore v = Spec.second votes
  /\ voteTotal v = Spec.voteMass votes
  /\ In (bestLabel v, bestScore v) votes.
Proof.
  intros Hne.
  pose proof (rank_perm votes) as Hp. pose proof (rank_descending votes) as Hd.
  assert (Hps : Permutation (map snd (rank votes)) (map snd votes))
    by (apply Permutation_map, Hp).
  unfold verdictOf. destruct (rank votes) as [| [l1 b] rest] eqn:E.
  - apply Permutation_nil in Hp. contradiction.
  - cbv zeta. cbn [bestScore secondScore voteTotal bestLabel].
    unfold descending in Hd. apply StronglySorted_inv in Hd. destruct Hd as [Hd Hall].
    cbn [map snd] in Hps.
    assert (Hb : Spec.best votes = b).
    { unfold Spec.best. rewrite <- (largest_perm _ _ Hps). apply largest_head.
      apply Forall_forall. intros y Hy. apply in_map_iff in Hy.
      destruct Hy as (e & <- & He). rewrite Forall_forall in Hall. apply (Hall e He). }
    split; [symmetry; exact Hb | split; [| split]].
    + unfold Spec.second. rewrite Hb.
      rewrite <- (largest_perm _ _ (removeOne_perm b _ _ Hps)).
      destruct rest as [| [l2 s] rest']; [reflexivity |].
      cbn [map snd]. symmetry. apply largest_head.
      apply StronglySorted_inv in Hd. destruct Hd as [_ Hall2].
      apply Forall_forall. intros y Hy. apply in_map_iff in Hy.
      destruct Hy as (e & <- & He). rewrite Forall_forall in Hall2. apply (Hall2 e He).
    + rewrite (fold_left_sum_map snd), Rplus_0_l. unfold Spec.voteMass.
      apply sum_perm. exact Hps.
    + apply (Permutation_in _ Hp). left. reflexivity.
Qed.

(** ** Votes *)

Lemma smap_get_value {V : Type} (k : string) (v : V) (m : SMap.t V) :
  SMap.get k m = Some v -> In v (map snd m).
Proof.
  induction m as [| [k' v'] m IH]; cbn [SMap.get map snd In].
  - discriminate.
  - destruct (String.eqb k' k).
    + intros E. inversion E. left. reflexivity.
    + intros E. right. apply IH, E.
Qed.

Lemma smap_set_values {V : Type} (Q : V -> Prop) (k : string) (v : V) (m : SMap.t V) :
  Q v -> Forall Q (map snd m) -> Forall Q (map snd (SMap.set k v m)).
Proof.
  intros Hv. induction m as [| [k' v'] m IH]; cbn [SMap.set map snd]; intros H.
  - constructor; [exact Hv | constructor].
  - inversion H as [| ? ? Hq Hrest]; subst.
    destruct (String.eqb k' k); cbn [map snd].
    + constructor; assumption.
    + constructor; [exact Hq | apply IH, Hrest].
Qed.

Lemma smap_set_nonempty {V : Type} (k : string) (v : V) (m : SMap.t V) :
  SMap.set k v m <> [].
Proof.
  destruct m as [| [k' v'] m]; cbn [SMap.set]; [discriminate |].
  destruct (String.eqb k' k); discriminate.
Qed.

Lemma vote_weight_positive (scale dist : R) :
  0 < scale -> 0 < scale / JS.Math_max dist 0.05.
Proof.
  intros Hs. apply Rdiv_lt_0_compat; [exact Hs |].
  unfold JS.Math_max. apply Rlt_le_trans with 0.05; [lra | apply Rmax_r].
Qed.

Lemma castVote_positive (scale : R) (votes : SMap.t R) (scored : Scored) :
  0 < scale ->
  Forall (fun t => 0 < t) (map snd votes) ->
  Forall (fun t => 0 < t) (map snd (castVote scale votes scored)).
Proof.
  intros Hs H. unfold castVote. apply smap_set_values; [| exact H].
  pose proof (vote_weight_positive scale (snd scored) Hs) as Hw.
  destruct (SMap.get (fst scored) votes) as [t |] eqn:E; cbn [JS.or0]; [| lra].
  apply smap_get_value in E. rewrite Forall_forall in H. specialize (H t E). lra.
Qed.

Lemma castVotes_positive (scale : R) (l : list Scored) (votes : SMap.t R) :
  0 < scale ->
  Forall (fun t => 0 < t) (map snd votes) ->
  Forall (fun t => 0 < t) (map snd (fold_left (castVote scale) l votes)).
Proof.
  intros Hs. revert votes. induction l as [| x l IH]; intros votes H; cbn [fold_left].
  - exact H.
  - apply IH, castVote_positive; assumption.
Qed.

Lemma castVotes_nonempty (scale : R) (l : list Scored) (votes : SMap.t R) :
  votes <> [] \/ l <> [] -> fold_left (castVote scale) l votes <> [].
Proof.
  revert votes. induction l as [| x l IH]; intros votes H; cbn [fold_left].
  - destruct H as [H | H]; [exact H | congruence].
  - apply IH. left. apply smap_set_nonempty.
Qed.

Lemma nearestOf_nonempty (scored : list Scored) : scored <> [] -> nearestOf scored <> [].
Proof.
  intros Hne. unfold nearestOf.
  match goal with |- context [JS.sort ?c scored] => set (sorted := JS.sort c scored) end.
  assert (Hl : length sorted = length scored) by apply sort_length.
  destruct sorted as [| a l]; [| simpl; discriminate].
  destruct scored; [congruence | discriminate Hl].
Qed.

Lemma tally_positive (grid : list R) (strokes : list Stroke)
    (ds : list Sample) (prototypes : list Prototype) :
  Forall (fun t => 0 < t) (map snd (tally grid strokes ds prototypes)).
Proof.
  unfold tally. cbv zeta.
  apply castVotes_positive; [lra |].
  apply castVotes_positive; [lra | constructor].
Qed.

Lemma tally_nonempty (grid : list R) (strokes : list Stroke)
    (ds : list Sample) (prototypes : list Prototype) :
  ds <> [] -> tally grid strokes ds prototypes <> [].
Proof.
  intros Hne. unfold tally. cbv zeta.
  apply castVotes_nonempty. left.
  apply castVotes_nonempty. right.
  apply nearestOf_nonempty. destruct ds; [congruence | discriminate].
Qed.

Lemma tally_mass_positive (grid : list R) (strokes : list Stroke)
    (ds : list Sample) (prototypes : list Prototype) :
  ds <> [] -> 0 < Spec.voteMass (tally grid strokes ds prototypes).
Proof.
  intros Hne. unfold Spec.voteMass. apply sum_positive.
  - pose proof (tally_nonempty grid strokes ds prototypes Hne) as H.
    destruct (tally grid strokes ds prototypes); [congruence | discriminate].
  - apply tally_positive.
Qed.

(** ** The confidence *)

Lemma round_integer (n : Z) : JS.Math_round (IZR n) = n.
Proof. unfold JS.Math_round. apply Zfloor_eq. lra. Qed.

Lemma round_monotone (x y : R) : x <= y -> (JS.Math_round x <= JS.Math_round y)%Z.
Proof. intros H. unfold JS.Math_round. apply Zfloor_le. lra. Qed.

(** Clamping after rounding, as the source does, is clamping before it. *)
Lemma clamp_round (x : R) :
  Z.max 1 (Z.min 99 (JS.Math_round (x * 100)))
  = Spec.clampZ (JS.Math_round (100 * Spec.clamp x 0.01 0.99)) 1 99.
Proof.
  unfold Spec.clampZ, Spec.clamp.
  destruct (Rle_dec x 0.01) as [Hlo | Hlo].
  - rewrite (Rmin_right 0.99 x) by lra. rewrite (Rmax_left 0.01 x) by lra.
    replace (100 * 0.01) with (IZR 1) by lra. rewrite round_integer.
    pose proof (round_monotone (x * 100) (IZR 1) ltac:(lra)) as H.
    rewrite round_integer in H. lia.
  - destruct (Rle_dec x 0.99) as [Hhi | Hhi].
    + rewrite (Rmin_right 0.99 x) by lra. rewrite (Rmax_right 0.01 x) by lra.
      replace (100 * x) with (x * 100) by lra. reflexivity.
    + rewrite (Rmin_left 0.99 x) by lra. rewrite (Rmax_right 0.01 0.99) by lra.
      replace (100 * 0.99) with (IZR 99) by lra. rewrite round_integer.
      pose proof (round_monotone (IZR 99) (x * 100) ltac:(lra)) as H.
      rewrite round_integer in H. lia.
Qed.

(** On finite tallies the emitted confidence is round(100 clamp(0.65
    certainty + 0.25 margin + 0.10 prototypeWeight, 0.01, 0.99)) clamped to
    [1, 99], where certainty is the share of the largest tally in the sum
    of all tallies, margin the difference between the two largest tallies,
    and prototypeWeight min(distinct labels / 10, 1). *)
Lemma confidence_of_tallies :
  forall w : World,
    meaningful w -> dataset w <> [] ->
    let votes := tally (canvas w) (strokes w) (dataset w) (buildPrototypes (dataset w)) in
    let certainty := Spec.best votes / Spec.voteMass votes in
    let margin := Spec.best votes - Spec.second votes in
    let prototypeWeight := Rmin (INR (Spec.distinctLabels (dataset w)) / 10) 1 in
    confidence (exec guessDrawing w) = Spec.confidenceOf certainty margin prototypeWeight
    /\ (1 <= confidence (exec guessDrawing w) <= 99)%Z
    /\ Spec.voteMass votes > 0.
Proof.
  intros w Hm Hne. cbv zeta.
  rewrite (guessDrawing_trained w Hm Hne). cbv zeta. cbn [confidence].
  unfold classify.
  set (votes := tally (canvas w) (strokes w) (dataset w) (buildPrototypes (dataset w))).
  pose proof (tally_mass_positive (canvas w) (strokes w) (dataset w)
                (buildPrototypes (dataset w)) Hne) as Hmass.
  fold votes in Hmass.
  assert (Hv : votes <> []) by (apply tally_nonempty, Hne).
  destruct (verdictOf_rank votes (buildPrototypes (dataset w)) Hv) as (Hb & Hs & Ht & _).
  destruct (verdictOf_fields (rank votes) (buildPrototypes (dataset w)))
    as (Hmar & Hcer & Hpw & Hconf & _).
  cbv zeta in Hb, Hs, Ht, Hmar, Hcer, Hpw, Hconf.
  set (v := verdictOf (rank votes) (buildPrototypes (dataset w))) in *.
  assert (Hc : certainty v = Spec.best votes / Spec.voteMass votes).
  { rewrite Hcer, Ht, Hb.
    replace (JS.gtb (Spec.voteMass votes) 0) with true; [reflexivity |].
    symmetry. apply gtb_true_iff. lra. }
  assert (Hconf' : conf v = Spec.confidenceOf (Spec.best votes / Spec.voteMass votes)
                     (Spec.best votes - Spec.second votes)
                     (Rmin (INR (Spec.distinctLabels (dataset w)) / 10) 1)).
  { rewrite Hconf, clamp_round. unfold Spec.confidenceOf.
    rewrite Hc, Hmar, Hb, Hs, Hpw, buildPrototypes_length. unfold JS.Math_min.
    replace (0.10) with (0.1) by lra. reflexivity. }
  split; [exact Hconf' | split; [| lra]].
  rewrite Hconf. lia.
Qed.

(** ** Distances of a drawing to itself *)

Lemma distance_self (v : list R) : distance v v = 0.
Proof.
  unfold distance.
  assert (G : forall (l : list nat) (acc : R),
             fold_left (fun total i => let d := nth i v 0 - nth i v 0 in total + d * d)
                       l acc = acc).
  { induction l as [| i l IH]; intros acc; cbn [fold_left].
    - reflexivity.
    - rewrite IH. cbv zeta. ring. }
  rewrite G. apply sqrt_0.
Qed.

Lemma cosineDistance_self (v : list R) :
  (Spec.norm v <> 0 -> cosineDistance v v = 0) /\ 0 <= cosineDistance v v <= 1.
Proof.
  unfold cosineDistance. rewrite (cosineLoop_spec v v eq_refl).
  cbn [acc_dot acc_normA acc_normB]. unfold JS.Math_sqrt.
  rewrite (sqrt_sqrt _ (dot_self_nonneg v)).
  destruct (Req_dec_T (Spec.dot v v) 0) as [E | Hne].
  - split; [| lra]. intros H. exfalso. apply H. unfold Spec.norm. rewrite E. apply sqrt_0.
  - assert (Spec.dot v v / Spec.dot v v = 1) by (field; exact Hne).
    split; [intros _ |]; lra.
Qed.

Lemma featureDistance_self (f : Features) : featureDistance f f = 0.
Proof.
  unfold featureDistance, featureTerms. cbn [fold_left]. unfold JS.Math_sqrt.
  match goal with
  | |- sqrt ?t = 0 => replace t with 0 by ring
  end.
  apply sqrt_0.
Qed.

(** ** A dataset with a single label *)

Lemma firstn_forall {A : Type} (P : A -> Prop) (n : nat) (l : list A) :
  Forall P l -> Forall P (firstn n l).
Proof.
  intros H. revert n. induction H as [| x l Hx _ IH]; intros [| n]; cbn [firstn];
    constructor; [exact Hx | apply IH].
Qed.












(** ** Concrete runs *)

(** Decides the comparisons of a sort on concrete tallies. *)
Ltac decide_order :=
  repeat (cbn [fold_right JS.sort_insert snd];
          match goal with
          | |- context [Rle_dec ?a ?b] => destruct (Rle_dec a b); try lra
          end).

Example rank_three :
  rank [("a"%string, 1); ("b"%string, 3); ("c"%string, 2)]
  = [("b"%string, 3); ("c"%string, 2); ("a"%string, 1)].
Proof.
  unfold rank, JS.sort. decide_order. reflexivity.
Qed.

(** Equal tallies keep the order in which the labels entered the map. *)
Example rank_tie :
  rank [("a"%string, 2); ("b"%string, 2)] = [("a"%string, 2); ("b"%string, 2)].
Proof.
  unfold rank, JS.sort. decide_order. reflexivity.
Qed.

Example appendSample_two :
  appendSample [Ex.dogSample] Ex.catSample = [Ex.dogSample; Ex.catSample].
Proof. reflexivity. Qed.

Example buildPrototypes_labels_in_order :
  map proto_label (buildPrototypes [Ex.catSample; Ex.dogSample; Ex.catSample])
  = ["cat"%string; "dog"%string]
  /\ map proto_count (buildPrototypes [Ex.catSample; Ex.dogSample; Ex.catSample])
     = [2%nat; 1%nat].
Proof. split; reflexivity. Qed.

Example votes_accumulate :
  SMap.get "cat" (castVote 1 (castVote 1 [] ("cat"%string, 1)) ("cat"%string, 2))
  = Some (0 + 1 / Rmax 1 0.05 + 1 / Rmax 2 0.05).
Proof. reflexivity. Qed.

Example saveDrawing_then_guess (stringify : json -> string) :
  let w := exec (saveDrawing stringify 0 0) Ex.drawnWorld in
  dataset w = [mkSample "cat" Ex.gridV (Some (combineFeatures Ex.gridV [Ex.stroke3])) 0]
  /\ guess w = "unknown"%string
  /\ localStorage w
     = Some (stringify (JArr [jsonOfSample
               (mkSample "cat" Ex.gridV (Some (combineFeatures Ex.gridV [Ex.stroke3])) 0)])).
Proof.
  cbv zeta. rewrite (saveDrawing_meaningful stringify 0 0 _ drawnWorld_meaningful).
  cbv zeta. cbn [dataset guess localStorage].
  repeat split.
Qed.

(** * Further properties of the code *)

(** ** The prompt and the rasterised surface *)

Lemma objects_count : length OBJECTS = 50%nat.
Proof. reflexivity. Qed.

Lemma randomPrompt_index (rnd : R) :
  0 <= rnd < 1 ->
  (Z.to_nat (JS.Math_floor (rnd * INR (length OBJECTS))) < length OBJECTS)%nat.
Proof.
  intros [H0 H1]. rewrite objects_count.
  rewrite INR_IZR_INZ. change (Z.of_nat 50) with 50%Z.
  unfold JS.Math_floor.
  pose proof (Zfloor_bound (rnd * 50)) as [Hlo Hhi].
  assert (Hge : (0 <= Zfloor (rnd * 50))%Z).
  { apply Zfloor_lub. simpl. lra. }
  assert (Hlt : (Zfloor (rnd * 50) < 50)%Z).
  { apply lt_IZR. lra. }
  lia.
Qed.

(** [randomPrompt] always yields a word of the vocabulary: for a value of
    [Math.random()] in [0, 1) the index stays inside [OBJECTS]. *)
Theorem randomPrompt_in_vocabulary :
  forall rnd : R, 0 <= rnd < 1 -> In (randomPrompt rnd) OBJECTS.
Proof.
  intros rnd H. unfold randomPrompt. apply nth_In. apply randomPrompt_index. exact H.
Qed.

Lemma randomPrompt_in_vocabulary_witness : In (randomPrompt (1 / 2)) OBJECTS.
Proof. apply randomPrompt_in_vocabulary. lra. Defined.

Lemma inkOfImageData_pixels (n : nat) (data : list Z) :
  length data = (4 * n)%nat ->
  Forall (fun c => (0 <= c <= 255)%Z) data ->
  length (inkOfImageData data) = n
  /\ Forall (fun v => 0 <= v <= 1) (inkOfImageData data).
Proof.
  revert data. induction n as [| n IH]; intros data Hlen Hrange.
  - destruct data; [| discriminate]. split; [reflexivity | constructor].
  - destruct data as [| r [| g [| b [| a rest]]]]; cbn [length] in Hlen; try lia.
    cbn [inkOfImageData]. cbv zeta.
    apply Forall_cons_iff in Hrange. destruct Hrange as [Hr H1].
    apply Forall_cons_iff in H1. destruct H1 as [Hg H2].
    apply Forall_cons_iff in H2. destruct H2 as [Hb H3].
    apply Forall_cons_iff in H3. destruct H3 as [_ Hrest].
    destruct (IH rest) as [IHl IHr]; [cbn [length] in Hlen; lia | exact Hrest |].
    split; [cbn [length]; rewrite IHl; reflexivity |].
    constructor; [| exact IHr].
    assert (0 <= IZR r <= 255) by (split; apply IZR_le; lia).
    assert (0 <= IZR g <= 255) by (split; apply IZR_le; lia).
    assert (0 <= IZR b <= 255) by (split; apply IZR_le; lia).
    lra.
Qed.

(** The ink vector read from the image has one cell per pixel, every cell
    lies in [0, 1], a white pixel gives 0 and a black one 1, and the alpha
    byte plays no part. *)
Theorem inkOfImageData_range :
  forall (n : nat) (data : list Z),
    length data = (4 * n)%nat ->
    Forall (fun c => (0 <= c <= 255)%Z) data ->
    length (inkOfImageData data) = n
    /\ Forall (fun v => 0 <= v <= 1) (inkOfImageData data)
    /\ (forall a rest, inkOfImageData (255 :: 255 :: 255 :: a :: rest)%Z
                       = 0 :: inkOfImageData rest)
    /\ (forall a rest, inkOfImageData (0 :: 0 :: 0 :: a :: rest)%Z
                       = 1 :: inkOfImageData rest)
    /\ (forall r g b a a' rest,
           inkOfImageData (r :: g :: b :: a :: rest)
           = inkOfImageData (r :: g :: b :: a' :: rest)).
Proof.
  intros n data Hlen Hrange.
  destruct (inkOfImageData_pixels n data Hlen Hrange) as [Hl Hr].
  split; [exact Hl | split; [exact Hr | split; [| split]]].
  - intros a rest. cbn [inkOfImageData]. cbv zeta. f_equal. lra.
  - intros a rest. cbn [inkOfImageData]. cbv zeta. f_equal. lra.
  - intros r g b a a' rest. reflexivity.
Qed.

Lemma inkOfImageData_range_witness :
  length (inkOfImageData [255; 255; 255; 255; 0; 0; 0; 255]%Z) = 2%nat
  /\ Forall (fun v => 0 <= v <= 1) (inkOfImageData [255; 255; 255; 255; 0; 0; 0; 255]%Z).
Proof.
  assert (Hr : Forall (fun c => (0 <= c <= 255)%Z) [255; 255; 255; 255; 0; 0; 0; 255]%Z).
  { repeat constructor; lia. }
  destruct (inkOfImageData_range 2 [255; 255; 255; 255; 0; 0; 0; 255]%Z eq_refl Hr)
    as (Hl & Hv & _).
  split; [exact Hl | exact Hv].
Defined.

(** ** The three distances *)

Lemma distance_euclidean (a b : list R) :
  length a = length b -> distance a b = sqrt (squaredDistance a b).
Proof.
  intros Hlen. unfold distance, squaredDistance, JS.Math_sqrt. f_equal.
  rewrite (fold_index_combine (fun total x y => total + (x - y) * (x - y)) a b 0 Hlen).
  cbv beta.
  rewrite (fold_left_sum_map (fun p : R * R => (fst p - snd p) * (fst p - snd p))).
  apply Rplus_0_l.
Qed.

Lemma squaredDistance_nonneg (a b : list R) : 0 <= squaredDistance a b.
Proof.
  unfold squaredDistance. apply sum_nonneg. apply Forall_forall.
  intros x Hx. apply in_map_iff in Hx. destruct Hx as (p & <- & _).
  apply Rle_0_sqr.
Qed.

Lemma squaredDistance_sym (a b : list R) : squaredDistance a b = squaredDistance b a.
Proof.
  unfold squaredDistance. revert b. induction a as [| x a IH]; intros [| y b]; simpl;
    try reflexivity.
  rewrite IH. ring.
Qed.

Lemma squaredDistance_zero (a b : list R) :
  length a = length b -> squaredDistance a b = 0 -> a = b.
Proof.
  revert b. induction a as [| x a IH]; intros [| y b] Hlen Hz; try discriminate.
  - reflexivity.
  - unfold squaredDistance in Hz. simpl in Hz.
    pose proof (squaredDistance_nonneg a b) as Hn. unfold squaredDistance in Hn.
    pose proof (Rle_0_sqr (x - y)) as Hsq. unfold Rsqr in Hsq.
    assert (Hx : (x - y) * (x - y) = 0) by lra.
    assert (Hr : squaredDistance a b = 0) by (unfold squaredDistance; lra).
    f_equal.
    + assert (x - y = 0) by (apply Rmult_integral in Hx; tauto). lra.
    + apply IH; [simpl in Hlen; lia | exact Hr].
Qed.

Lemma squaredDistance_unit (a b : list R) :
  length a = length b ->
  Forall (fun v => 0 <= v <= 1) a -> Forall (fun v => 0 <= v <= 1) b ->
  squaredDistance a b <= INR (length a).
Proof.
  revert b. induction a as [| x a IH]; intros [| y b] Hlen Ha Hb; try discriminate.
  - unfold squaredDistance. simpl. lra.
  - apply Forall_cons_iff in Ha. destruct Ha as [Hx Ha].
    apply Forall_cons_iff in Hb. destruct Hb as [Hy Hb].
    specialize (IH b ltac:(simpl in Hlen; lia) Ha Hb).
    unfold squaredDistance in *. cbn [length combine map Spec.sum fold_right fst snd].
    rewrite S_INR. unfold Spec.sum in IH.
    assert ((x - y) * (x - y) <= 1) by nra.
    lra.
Qed.

(** [distance] is the Euclidean metric on vectors of equal length: never
    negative, symmetric, zero exactly between equal vectors. *)
Theorem distance_metric :
  forall a b : list R,
    length a = length b ->
    distance a b = sqrt (squaredDistance a b)
    /\ 0 <= distance a b
    /\ distance a b = distance b a
    /\ (distance a b = 0 <-> a = b).
Proof.
  intros a b Hlen.
  rewrite (distance_euclidean a b Hlen), (distance_euclidean b a (eq_sym Hlen)).
  split; [reflexivity | split; [apply sqrt_pos | split]].
  - rewrite squaredDistance_sym. reflexivity.
  - split.
    + intros H. apply squaredDistance_zero; [exact Hlen |].
      apply sqrt_eq_0; [apply squaredDistance_nonneg | exact H].
    + intros ->. fold (distance b b).
      rewrite <- (distance_euclidean b b eq_refl). apply distance_self.
Qed.

Lemma distance_metric_witness :
  distance [1; 0] [0; 1] = distance [0; 1] [1; 0] /\ 0 <= distance [1; 0] [0; 1].
Proof.
  destruct (distance_metric [1; 0] [0; 1] eq_refl) as (_ & Hn & Hs & _).
  split; [exact Hs | exact Hn].
Defined.

(** The pixel distance the classifier uses, [distance / sqrt(length)], lies
    in [0, 1] for two ink vectors with cells in [0, 1]. *)
Theorem pixel_distance_normalised :
  forall a b : list R,
    a <> [] -> length a = length b ->
    Forall (fun v => 0 <= v <= 1) a -> Forall (fun v => 0 <= v <= 1) b ->
    0 <= distance a b / JS.Math_sqrt (INR (length a)) <= 1.
Proof.
  intros a b Hne Hlen Ha Hb.
  assert (Hn : 0 < INR (length a)).
  { apply lt_0_INR. destruct a; [congruence | simpl; lia]. }
  assert (Hs : 0 < sqrt (INR (length a))) by (apply sqrt_lt_R0; exact Hn).
  rewrite (distance_euclidean a b Hlen). unfold JS.Math_sqrt.
  split.
  - apply Rmult_le_pos; [apply sqrt_pos | apply Rlt_le, Rinv_0_lt_compat, Hs].
  - apply (Rmult_le_reg_r (sqrt (INR (length a)))); [exact Hs |].
    unfold Rdiv. rewrite Rmult_assoc, Rinv_l, Rmult_1_r, Rmult_1_l by lra.
    apply sqrt_le_1_alt. apply squaredDistance_unit; assumption.
Qed.

Lemma gridV_unit : Forall (fun v => 0 <= v <= 1) Ex.gridV.
Proof.
  unfold Ex.gridV. apply Forall_app. split; apply Forall_forall; intros x Hx;
    apply repeat_spec in Hx; subst x; lra.
Qed.

Lemma grid69_unit : Forall (fun v => 0 <= v <= 1) Ex.grid69.
Proof.
  unfold Ex.grid69. apply Forall_app. split; apply Forall_forall; intros x Hx;
    apply repeat_spec in Hx; subst x; lra.
Qed.

Lemma pixel_distance_normalised_witness :
  0 <= distance Ex.gridV Ex.grid69 / JS.Math_sqrt (INR (length Ex.gridV)) <= 1.
Proof.
  apply pixel_distance_normalised.
  - discriminate.
  - reflexivity.
  - exact gridV_unit.
  - exact grid69_unit.
Defined.

(** [featureDistance] between two bundles whose aspect ratios have a
    logarithm is never negative, symmetric, and zero between a bundle and
    itself. *)
Theorem featureDistance_symmetric :
  forall f g : Features,
    logDefined f -> logDefined g ->
    0 <= featureDistance f g
    /\ featureDistance f g = featureDistance g f
    /\ featureDistance f f = 0.
Proof.
  intros f g _ _. split; [apply sqrt_pos | split].
  - unfold featureDistance, featureTerms, JS.Math_sqrt. cbn [fold_left]. f_equal. ring.
  - apply featureDistance_self.
Qed.

Lemma dot_comm (a b : list R) : Spec.dot a b = Spec.dot b a.
Proof.
  unfold Spec.dot. revert b. induction a as [| x a IH]; intros [| y b]; simpl;
    try reflexivity.
  rewrite IH. ring.
Qed.

Lemma dot_nonneg (a b : list R) :
  Forall (fun v => 0 <= v) a -> Forall (fun v => 0 <= v) b -> 0 <= Spec.dot a b.
Proof.
  intros Ha. revert b. induction Ha as [| x a Hx _ IH]; intros b Hb.
  - unfold Spec.dot. simpl. lra.
  - destruct Hb as [| y b Hy Hb]; [unfold Spec.dot; simpl; lra |].
    specialize (IH b Hb). unfold Spec.dot in *. simpl.
    assert (0 <= x * y) by (apply Rmult_le_pos; assumption). lra.
Qed.

(** Cauchy-Schwarz on the sums the loop of [cosineDistance] accumulates. *)
Lemma dot_cauchy_schwarz (a b : list R) :
  length a = length b ->
  Spec.dot a b * Spec.dot a b <= Spec.dot a a * Spec.dot b b.
Proof.
  revert b. induction a as [| x a IH]; intros [| y b] Hlen; try discriminate.
  - unfold Spec.dot. simpl. lra.
  - specialize (IH b ltac:(simpl in Hlen; lia)).
    pose proof (dot_self_nonneg a) as HA. pose proof (dot_self_nonneg b) as HB.
    unfold Spec.dot in *. cbn [combine map Spec.sum fold_right fst snd].
    set (D := fold_right Rplus 0 (map (fun p : R * R => fst p * snd p) (combine a b))) in *.
    set (A := fold_right Rplus 0 (map (fun p : R * R => fst p * snd p) (combine a a))) in *.
    set (B := fold_right Rplus 0 (map (fun p : R * R => fst p * snd p) (combine b b))) in *.
    unfold Spec.sum in *. fold D in IH. fold A in HA, IH. fold B in HB, IH.
    assert (Hmix : 2 * x * y * D <= x * x * B + y * y * A).
    { destruct (Req_dec A 0) as [HA0 | HA0].
      - assert (HD : D = 0).
        { rewrite HA0, Rmult_0_l in IH. pose proof (Rle_0_sqr D) as H. unfold Rsqr in H.
          assert (D * D = 0) by lra. apply Rmult_integral in H0. tauto. }
        rewrite HD, HA0. pose proof (Rle_0_sqr x) as H. unfold Rsqr in H.
        assert (0 <= x * x * B) by (apply Rmult_le_pos; assumption). lra.
      - assert (HApos : 0 < A) by lra.
        assert (Hk : 0 <= A * (x * x * B + y * y * A - 2 * x * y * D)).
        { replace (A * (x * x * B + y * y * A - 2 * x * y * D))
            with ((y * A - x * D) * (y * A - x * D) + x * x * (A * B - D * D)) by ring.
          pose proof (Rle_0_sqr (y * A - x * D)) as H1. unfold Rsqr in H1.
          pose proof (Rle_0_sqr x) as H2. unfold Rsqr in H2.
          assert (0 <= x * x * (A * B - D * D)) by (apply Rmult_le_pos; lra).
          lra. }
        assert (0 <= x * x * B + y * y * A - 2 * x * y * D); [| lra].
        apply (Rmult_le_reg_l A); [exact HApos |]. rewrite Rmult_0_r. exact Hk. }
    replace ((x * y + D) * (x * y + D))
      with (x * x * (y * y) + 2 * x * y * D + D * D) by ring.
    replace ((x * x + A) * (y * y + B))
      with (x * x * (y * y) + (x * x * B + y * y * A) + A * B) by ring.
    lra.
Qed.

Lemma cosineDistance_bounds (a b : list R) :
  length a = length b -> 0 <= cosineDistance a b <= 2.
Proof.
  intros Hlen.
  unfold cosineDistance. rewrite (cosineLoop_spec a b Hlen).
  cbn [acc_dot acc_normA acc_normB]. unfold JS.Math_sqrt.
  set (n := sqrt (Spec.dot a a) * sqrt (Spec.dot b b)).
  destruct (Req_dec_T n 0) as [_ | Hne]; [lra |].
  assert (Hn0 : 0 <= n).
  { subst n. apply Rmult_le_pos; apply sqrt_pos. }
  assert (Hn : 0 < n) by lra.
  assert (Hsq : n * n = Spec.dot a a * Spec.dot b b).
  { subst n.
    replace (sqrt (Spec.dot a a) * sqrt (Spec.dot b b)
             * (sqrt (Spec.dot a a) * sqrt (Spec.dot b b)))
      with (sqrt (Spec.dot a a) * sqrt (Spec.dot a a)
            * (sqrt (Spec.dot b b) * sqrt (Spec.dot b b))) by ring.
    rewrite !sqrt_sqrt by apply dot_self_nonneg. reflexivity. }
  pose proof (dot_cauchy_schwarz a b Hlen) as Hcs. rewrite <- Hsq in Hcs.
  assert (Habs : - n <= Spec.dot a b <= n) by (split; nra).
  assert (Hq : -1 <= Spec.dot a b / n <= 1).
  { split.
    - apply (Rmult_le_reg_r n); [exact Hn |].
      unfold Rdiv. rewrite Rmult_assoc, Rinv_l by lra. lra.
    - apply (Rmult_le_reg_r n); [exact Hn |].
      unfold Rdiv. rewrite Rmult_assoc, Rinv_l by lra. lra. }
  lra.
Qed.

Lemma dot_zero_r (a b : list R) :
  Forall (fun v => v = 0) b -> Spec.dot a b = 0.
Proof.
  intros Hb. revert a. induction Hb as [| y b Hy _ IH]; intros [| x a];
    try (unfold Spec.dot; simpl; reflexivity).
  specialize (IH a). unfold Spec.dot in *. cbn [combine map Spec.sum fold_right fst snd].
  fold (Spec.sum (map (fun p : R * R => fst p * snd p) (combine a b))).
  rewrite IH, Hy. ring.
Qed.

(** [cosineDistance] on vectors of equal length is symmetric; between ink
    vectors, whose cells are not negative, it is at most 1; and it is
    exactly 1 against a vector that is zero everywhere, such as the blank
    surface. *)
Theorem cosineDistance_symmetric :
  forall a b : list R,
    length a = length b ->
    cosineDistance a b = cosineDistance b a
    /\ (Forall (fun v => 0 <= v) a -> Forall (fun v => 0 <= v) b ->
        cosineDistance a b <= 1)
    /\ (Forall (fun v => v = 0) b -> cosineDistance a b = 1).
Proof.
  intros a b Hlen.
  split; [| split].
  - unfold cosineDistance.
    rewrite (cosineLoop_spec a b Hlen), (cosineLoop_spec b a (eq_sym Hlen)).
    cbn [acc_dot acc_normA acc_normB].
    rewrite (dot_comm b a), (Rmult_comm (JS.Math_sqrt (Spec.dot b b))). reflexivity.
  - intros Ha Hb. unfold cosineDistance. rewrite (cosineLoop_spec a b Hlen).
    cbn [acc_dot acc_normA acc_normB]. unfold JS.Math_sqrt.
    set (n := sqrt (Spec.dot a a) * sqrt (Spec.dot b b)).
    destruct (Req_dec_T n 0) as [_ | Hne]; [lra |].
    assert (Hn0 : 0 <= n).
    { subst n. apply Rmult_le_pos; apply sqrt_pos. }
    assert (0 <= Spec.dot a b / n).
    { apply Rmult_le_pos; [apply dot_nonneg; assumption |].
      apply Rlt_le, Rinv_0_lt_compat. lra. }
    lra.
  - intros Hb. unfold cosineDistance. rewrite (cosineLoop_spec a b Hlen).
    cbn [acc_dot acc_normA acc_normB]. unfold JS.Math_sqrt.
    rewrite (dot_zero_r b b Hb), sqrt_0, Rmult_0_r.
    destruct (Req_dec_T 0 0) as [_ | Hne]; [reflexivity | contradiction].
Qed.

Lemma cosineDistance_symmetric_witness :
  cosineDistance [1; 0] [0; 1] = cosineDistance [0; 1] [1; 0]
  /\ cosineDistance [1; 0] [0; 0] = 1.
Proof.
  split.
  - exact (proj1 (cosineDistance_symmetric [1; 0] [0; 1] eq_refl)).
  - apply (proj2 (proj2 (cosineDistance_symmetric [1; 0] [0; 0] eq_refl))).
    repeat constructor.
Defined.

(** ** Stroke features *)

Lemma polyline_fold (segs : list (Point * Point)) (acc : R) :
  fold_left
    (fun length (seg : Point * Point) =>
       let (prev, cur) := seg in
       let dx := px cur - px prev in
       let dy := py cur - py prev in
       length + JS.Math_sqrt (dx * dx + dy * dy))
    segs acc
  = acc + total (fun seg => pointDistance (fst seg) (snd seg)) segs.
Proof.
  unfold total. revert acc. induction segs as [| [p q] segs IH]; intros acc; simpl.
  - lra.
  - rewrite IH. unfold pointDistance, JS.Math_sqrt. simpl. lra.
Qed.

Lemma polylineLength_cons (p q : Point) (rest : list Point) :
  polylineLength (p :: q :: rest) = pointDistance p q + polylineLength (q :: rest).
Proof.
  unfold polylineLength. rewrite !polyline_fold. unfold total. simpl. lra.
Qed.

Lemma polylineLength_single (p : Point) : polylineLength [p] = 0.
Proof. reflexivity. Qed.

Lemma pointDistance_nonneg (p q : Point) : 0 <= pointDistance p q.
Proof. apply sqrt_pos. Qed.

Lemma pointDistance_triangle (p q r : Point) :
  pointDistance p r <= pointDistance p q + pointDistance q r.
Proof.
  pose proof (Rgeom.triangle (px r) (py r) (px p) (py p) (px q) (py q)) as H.
  unfold Rgeom.dist_euc, Rsqr in H. unfold pointDistance. lra.
Qed.

Lemma polylineLength_nonneg (stroke : Stroke) : 0 <= polylineLength stroke.
Proof.
  destruct stroke as [| p rest]; [unfold polylineLength; simpl; lra |].
  revert p. induction rest as [| q rest IH]; intros p.
  - rewrite polylineLength_single. lra.
  - rewrite polylineLength_cons. pose proof (pointDistance_nonneg p q). specialize (IH q). lra.
Qed.

(** The straight line from the first to the last point is no longer than
    the polyline. *)
Lemma direct_le_polyline (p : Point) (rest : list Point) (d : Point) :
  pointDistance p (last (p :: rest) d) <= polylineLength (p :: rest).
Proof.
  revert p. induction rest as [| q rest IH]; intros p.
  - cbn [last]. rewrite polylineLength_single. unfold pointDistance.
    replace ((px p - px p) * (px p - px p) + (py p - py p) * (py p - py p)) with 0 by ring.
    rewrite sqrt_0. lra.
  - rewrite polylineLength_cons.
    change (last (p :: q :: rest) d) with (last (q :: rest) d).
    pose proof (pointDistance_triangle p q (last (q :: rest) d)). specialize (IH q). lra.
Qed.

Lemma strokeStep_tap (acc : R * R) (stroke : Stroke) :
  (length stroke < 2)%nat -> strokeStep acc stroke = acc.
Proof.
  intros H. unfold strokeStep.
  destruct (Nat.ltb_spec (length stroke) 2); [reflexivity | lia].
Qed.

Lemma strokeStep_drawn (acc : R * R) (stroke : Stroke) :
  (2 <= length stroke)%nat ->
  exists len straight,
    strokeStep acc stroke = (fst acc + len, snd acc + straight * len)
    /\ len = polylineLength stroke
    /\ 0 <= len /\ 0 <= straight <= 1.
Proof.
  intros H. unfold strokeStep.
  destruct (Nat.ltb_spec (length stroke) 2) as [Hlt | _]; [lia |].
  cbv zeta.
  destruct stroke as [| p rest]; [simpl in H; lia |].
  set (len := polylineLength (p :: rest)).
  set (direct := JS.Math_sqrt _).
  exists len, (direct / JS.Math_max len 1).
  assert (Hlen : 0 <= len) by apply polylineLength_nonneg.
  assert (Hd : 0 <= direct <= len).
  { split; [apply sqrt_pos |].
    apply (direct_le_polyline p rest (mkPoint 0 0)). }
  assert (Hmax : 0 < JS.Math_max len 1 /\ len <= JS.Math_max len 1).
  { unfold JS.Math_max. split; [apply Rlt_le_trans with 1; [lra | apply Rmax_r] | apply Rmax_l]. }
  repeat split; try lra.
  - apply Rmult_le_pos; [lra | apply Rlt_le, Rinv_0_lt_compat; lra].
  - apply (Rmult_le_reg_r (JS.Math_max len 1)); [lra |].
    unfold Rdiv. rewrite Rmult_assoc, Rinv_l by lra. lra.
Qed.

Lemma strokeStep_invariant (acc : R * R) (stroke : Stroke) :
  0 <= snd acc <= fst acc ->
  0 <= snd (strokeStep acc stroke) <= fst (strokeStep acc stroke).
Proof.
  intros Hacc. destruct (Nat.lt_ge_cases (length stroke) 2) as [Ht | Hd].
  - rewrite strokeStep_tap by exact Ht. exact Hacc.
  - destruct (strokeStep_drawn acc stroke Hd) as (len & straight & -> & _ & Hl & Hs).
    cbn [fst snd].
    assert (0 <= straight * len) by (apply Rmult_le_pos; lra).
    assert (straight * len <= 1 * len) by (apply Rmult_le_compat_r; lra).
    lra.
Qed.

Lemma strokeLoop_invariant (strokes : list Stroke) (acc : R * R) :
  0 <= snd acc <= fst acc ->
  0 <= snd (fold_left strokeStep strokes acc) <= fst (fold_left strokeStep strokes acc).
Proof.
  revert acc. induction strokes as [| s strokes IH]; intros acc H; cbn [fold_left].
  - exact H.
  - apply IH, strokeStep_invariant, H.
Qed.

Lemma strokeLoop_taps (strokes : list Stroke) (acc : R * R) :
  Forall (fun s => (length s < 2)%nat) strokes ->
  fold_left strokeStep strokes acc = acc.
Proof.
  intros H. revert acc. induction H as [| s strokes Hs _ IH]; intros acc; cbn [fold_left].
  - reflexivity.
  - rewrite strokeStep_tap by exact Hs. apply IH.
Qed.

Lemma diagonal_positive : 0 < JS.Math_sqrt (500 * 500 + 500 * 500).
Proof. unfold JS.Math_sqrt. apply sqrt_lt_R0. lra. Qed.

(** Whatever is drawn, [lengthNorm] stays in [0, 1.5], [straightness] is
    not negative, and [strokeCount] is the number of strokes, taps
    included. *)
Theorem strokeFeatures_bounds :
  forall strokes : list Stroke,
    let f := extractStrokeFeatures strokes in
    0 <= sf_lengthNorm f <= 1.5
    /\ 0 <= sf_straightness f
    /\ sf_strokeCount f = INR (length strokes).
Proof.
  intros strokes. cbv zeta. unfold extractStrokeFeatures.
  destruct strokes as [| s strokes].
  - cbn. repeat split; lra.
  - cbn [length Nat.eqb].
    pose proof (strokeLoop_invariant (s :: strokes) (0, 0) ltac:(cbn; lra)) as Hinv.
    destruct (fold_left strokeStep (s :: strokes) (0, 0)) as [t w].
    cbn [fst snd] in Hinv. cbn [sf_lengthNorm sf_straightness sf_strokeCount].
    pose proof diagonal_positive as Hd.
    split; [| split; [| reflexivity]].
    + unfold JS.Math_min. split.
      * apply Rmin_glb; [| lra].
        apply Rmult_le_pos; [lra | apply Rlt_le, Rinv_0_lt_compat, Hd].
      * apply Rmin_r.
    + assert (Hmax : 0 < JS.Math_max t 1 /\ t <= JS.Math_max t 1).
      { unfold JS.Math_max. split; [apply Rlt_le_trans with 1; [lra | apply Rmax_r] | apply Rmax_l]. }
      apply Rmult_le_pos; [lra | apply Rlt_le, Rinv_0_lt_compat; lra].
Qed.

(** Taps, strokes of fewer than two points, add no length and no
    straightness, yet each one counts in [strokeCount]; with no stroke at
    all every motion feature is 0. *)
Theorem strokeFeatures_taps :
  forall strokes : list Stroke,
    Forall (fun s => (length s < 2)%nat) strokes ->
    extractStrokeFeatures strokes = mkStrokeFeatures 0 0 (INR (length strokes)).
Proof.
  intros strokes H. unfold extractStrokeFeatures.
  destruct strokes as [| s strokes]; [reflexivity |].
  cbn [length Nat.eqb]. rewrite (strokeLoop_taps _ _ H).
  unfold JS.Math_min, JS.Math_max. f_equal.
  - unfold Rdiv. rewrite Rmult_0_l. apply Rmin_left. lra.
  - unfold Rdiv. apply Rmult_0_l.
Qed.

Lemma strokeFeatures_taps_witness :
  extractStrokeFeatures [[mkPoint 3 4]; [mkPoint 5 6]] = mkStrokeFeatures 0 0 (INR 2).
Proof.
  apply (strokeFeatures_taps [[mkPoint 3 4]; [mkPoint 5 6]]).
  repeat constructor.
Defined.

(** One stroke of two points at distance [L]: the length is [L] over the
    diagonal, capped at 1.5, and the straightness is 1 when [L >= 1] but
    only [L * L] when the stroke is shorter than one unit. *)
Theorem strokeFeatures_segment :
  forall p q : Point,
    let L := pointDistance p q in
    let f := extractStrokeFeatures [[p; q]] in
    sf_lengthNorm f = Rmin (L / sqrt (500 * 500 + 500 * 500)) 1.5
    /\ (1 <= L -> sf_straightness f = 1)
    /\ (L <= 1 -> sf_straightness f = L * L).
Proof.
  intros p q. cbv zeta. unfold extractStrokeFeatures.
  cbn [length Nat.eqb fold_left]. unfold strokeStep.
  cbn [length Nat.ltb Nat.leb nth last]. cbv zeta. cbn [fst snd].
  rewrite polylineLength_cons, polylineLength_single.
  fold (pointDistance p q). unfold JS.Math_sqrt. fold (pointDistance p q).
  set (L := pointDistance p q).
  assert (HL : 0 <= L) by apply pointDistance_nonneg.
  cbn [sf_lengthNorm sf_straightness]. unfold JS.Math_min, JS.Math_max.
  rewrite !Rplus_0_l, !Rplus_0_r.
  split; [reflexivity | split]; intros H.
  - rewrite (Rmax_left L 1) by lra. field. lra.
  - rewrite (Rmax_right L 1) by lra. field.
Qed.

Lemma strokeFeatures_segment_witness :
  sf_straightness (extractStrokeFeatures [[mkPoint 0 0; mkPoint 3 4]]) = 1.
Proof.
  refine (proj1 (proj2 (strokeFeatures_segment (mkPoint 0 0) (mkPoint 3 4))) _).
  unfold pointDistance. cbn [px py].
  replace ((3 - 0) * (3 - 0) + (4 - 0) * (4 - 0)) with (5 * 5) by lra.
  rewrite sqrt_square; lra.
Defined.

(** ** Shape features *)

Lemma map_nth_seq (v : list R) : map (fun i => nth i v 0) (seq 0 (length v)) = v.
Proof.
  induction v as [| x v IH]; cbn [length seq map nth].
  - reflexivity.
  - rewrite <- seq_shift, map_map. cbn [nth]. rewrite IH. reflexivity.
Qed.

Lemma scanInk_fold (v : list R) (l : list nat) (acc : R * list nat) :
  fold_left
    (fun (acc : R * list nat) (i : nat) =>
       let value := nth i v 0 in
       (fst acc + value, if JS.gtb value threshold then snd acc ++ [i] else snd acc))
    l acc
  = (fst acc + Spec.sum (map (fun i => nth i v 0) l),
     snd acc ++ filter (fun i => JS.gtb (nth i v 0) threshold) l).
Proof.
  revert acc. induction l as [| i l IH]; intros [ink active]; cbn [fold_left map filter fst snd].
  - rewrite app_nil_r. simpl. f_equal. lra.
  - rewrite IH. cbv zeta. cbn [fst snd]. simpl Spec.sum.
    destruct (JS.gtb (nth i v 0) threshold).
    + rewrite <- app_assoc. f_equal. lra.
    + f_equal. lra.
Qed.

(** The first loop of [extractShapeFeatures] yields the ink total and the
    indices above the threshold, in increasing order. *)
Lemma scanInk_spec (v : list R) :
  scanInk v
  = (Spec.sum v, filter (fun i => JS.gtb (nth i v 0) threshold) (seq 0 (length v))).
Proof.
  unfold scanInk. rewrite scanInk_fold. cbn [fst snd].
  rewrite map_nth_seq, Rplus_0_l. reflexivity.
Qed.

Lemma active_spec (v : list R) (i : nat) :
  In i (snd (scanInk v)) <-> (i < length v)%nat /\ nth i v 0 > threshold.
Proof.
  rewrite scanInk_spec. cbn [snd]. rewrite filter_In, in_seq, gtb_true_iff.
  split; intros [H1 H2]; (split; [lia | exact H2]).
Qed.

Lemma filter_none {A : Type} (p : A -> bool) (l : list A) :
  (forall x, In x l -> p x = false) -> filter p l = [].
Proof.
  induction l as [| x l IH]; intros H; cbn [filter].
  - reflexivity.
  - rewrite (H x (or_introl eq_refl)). apply IH. intros y Hy. apply H. right. exact Hy.
Qed.

Lemma filter_all {A : Type} (p : A -> bool) (l : list A) :
  (forall x, In x l -> p x = true) -> filter p l = l.
Proof.
  induction l as [| x l IH]; intros H; cbn [filter].
  - reflexivity.
  - rewrite (H x (or_introl eq_refl)). f_equal. apply IH. intros y Hy. apply H. right. exact Hy.
Qed.

(** A grid with no cell above 0.2 gets the degenerate bundle, whatever its
    ink total: [fillRatio] is 0 even when faint ink is present. *)
Theorem shapeFeatures_faint :
  forall v : list R,
    Forall (fun value => value <= threshold) v ->
    extractShapeFeatures v = mkFeatures 0 1 0 1 1 0 0 0 None.
Proof.
  intros v H. unfold extractShapeFeatures. rewrite scanInk_spec.
  rewrite filter_none; [reflexivity |].
  intros i Hi. apply in_seq in Hi. apply gtb_false_iff.
  rewrite Forall_forall in H. apply H. apply nth_In. lia.
Qed.

Lemma shapeFeatures_faint_witness :
  extractShapeFeatures (repeat 0.1 256) = mkFeatures 0 1 0 1 1 0 0 0 None
  /\ Spec.sum (repeat 0.1 256) > 5.
Proof.
  split.
  - apply shapeFeatures_faint. apply Forall_forall. intros x Hx.
    apply repeat_spec in Hx. subst x. unfold threshold. lra.
  - rewrite sum_repeat. rewrite INR_IZR_INZ. change (Z.of_nat 256) with 256%Z. lra.
Defined.

Lemma zrange_In (lo hi k : Z) : In k (zrange lo hi) <-> (lo <= k <= hi)%Z.
Proof.
  unfold zrange. rewrite in_map_iff. split.
  - intros (n & <- & Hn). apply in_seq in Hn. lia.
  - intros H. exists (Z.to_nat (k - lo)). split; [lia |]. apply in_seq. lia.
Qed.

Lemma zrange_NoDup (lo hi : Z) : NoDup (zrange lo hi).
Proof.
  unfold zrange. apply NoDup_map_NoDup_ForallPairs; [| apply seq_NoDup].
  intros a b _ _ H. lia.
Qed.

Lemma zrange_length (lo hi : Z) : length (zrange lo hi) = Z.to_nat (hi - lo + 1).
Proof. unfold zrange. rewrite length_map, length_seq. reflexivity. Qed.

Lemma boxCells_In (b : Box) (x y : Z) :
  In (x, y) (boxCells b)
  <-> (minX b <= x <= maxX b)%Z /\ (minY b <= y <= maxY b)%Z.
Proof.
  unfold boxCells. rewrite in_flat_map. split.
  - intros (y' & Hy & Hin). apply in_map_iff in Hin. destruct Hin as (x' & E & Hx).
    inversion E; subst. apply zrange_In in Hy. apply zrange_In in Hx. tauto.
  - intros [Hx Hy]. exists y. split; [apply zrange_In; exact Hy |].
    apply in_map_iff. exists x. split; [reflexivity | apply zrange_In; exact Hx].
Qed.

Lemma boxCells_NoDup (b : Box) : NoDup (boxCells b).
Proof.
  unfold boxCells.
  pose proof (zrange_NoDup (minY b) (maxY b)) as Hys.
  induction Hys as [| y ys Hy _ IH]; cbn [flat_map].
  - constructor.
  - apply NoDup_app.
    + apply NoDup_map_NoDup_ForallPairs; [| apply zrange_NoDup].
      intros a c _ _ E. inversion E. reflexivity.
    + exact IH.
    + intros [x' y'] H1 H2. apply in_map_iff in H1. destruct H1 as (x & E & _).
      inversion E; subst. apply in_flat_map in H2. destruct H2 as (y'' & Hy'' & Hin).
      apply in_map_iff in Hin. destruct Hin as (x'' & E' & _). inversion E'; subst.
      contradiction.
Qed.

Lemma boxCells_length (b : Box) :
  length (boxCells b)
  = (Z.to_nat (maxY b - minY b + 1) * Z.to_nat (maxX b - minX b + 1))%nat.
Proof.
  unfold boxCells. rewrite <- (zrange_length (minY b)), <- (zrange_length (minX b)).
  apply flat_map_constant_length. intros y _. apply length_map.
Qed.

(** The double loop of [extractShapeFeatures] is one pass over the cells of
    the bounding box. *)
Lemma shapeLoop_cells (v : list R) (b : Box) :
  shapeLoop v b
  = fold_left (fun c (p : Z * Z) => shapeStep v b (snd p) (fst p) c)
              (boxCells b) (mkShapeCounts 0 0 0 0 0).
Proof.
  unfold shapeLoop, boxCells. generalize (mkShapeCounts 0 0 0 0 0).
  induction (zrange (minY b) (maxY b)) as [| y ys IH]; intros c; cbn [fold_left flat_map].
  - reflexivity.
  - rewrite fold_left_app, fold_left_over_map. cbn [fst snd]. apply IH.
Qed.

Lemma shapeFold_counts (v : list R) (b : Box) (cells : list (Z * Z)) (c0 : ShapeCounts) :
  let c := fold_left (fun c (p : Z * Z) => shapeStep v b (snd p) (fst p) c) cells c0 in
  let n := length (filter (fun p => inked v (fst p) (snd p)) cells) in
  symmetryChecksX c = (symmetryChecksX c0 + n)%nat
  /\ symmetryChecksY c = (symmetryChecksY c0 + n)%nat
  /\ (symmetryMatchesX c0 <= symmetryMatchesX c <= symmetryMatchesX c0 + n)%nat
  /\ (symmetryMatchesY c0 <= symmetryMatchesY c <= symmetryMatchesY c0 + n)%nat
  /\ (edgeCount c0 <= edgeCount c <= edgeCount c0 + n)%nat.
Proof.
  revert c0. induction cells as [| [x y] cells IH]; intros c0; cbn [fold_left filter fst snd].
  - cbn. lia.
  - specialize (IH (shapeStep v b y x c0)). cbv zeta in IH.
    unfold shapeStep in *. fold (inked v x y) in *.
    destruct (inked v x y); cbn [negb length] in *.
    + cbv zeta in IH. cbn [symmetryChecksX symmetryChecksY symmetryMatchesX
                            symmetryMatchesY edgeCount] in IH.
      destruct (existsb (isEdgeNeighbor v b) _),
               (JS.gt_undef (cell v (maxX b - (x - minX b)) y) threshold),
               (JS.gt_undef (cell v x (maxY b - (y - minY b))) threshold); lia.
    + exact IH.
Qed.

Lemma shapeFold_mirroredX (v : list R) (b : Box) (cells : list (Z * Z)) (c0 : ShapeCounts) :
  (forall x y, In (x, y) cells -> inked v x y = true ->
               inked v (maxX b - (x - minX b)) y = true) ->
  symmetryMatchesX (fold_left (fun c (p : Z * Z) => shapeStep v b (snd p) (fst p) c) cells c0)
  = (symmetryMatchesX c0 + length (filter (fun p => inked v (fst p) (snd p)) cells))%nat.
Proof.
  revert c0. induction cells as [| [x y] cells IH]; intros c0 H; cbn [fold_left filter fst snd].
  - cbn. lia.
  - rewrite IH by (intros x' y' Hin; apply H; right; exact Hin).
    unfold shapeStep. fold (inked v x y).
    destruct (inked v x y) eqn:E; cbn [negb length].
    + cbv zeta. cbn [symmetryMatchesX].
      fold (inked v (maxX b - (x - minX b)) y).
      rewrite (H x y (or_introl eq_refl) E). lia.
    + lia.
Qed.

Lemma shapeFold_mirroredY (v : list R) (b : Box) (cells : list (Z * Z)) (c0 : ShapeCounts) :
  (forall x y, In (x, y) cells -> inked v x y = true ->
               inked v x (maxY b - (y - minY b)) = true) ->
  symmetryMatchesY (fold_left (fun c (p : Z * Z) => shapeStep v b (snd p) (fst p) c) cells c0)
  = (symmetryMatchesY c0 + length (filter (fun p => inked v (fst p) (snd p)) cells))%nat.
Proof.
  revert c0. induction cells as [| [x y] cells IH]; intros c0 H; cbn [fold_left filter fst snd].
  - cbn. lia.
  - rewrite IH by (intros x' y' Hin; apply H; right; exact Hin).
    unfold shapeStep. fold (inked v x y).
    destruct (inked v x y) eqn:E; cbn [negb length].
    + cbv zeta. cbn [symmetryMatchesY].
      fold (inked v x (maxY b - (y - minY b))).
      rewrite (H x y (or_introl eq_refl) E). lia.
    + lia.
Qed.

Lemma boundingBox_fold (l : list nat) (b0 : Box) :
  let r :=
    fold_left
      (fun (b : Box) (index : nat) =>
         let x := Z.of_nat (index mod GRID_SIZE) in
         let y := Z.of_nat (index / GRID_SIZE) in
         mkBox (Z.min (minX b) x) (Z.min (minY b) y)
               (Z.max (maxX b) x) (Z.max (maxY b) y))
      l b0 in
  (forall i, In i l ->
             (minX r <= Z.of_nat (i mod GRID_SIZE) <= maxX r)%Z
             /\ (minY r <= Z.of_nat (i / GRID_SIZE) <= maxY r)%Z)
  /\ (minX r <= minX b0 /\ minY r <= minY b0 /\ maxX b0 <= maxX r /\ maxY b0 <= maxY r)%Z
  /\ (forall lo, (lo <= minX b0)%Z ->
                 (forall i, In i l -> (lo <= Z.of_nat (i mod GRID_SIZE))%Z) ->
                 (lo <= minX r)%Z)
  /\ (forall lo, (lo <= minY b0)%Z ->
                 (forall i, In i l -> (lo <= Z.of_nat (i / GRID_SIZE))%Z) ->
                 (lo <= minY r)%Z)
  /\ (forall hi, (maxX b0 <= hi)%Z ->
                 (forall i, In i l -> (Z.of_nat (i mod GRID_SIZE) <= hi)%Z) ->
                 (maxX r <= hi)%Z)
  /\ (forall hi, (maxY b0 <= hi)%Z ->
                 (forall i, In i l -> (Z.of_nat (i / GRID_SIZE) <= hi)%Z) ->
                 (maxY r <= hi)%Z).
Proof.
  revert b0. induction l as [| i l IH]; intros b0; cbn [fold_left].
  - cbv zeta. split; [intros i [] |]. repeat split; try lia; intros; assumption.
  - cbv zeta.
    set (b1 := mkBox (Z.min (minX b0) (Z.of_nat (i mod GRID_SIZE)))
                     (Z.min (minY b0) (Z.of_nat (i / GRID_SIZE)))
                     (Z.max (maxX b0) (Z.of_nat (i mod GRID_SIZE)))
                     (Z.max (maxY b0) (Z.of_nat (i / GRID_SIZE)))).
    specialize (IH b1). cbv zeta in IH.
    destruct IH as (IHin & IHmono & IH1 & IH2 & IH3 & IH4).
    cbn [minX minY maxX maxY b1] in IHmono.
    split; [| split; [| split; [| split; [| split]]]].
    + intros j [<- | Hj]; [lia | apply IHin, Hj].
    + lia.
    + intros lo Hb Hall. apply IH1.
      * pose proof (Hall i (or_introl eq_refl)). cbn [minX b1]. lia.
      * intros j Hj. apply Hall. right. exact Hj.
    + intros lo Hb Hall. apply IH2.
      * pose proof (Hall i (or_introl eq_refl)). cbn [minY b1]. lia.
      * intros j Hj. apply Hall. right. exact Hj.
    + intros hi Hb Hall. apply IH3.
      * pose proof (Hall i (or_introl eq_refl)). cbn [maxX b1]. lia.
      * intros j Hj. apply Hall. right. exact Hj.
    + intros hi Hb Hall. apply IH4.
      * pose proof (Hall i (or_introl eq_refl)). cbn [maxY b1]. lia.
      * intros j Hj. apply Hall. right. exact Hj.
Qed.

Lemma column_range (i : nat) : (0 <= Z.of_nat (i mod GRID_SIZE) <= 15)%Z.
Proof.
  pose proof (Nat.mod_upper_bound i GRID_SIZE ltac:(discriminate)) as H.
  unfold GRID_SIZE in *. lia.
Qed.

Lemma row_range (i n : nat) :
  (i < n)%nat -> (n <= GRID_SIZE * GRID_SIZE)%nat -> (Z.of_nat (i / GRID_SIZE) <= 15)%Z.
Proof.
  intros Hi Hn.
  assert (i / GRID_SIZE < GRID_SIZE)%nat.
  { apply Nat.Div0.div_lt_upper_bound. lia. }
  unfold GRID_SIZE in *. lia.
Qed.

(** The bounding box of a vector with an inked cell: it holds every inked
    index, lies within the columns 0..15, and within the rows 0..15 when
    the vector has at most 256 cells. *)
Lemma boxOf_bounds (v : list R) :
  snd (scanInk v) <> [] ->
  let b := boxOf v in
  (forall i, In i (snd (scanInk v)) ->
             In (Z.of_nat (i mod GRID_SIZE), Z.of_nat (i / GRID_SIZE)) (boxCells b))
  /\ (0 <= minX b <= maxX b /\ maxX b <= 15 /\ 0 <= minY b <= maxY b)%Z
  /\ ((length v <= GRID_SIZE * GRID_SIZE)%nat -> (maxY b <= 15)%Z).
Proof.
  intros Hne. cbv zeta. unfold boxOf, boundingBox.
  pose proof (boundingBox_fold (snd (scanInk v))
                (mkBox (Z.of_nat GRID_SIZE) (Z.of_nat GRID_SIZE) 0 0)) as H.
  cbv zeta in H. destruct H as (Hin & Hmono & H1 & H2 & H3 & H4).
  match type of Hin with
  | context [fold_left ?f ?l ?b0] => set (r := fold_left f l b0) in *
  end.
  cbn [minX minY maxX maxY] in Hmono, H1, H2, H3, H4.
  assert (Hact : exists i0, In i0 (snd (scanInk v))).
  { destruct (snd (scanInk v)) as [| i0 rest]; [congruence |].
    exists i0. left. reflexivity. }
  destruct Hact as (i0 & Hi0).
  pose proof (Hin i0 Hi0) as [Hx0 Hy0]. pose proof (column_range i0) as Hc0.
  split; [| split].
  - intros i Hi. apply boxCells_In. apply Hin. exact Hi.
  - assert (0 <= minX r)%Z.
    { apply H1; [unfold GRID_SIZE; lia |]. intros i _. apply column_range. }
    assert (0 <= minY r)%Z.
    { apply H2; [unfold GRID_SIZE; lia |]. intros i _. lia. }
    assert (maxX r <= 15)%Z.
    { apply H3; [lia |]. intros i _. apply column_range. }
    lia.
  - intros Hlen. apply H4; [lia |]. intros i Hi.
    apply active_spec in Hi. destruct Hi as [Hi _].
    apply (row_range i (length v)); assumption.
Qed.

Lemma inked_spec (v : list R) (x y : Z) :
  (0 <= x)%Z -> (0 <= y)%Z ->
  (inked v x y = true
   <-> In (Z.to_nat (y * Z.of_nat GRID_SIZE + x)) (snd (scanInk v))).
Proof.
  intros Hx Hy. unfold inked, cell. cbv zeta.
  destruct (Z.ltb_spec (y * Z.of_nat GRID_SIZE + x) 0) as [Hneg | _].
  - unfold GRID_SIZE in Hneg. lia.
  - rewrite active_spec. set (i := Z.to_nat (y * Z.of_nat GRID_SIZE + x)).
    destruct (nth_error v i) as [value |] eqn:E; cbn [JS.gt_undef].
    + assert (Hi : (i < length v)%nat) by (apply nth_error_Some; congruence).
      rewrite (nth_error_nth v i 0 E). rewrite gtb_true_iff. tauto.
    + apply nth_error_None in E. split; [discriminate | intros [Hi _]; lia].
Qed.

(** The double loop meets every inked cell exactly once. *)
Lemma inked_cells_count (v : list R) :
  snd (scanInk v) <> [] ->
  length (filter (fun p => inked v (fst p) (snd p)) (boxCells (boxOf v)))
  = length (snd (scanInk v)).
Proof.
  intros Hne.
  destruct (boxOf_bounds v Hne) as (Hin & Hb & _). cbv zeta in Hin, Hb.
  set (cells := filter (fun p => inked v (fst p) (snd p)) (boxCells (boxOf v))).
  set (idx := fun p : Z * Z => Z.to_nat (snd p * Z.of_nat GRID_SIZE + fst p)).
  assert (Hcell : forall p, In p cells ->
            (0 <= fst p <= 15)%Z /\ (0 <= snd p)%Z /\ inked v (fst p) (snd p) = true).
  { intros [x y] Hp. subst cells. apply filter_In in Hp. destruct Hp as [Hp Hi].
    apply boxCells_In in Hp. cbn [fst snd] in *. repeat split; try lia. exact Hi. }
  rewrite <- (length_map idx cells).
  apply Permutation_length, NoDup_Permutation.
  - apply NoDup_map_NoDup_ForallPairs.
    + intros [x y] [x' y'] Hp Hp' E.
      destruct (Hcell _ Hp) as (Hx & Hy & _). destruct (Hcell _ Hp') as (Hx' & Hy' & _).
      subst idx. cbn [fst snd] in *. unfold GRID_SIZE in E.
      assert (y * 16 + x = y' * 16 + x')%Z by lia.
      f_equal; lia.
    + subst cells. apply NoDup_filter, boxCells_NoDup.
  - rewrite scanInk_spec. cbn [snd]. apply NoDup_filter, seq_NoDup.
  - intros i. split.
    + intros Hi. apply in_map_iff in Hi. destruct Hi as ([x y] & <- & Hp).
      destruct (Hcell _ Hp) as (Hx & Hy & Hk). cbn [fst snd] in *.
      subst idx. cbn [fst snd]. apply inked_spec; [lia | lia | exact Hk].
    + intros Hi. apply in_map_iff.
      exists (Z.of_nat (i mod GRID_SIZE), Z.of_nat (i / GRID_SIZE)).
      assert (Hidx : Z.to_nat (Z.of_nat (i / GRID_SIZE) * Z.of_nat GRID_SIZE
                               + Z.of_nat (i mod GRID_SIZE)) = i).
      { pose proof (Nat.div_mod_eq i GRID_SIZE). lia. }
      split; [subst idx; cbn [fst snd]; exact Hidx |].
      subst cells. apply filter_In. split; [apply Hin, Hi |]. cbn [fst snd].
      apply inked_spec; [lia | lia |]. rewrite Hidx. exact Hi.
Qed.

(** The counters of the double loop, for a vector with an inked cell. *)
Lemma shapeLoop_counts (v : list R) :
  snd (scanInk v) <> [] ->
  let c := shapeLoop v (boxOf v) in
  let n := length (snd (scanInk v)) in
  symmetryChecksX c = n /\ symmetryChecksY c = n
  /\ (symmetryMatchesX c <= n)%nat /\ (symmetryMatchesY c <= n)%nat
  /\ (edgeCount c <= n)%nat
  /\ (0 < n <= length (boxCells (boxOf v)))%nat.
Proof.
  intros Hne. cbv zeta. rewrite shapeLoop_cells.
  pose proof (shapeFold_counts v (boxOf v) (boxCells (boxOf v)) (mkShapeCounts 0 0 0 0 0)) as H.
  cbv zeta in H. rewrite (inked_cells_count v Hne) in H.
  cbn [symmetryChecksX symmetryChecksY symmetryMatchesX symmetryMatchesY edgeCount] in H.
  destruct H as (H1 & H2 & H3 & H4 & H5).
  repeat split; try lia.
  - destruct (snd (scanInk v)); [congruence | simpl; lia].
  - rewrite <- (inked_cells_count v Hne). apply filter_length_le.
Qed.

Lemma extractShapeFeatures_inked (v : list R) :
  snd (scanInk v) <> [] ->
  extractShapeFeatures v
  = let active := snd (scanInk v) in
    let b := boxOf v in
    let width := (maxX b - minX b + 1)%Z in
    let height := (maxY b - minY b + 1)%Z in
    let c := shapeLoop v b in
    shapeBundle
      (Spec.sum v / INR (GRID_SIZE * GRID_SIZE))
      (IZR width / JS.Math_max (IZR height) 1)
      (INR (length active) / JS.Math_max (IZR (width * height)) 1)
      (INR (symmetryMatchesX c) / JS.Math_max (INR (symmetryChecksX c)) 1)
      (INR (symmetryMatchesY c) / JS.Math_max (INR (symmetryChecksY c)) 1)
      (INR (edgeCount c) / JS.Math_max (INR (length active)) 1).
Proof.
  intros Hne. unfold extractShapeFeatures, boxOf.
  pose proof (scanInk_spec v) as Hs.
  destruct (scanInk v) as [ink active] eqn:E. cbn [snd] in *.
  inversion Hs as [[Hink Hact]]. rewrite <- Hact.
  destruct active as [| i rest]; [congruence |]. reflexivity.
Qed.

Lemma count_ratio (m n : nat) :
  (m <= n)%nat -> 0 <= INR m / JS.Math_max (INR n) 1 <= 1.
Proof.
  intros H. unfold JS.Math_max.
  assert (Hm : 0 <= INR m <= INR n) by (split; [apply pos_INR | apply le_INR, H]).
  assert (Hmax : 0 < Rmax (INR n) 1 /\ INR n <= Rmax (INR n) 1).
  { split; [apply Rlt_le_trans with 1; [lra | apply Rmax_r] | apply Rmax_l]. }
  split.
  - apply Rmult_le_pos; [lra | apply Rlt_le, Rinv_0_lt_compat; lra].
  - apply (Rmult_le_reg_r (Rmax (INR n) 1)); [lra |].
    unfold Rdiv. rewrite Rmult_assoc, Rinv_l by lra. lra.
Qed.

Lemma ratio_bounds (w h lo hi : R) :
  0 < h -> lo * h <= w <= hi * h -> lo <= w / h <= hi.
Proof.
  intros Hh [H1 H2].
  assert (Hq : w / h * h = w) by (field; lra).
  split; apply (Rmult_le_reg_r h); lra.
Qed.

Lemma exists_inked (v : list R) :
  Exists (fun value => value > threshold) v -> snd (scanInk v) <> [].
Proof.
  intros H. apply Exists_exists in H. destruct H as (x & Hin & Hx).
  destruct (In_nth v x 0 Hin) as (i & Hi & Hn).
  assert (Ha : In i (snd (scanInk v))) by (apply active_spec; rewrite Hn; tauto).
  intros E. rewrite E in Ha. destruct Ha.
Qed.

(** The shape features of a grid with at least one cell above 0.2:
    [fillRatio] is the ink total over 256 (in [0, 1] for 256 cells in
    [0, 1]), [aspectRatio] lies within [1/16, 16], [compactness] within
    (0, 1], both symmetries and [edgeDensity] within [0, 1]; no motion key
    is set. *)
Theorem shapeFeatures_ranges :
  forall v : list R,
    Exists (fun value => value > threshold) v ->
    (length v <= GRID_SIZE * GRID_SIZE)%nat ->
    let f := extractShapeFeatures v in
    fillRatio f = Spec.sum v / 256
    /\ 1 / 16 <= aspectRatio f <= 16
    /\ 0 < compactness f <= 1
    /\ 0 <= symmetryX f <= 1
    /\ 0 <= symmetryY f <= 1
    /\ 0 <= edgeDensity f <= 1
    /\ (lengthNorm f = 0 /\ straightness f = 0 /\ strokeCount f = None)
    /\ (Forall (fun value => 0 <= value <= 1) v -> 0 <= fillRatio f <= 1).
Proof.
  intros v Hex Hlen. cbv zeta.
  pose proof (exists_inked v Hex) as Hne.
  rewrite (extractShapeFeatures_inked v Hne). cbv zeta.
  destruct (boxOf_bounds v Hne) as (_ & Hb & HmaxY). cbv zeta in Hb, HmaxY.
  specialize (HmaxY Hlen).
  destruct (shapeLoop_counts v Hne) as (Hcx & Hcy & Hmx & Hmy & He & Hn).
  cbv zeta in Hcx, Hcy, Hmx, Hmy, He, Hn.
  unfold shapeBundle.
  cbn [fillRatio aspectRatio compactness symmetryX symmetryY edgeDensity
       lengthNorm straightness strokeCount].
  set (b := boxOf v) in *. set (c := shapeLoop v b) in *.
  set (n := length (snd (scanInk v))) in *.
  assert (H256 : INR (GRID_SIZE * GRID_SIZE) = 256).
  { rewrite INR_IZR_INZ. reflexivity. }
  split; [rewrite H256; reflexivity |].
  split.
  { (* aspect ratio *)
    assert (Hw : 1 <= IZR (maxX b - minX b + 1) <= 16) by (split; apply IZR_le; lia).
    assert (Hh : 1 <= IZR (maxY b - minY b + 1) <= 16) by (split; apply IZR_le; lia).
    unfold JS.Math_max. rewrite Rmax_left by lra.
    apply ratio_bounds; lra. }
  split.
  { (* compactness *)
    rewrite boxCells_length in Hn. fold b in Hn.
    assert (Harea : IZR ((maxX b - minX b + 1) * (maxY b - minY b + 1))
                    = INR (Z.to_nat (maxY b - minY b + 1) * Z.to_nat (maxX b - minX b + 1))).
    { rewrite INR_IZR_INZ. f_equal. lia. }
    rewrite Harea.
    pose proof (count_ratio n _ (proj2 Hn)) as Hr.
    split; [| apply Hr].
    unfold JS.Math_max.
    apply Rdiv_lt_0_compat; [apply lt_0_INR; lia |].
    apply Rlt_le_trans with 1; [lra | apply Rmax_r]. }
  split; [rewrite Hcx; apply count_ratio; exact Hmx |].
  split; [rewrite Hcy; apply count_ratio; exact Hmy |].
  split; [apply count_ratio; exact He |].
  split; [repeat split |].
  intros Hunit. rewrite H256.
  assert (Hsum : 0 <= Spec.sum v <= INR (length v)).
  { clear -Hunit. induction Hunit as [| x l Hx _ IH].
    - simpl. lra.
    - cbn [length]. rewrite S_INR. simpl. lra. }
  assert (INR (length v) <= 256).
  { rewrite <- H256. apply le_INR. exact Hlen. }
  lra.
Qed.

Lemma nth_repeat_inside (a d : R) (n i : nat) :
  (i < n)%nat -> nth i (repeat a n) d = a.
Proof.
  intros H. apply (repeat_spec n a). apply nth_In. rewrite repeat_length. exact H.
Qed.

Lemma gridV_cell (i : nat) :
  nth i Ex.gridV 0 = if Nat.ltb i 16 then 1 else 0.
Proof.
  unfold Ex.gridV. destruct (Nat.ltb_spec i 16) as [H | H].
  - rewrite app_nth1 by (rewrite repeat_length; lia). apply nth_repeat_inside. exact H.
  - rewrite app_nth2 by (rewrite repeat_length; lia). apply nth_repeat.
Qed.

Lemma gridV_active : snd (scanInk Ex.gridV) = seq 0 16.
Proof.
  rewrite scanInk_spec. cbn [snd].
  change (length Ex.gridV) with (16 + 240)%nat. rewrite seq_app, filter_app.
  rewrite filter_all, filter_none.
  - apply app_nil_r.
  - intros i Hi. apply in_seq in Hi. apply gtb_false_iff. rewrite gridV_cell.
    destruct (Nat.ltb_spec i 16); [lia | unfold threshold; lra].
  - intros i Hi. apply in_seq in Hi. apply gtb_true_iff. rewrite gridV_cell.
    destruct (Nat.ltb_spec i 16); [unfold threshold; lra | lia].
Qed.

Lemma gridV_inked_cell : Exists (fun value => value > threshold) Ex.gridV.
Proof. unfold Ex.gridV. apply Exists_cons_hd. unfold threshold. lra. Qed.

Lemma shapeFeatures_ranges_witness :
  fillRatio (extractShapeFeatures Ex.gridV) = Spec.sum Ex.gridV / 256
  /\ 0 <= symmetryX (extractShapeFeatures Ex.gridV) <= 1.
Proof.
  destruct (shapeFeatures_ranges Ex.gridV gridV_inked_cell) as (Hf & _ & _ & Hs & _).
  - apply Nat.le_refl.
  - split; [exact Hf | exact Hs].
Defined.

Lemma full_ratio (n : nat) : (0 < n)%nat -> INR n / JS.Math_max (INR n) 1 = 1.
Proof.
  intros H. unfold JS.Math_max.
  assert (1 <= INR n) by (change 1 with (INR 1); apply le_INR; lia).
  rewrite Rmax_left by lra. field. lra.
Qed.

(** A shape whose inked cells are mirrored left-right inside its bounding
    box has [symmetryX] exactly 1, and one mirrored top-bottom has
    [symmetryY] exactly 1. *)
Theorem shapeFeatures_mirrored :
  forall v : list R,
    Exists (fun value => value > threshold) v ->
    (mirroredX v -> symmetryX (extractShapeFeatures v) = 1)
    /\ (mirroredY v -> symmetryY (extractShapeFeatures v) = 1).
Proof.
  intros v Hex. pose proof (exists_inked v Hex) as Hne.
  rewrite (extractShapeFeatures_inked v Hne). cbv zeta. unfold shapeBundle.
  cbn [symmetryX symmetryY].
  destruct (shapeLoop_counts v Hne) as (Hcx & Hcy & _ & _ & _ & Hn).
  cbv zeta in Hcx, Hcy, Hn. rewrite Hcx, Hcy.
  split; intros Hm.
  - rewrite shapeLoop_cells, (shapeFold_mirroredX v (boxOf v) _ _ Hm).
    rewrite (inked_cells_count v Hne). cbn [symmetryMatchesX Nat.add].
    apply full_ratio. lia.
  - rewrite shapeLoop_cells, (shapeFold_mirroredY v (boxOf v) _ _ Hm).
    rewrite (inked_cells_count v Hne). cbn [symmetryMatchesY Nat.add].
    apply full_ratio. lia.
Qed.

Lemma gridV_box : boxOf Ex.gridV = mkBox 0 0 15 0.
Proof. unfold boxOf. rewrite gridV_active. reflexivity. Qed.

Lemma gridV_row_inked (k : Z) : (0 <= k <= 15)%Z -> inked Ex.gridV k 0 = true.
Proof.
  intros H. apply inked_spec; [lia | lia |].
  rewrite gridV_active. apply in_seq. unfold GRID_SIZE. lia.
Qed.

Lemma gridV_mirroredX : mirroredX Ex.gridV.
Proof.
  unfold mirroredX. cbv zeta. rewrite gridV_box. cbn [minX maxX].
  intros x y Hin _. apply boxCells_In in Hin. cbn [minX minY maxX maxY] in Hin.
  replace y with 0%Z by lia. apply gridV_row_inked. lia.
Qed.

Lemma shapeFeatures_mirrored_witness : symmetryX (extractShapeFeatures Ex.gridV) = 1.
Proof.
  exact (proj1 (shapeFeatures_mirrored Ex.gridV gridV_inked_cell) gridV_mirroredX).
Defined.

(** ** Bundles whose aspect ratio has a logarithm *)

(** The aspect ratio [extractShapeFeatures] computes is positive: 1 for a
    faint grid, and otherwise the width of a box that holds a cell over the
    larger of its height and 1. *)
Lemma extractShapeFeatures_aspect (v : list R) :
  0 < aspectRatio (extractShapeFeatures v).
Proof.
  destruct (snd (scanInk v)) as [| i active] eqn:E.
  - unfold extractShapeFeatures. destruct (scanInk v) as [ink act].
    cbn [snd] in E. subst act. cbn. lra.
  - assert (Hne : snd (scanInk v) <> []) by (rewrite E; discriminate).
    rewrite (extractShapeFeatures_inked v Hne). cbv zeta.
    unfold shapeBundle. cbn [aspectRatio].
    destruct (boxOf_bounds v Hne) as (_ & (Hx & _ & Hy) & _). cbv zeta in Hx, Hy.
    apply Rdiv_lt_0_compat.
    + apply IZR_lt. lia.
    + unfold JS.Math_max. apply Rlt_le_trans with 1; [lra | apply Rmax_r].
Qed.

Lemma combineFeatures_logDefined (v : list R) (strokes : list Stroke) :
  logDefined (combineFeatures v strokes).
Proof.
  unfold logDefined, combineFeatures. cbn [aspectRatio].
  pose proof (extractShapeFeatures_aspect v). lra.
Qed.

Lemma catSample_logDefined : logDefined (featuresOf Ex.catSample).
Proof. exact (combineFeatures_logDefined Ex.gridV [Ex.stroke3]). Qed.

Lemma dogSample_logDefined : logDefined (featuresOf Ex.dogSample).
Proof. exact (combineFeatures_logDefined Ex.grid69 []). Qed.

Lemma catdog_logDefined : logDefinedOn [Ex.catSample; Ex.dogSample; Ex.catSample].
Proof.
  repeat constructor;
    [exact catSample_logDefined | exact dogSample_logDefined | exact catSample_logDefined].
Qed.

Lemma catWorld_logDefined : logDefinedOn (dataset Ex.catWorld).
Proof.
  unfold logDefinedOn. apply Forall_forall. intros s Hs.
  apply repeat_spec in Hs. subst s. exact catSample_logDefined.
Qed.

Lemma featureDistance_symmetric_witness :
  featureDistance (featuresOf Ex.catSample) (featuresOf Ex.dogSample)
  = featureDistance (featuresOf Ex.dogSample) (featuresOf Ex.catSample).
Proof.
  exact (proj1 (proj2 (featureDistance_symmetric _ _
                         catSample_logDefined dogSample_logDefined))).
Defined.

(** ** What the prototypes hold *)

Lemma bumpFor_fold (lbl : string) (ds : list Sample) (ob : option Bucket) :
  fold_left (bumpFor lbl) ds ob
  = match samplesOf lbl ds with
    | [] => ob
    | ss => Some (fold_left bump ss (match ob with Some b => b | None => emptyBucket end))
    end.
Proof.
  revert ob. induction ds as [| s ds IH]; intros ob; cbn [fold_left].
  - reflexivity.
  - rewrite IH. unfold samplesOf. cbn [filter]. fold (samplesOf lbl ds).
    unfold bumpFor. destruct (String.eqb (label s) lbl).
    + cbn [fold_left]. destruct (samplesOf lbl ds); reflexivity.
    + reflexivity.
Qed.

Lemma bump_fold (ss : list Sample) (b : Bucket) :
  fold_left bump ss b
  = mkBucket (count b + length ss)
             (fold_left addVector (map vector ss) (vectorSum b))
             (fold_left addFeatures (map featuresOf ss) (featureSum b)).
Proof.
  revert b. induction ss as [| s ss IH]; intros b; cbn [fold_left map length].
  - destruct b. cbn. f_equal. lia.
  - rewrite IH. unfold bump. cbn [count vectorSum featureSum]. f_equal. lia.
Qed.

(** The bucket of a label after the loop of [buildPrototypes]. *)
Lemma bucket_of_label (lbl : string) (ds : list Sample) :
  SMap.get lbl (fold_left addSample ds [])
  = match samplesOf lbl ds with
    | [] => None
    | ss => Some (mkBucket (length ss)
                           (fold_left addVector (map vector ss)
                                      (repeat 0 (GRID_SIZE * GRID_SIZE)))
                           (fold_left addFeatures (map featuresOf ss)
                                      (mkFeatureSum 0 0 0 0 0 0 0 0 0)))
    end.
Proof.
  rewrite buckets_get, bumpFor_fold. cbn [SMap.get].
  destruct (samplesOf lbl ds); [reflexivity |]. rewrite bump_fold. reflexivity.
Qed.

Lemma samplesOf_nil (lbl : string) (ds : list Sample) :
  samplesOf lbl ds = [] <-> ~ In lbl (map label ds).
Proof.
  unfold samplesOf. split.
  - intros E Hin. apply in_map_iff in Hin. destruct Hin as (s & Hl & Hs).
    assert (Hf : In s (filter (fun s => String.eqb (label s) lbl) ds)).
    { apply filter_In. split; [exact Hs | apply String.eqb_eq, Hl]. }
    rewrite E in Hf. destruct Hf.
  - intros H. apply filter_none. intros s Hs. apply String.eqb_neq. intros E.
    apply H. apply in_map_iff. exists s. split; assumption.
Qed.

Lemma smap_has_existsb {V : Type} (k : string) (m : SMap.t V) :
  SMap.has k m = existsb (String.eqb k) (map fst m).
Proof.
  unfold SMap.has. induction m as [| [k' v] m IH]; cbn [SMap.get map fst existsb].
  - reflexivity.
  - rewrite (String.eqb_sym k k'). destruct (String.eqb k' k); [reflexivity | exact IH].
Qed.

Lemma addSample_keys (m : SMap.t Bucket) (item : Sample) :
  map fst (addSample m item)
  = if existsb (String.eqb (label item)) (map fst m)
    then map fst m else map fst m ++ [label item].
Proof.
  rewrite <- smap_has_existsb. unfold addSample.
  destruct (SMap.has (label item) m) eqn:Hhas; cbn [negb].
  - unfold SMap.has in Hhas. destruct (SMap.get (label item) m) eqn:E; [| discriminate].
    rewrite smap_keys_set. unfold SMap.has. rewrite E. reflexivity.
  - rewrite smap_get_set_same, smap_keys_set.
    unfold SMap.has at 1. rewrite smap_get_set_same.
    rewrite smap_keys_set, Hhas. reflexivity.
Qed.

Lemma buckets_keys_order (ds : list Sample) (m : SMap.t Bucket) :
  map fst (fold_left addSample ds m)
  = fold_left (fun seen k => if existsb (String.eqb k) seen then seen else seen ++ [k])
              (map label ds) (map fst m).
Proof.
  revert m. induction ds as [| s ds IH]; intros m; cbn [fold_left map].
  - reflexivity.
  - rewrite IH, addSample_keys. reflexivity.
Qed.

Lemma smap_set_count_total (k : string) (b' : Bucket) (m : SMap.t Bucket) :
  (list_sum (map (fun e => count (snd e)) (SMap.set k b' m))
   + match SMap.get k m with Some b => count b | None => 0 end
   = list_sum (map (fun e => count (snd e)) m) + count b')%nat.
Proof.
  induction m as [| [k' v] m IH]; cbn [SMap.set SMap.get].
  - simpl. lia.
  - destruct (String.eqb k' k); simpl in *; lia.
Qed.

Lemma addSample_count_total (m : SMap.t Bucket) (item : Sample) :
  list_sum (map (fun e => count (snd e)) (addSample m item))
  = (list_sum (map (fun e => count (snd e)) m) + 1)%nat.
Proof.
  unfold addSample, SMap.has.
  destruct (SMap.get (label item) m) as [b |] eqn:E; cbn [negb].
  - rewrite E. pose proof (smap_set_count_total (label item)
      (mkBucket (count b + 1) (addVector (vectorSum b) (vector item))
                (addFeatures (featureSum b) (featuresOf item))) m) as H.
    rewrite E in H. cbn [count] in H. lia.
  - rewrite smap_get_set_same.
    pose proof (smap_set_count_total (label item) emptyBucket m) as H1.
    rewrite E in H1.
    pose proof (smap_set_count_total (label item)
      (mkBucket (count emptyBucket + 1) (addVector (vectorSum emptyBucket) (vector item))
                (addFeatures (featureSum emptyBucket) (featuresOf item)))
      (SMap.set (label item) emptyBucket m)) as H2.
    rewrite smap_get_set_same in H2. cbn [count emptyBucket] in *. lia.
Qed.

Lemma buckets_count_total (ds : list Sample) (m : SMap.t Bucket) :
  list_sum (map (fun e => count (snd e)) (fold_left addSample ds m))
  = (list_sum (map (fun e => count (snd e)) m) + length ds)%nat.
Proof.
  revert m. induction ds as [| s ds IH]; intros m; cbn [fold_left length].
  - lia.
  - rewrite IH, addSample_count_total. lia.
Qed.

(** [buildPrototypes] makes one prototype per label of the dataset, listed
    in the order in which the labels first occur; the count of a prototype
    is the number of samples carrying its label, so the counts add up to the
    size of the dataset; a label that does not occur has no prototype. *)
Theorem buildPrototypes_counts :
  forall (ds : list Sample) (lbl : string),
    (In lbl (map label ds) ->
     exists p, findPrototype lbl (buildPrototypes ds) = Some p
               /\ proto_label p = lbl
               /\ proto_count p = length (samplesOf lbl ds)
               /\ (0 < proto_count p)%nat)
    /\ (~ In lbl (map label ds) -> findPrototype lbl (buildPrototypes ds) = None)
    /\ map proto_label (buildPrototypes ds) = firstOccurrences (map label ds)
    /\ NoDup (map proto_label (buildPrototypes ds))
    /\ list_sum (map proto_count (buildPrototypes ds)) = length ds.
Proof.
  intros ds lbl.
  assert (Hlabels : map proto_label (buildPrototypes ds)
                    = map fst (fold_left addSample ds [])).
  { unfold buildPrototypes. rewrite map_map. apply map_ext. intros [k b]. reflexivity. }
  split; [| split; [| split; [| split]]].
  - intros Hin. unfold buildPrototypes. rewrite findPrototype_get, bucket_of_label.
    destruct (samplesOf lbl ds) as [| s ss] eqn:E.
    + apply samplesOf_nil in E. contradiction.
    + eexists. split; [reflexivity |]. cbn. repeat split. lia.
  - intros Hnot. unfold buildPrototypes. rewrite findPrototype_get, bucket_of_label.
    apply samplesOf_nil in Hnot. rewrite Hnot. reflexivity.
  - rewrite Hlabels. apply (buckets_keys_order ds []).
  - rewrite Hlabels. apply buckets_nodup. constructor.
  - unfold buildPrototypes. rewrite map_map.
    rewrite (map_ext (fun e => proto_count (prototypeOf e)) (fun e => count (snd e)))
      by (intros [k b]; reflexivity).
    apply (buckets_count_total ds []).
Qed.

Lemma addVector_length (sums v : list R) : length (addVector sums v) = length sums.
Proof.
  revert v. induction sums as [| s sums IH]; intros [| x v]; cbn [addVector length];
    try reflexivity.
  rewrite IH. reflexivity.
Qed.

Lemma addVector_nth (sums v : list R) (i : nat) :
  (i < length sums)%nat -> nth i (addVector sums v) 0 = nth i sums 0 + nth i v 0.
Proof.
  revert v i. induction sums as [| s sums IH]; intros v i Hi; [cbn in Hi; lia |].
  destruct v as [| x v]; cbn [addVector].
  - destruct i; cbn [nth]; lra.
  - destruct i as [| i]; cbn [nth]; [reflexivity |].
    apply IH. cbn [length] in Hi. lia.
Qed.

Lemma vectorSum_fold (vs : list (list R)) (sums : list R) :
  length (fold_left addVector vs sums) = length sums
  /\ forall i, (i < length sums)%nat ->
               nth i (fold_left addVector vs sums) 0
               = nth i sums 0 + total (fun v => nth i v 0) vs.
Proof.
  unfold total. revert sums. induction vs as [| v vs IH]; intros sums; cbn [fold_left map].
  - split; [reflexivity | intros i _; simpl; lra].
  - destruct (IH (addVector sums v)) as [Hl Hn]. rewrite addVector_length in Hl, Hn.
    split; [exact Hl |]. intros i Hi. rewrite (Hn i Hi), (addVector_nth sums v i Hi).
    simpl. lra.
Qed.

Lemma featureSum_fold (fs : list Features) (acc : FeatureSum) :
  fold_left addFeatures fs acc
  = mkFeatureSum
      (sum_fillRatio acc + total fillRatio fs)
      (sum_aspectRatio acc + total aspectRatio fs)
      (sum_compactness acc + total compactness fs)
      (sum_symmetryX acc + total symmetryX fs)
      (sum_symmetryY acc + total symmetryY fs)
      (sum_edgeDensity acc + total edgeDensity fs)
      (sum_lengthNorm acc + total lengthNorm fs)
      (sum_straightness acc + total straightness fs)
      (sum_strokeCount acc + total (fun f => JS.or0 (strokeCount f)) fs).
Proof.
  unfold total. revert acc. induction fs as [| f fs IH]; intros acc; cbn [fold_left map].
  - destruct acc. unfold Spec.sum. simpl. f_equal; lra.
  - rewrite IH. unfold addFeatures, Spec.sum. simpl. f_equal; lra.
Qed.

Lemma nth_map_inside (f : R -> R) (l : list R) (i : nat) (d d' : R) :
  (i < length l)%nat -> nth i (map f l) d' = f (nth i l d).
Proof.
  revert i. induction l as [| x l IH]; intros i Hi; [cbn in Hi; lia |].
  destruct i as [| i]; cbn [map nth]; [reflexivity |].
  apply IH. cbn [length] in Hi. lia.
Qed.

Lemma mean_unit (l : list R) :
  l <> [] -> Forall (fun x => 0 <= x <= 1) l ->
  0 <= Spec.sum l / INR (length l) <= 1.
Proof.
  intros Hne H.
  assert (Hs : 0 <= Spec.sum l <= INR (length l)).
  { clear Hne. induction H as [| x l Hx _ IH].
    - simpl. lra.
    - cbn [length]. rewrite S_INR. simpl. lra. }
  assert (Hn : 0 < INR (length l)).
  { apply lt_0_INR. destruct l; [congruence | simpl; lia]. }
  apply ratio_bounds; lra.
Qed.

(** For a dataset whose vectors have 256 cells, as the loader and
    [saveDrawing] guarantee: every cell of a prototype is the mean of that
    cell over the samples of the label, and every feature the mean of that
    feature (a missing [strokeCount] counting as 0); the prototype vector
    has 256 cells, all in [0, 1] when those of the samples are. *)
Theorem buildPrototypes_means :
  forall (ds : list Sample) (lbl : string) (p : Prototype),
    gridSized ds ->
    findPrototype lbl (buildPrototypes ds) = Some p ->
    let ss := samplesOf lbl ds in
    let n := INR (length ss) in
    length (proto_vector p) = (GRID_SIZE * GRID_SIZE)%nat
    /\ (forall i, (i < GRID_SIZE * GRID_SIZE)%nat ->
                  nth i (proto_vector p) 0 = total (fun s => nth i (vector s) 0) ss / n)
    /\ (Forall (fun s => Forall (fun x => 0 <= x <= 1) (vector s)) ss ->
        Forall (fun x => 0 <= x <= 1) (proto_vector p))
    /\ proto_features p
       = mkFeatures
           (total (fun s => fillRatio (featuresOf s)) ss / n)
           (total (fun s => aspectRatio (featuresOf s)) ss / n)
           (total (fun s => compactness (featuresOf s)) ss / n)
           (total (fun s => symmetryX (featuresOf s)) ss / n)
           (total (fun s => symmetryY (featuresOf s)) ss / n)
           (total (fun s => edgeDensity (featuresOf s)) ss / n)
           (total (fun s => lengthNorm (featuresOf s)) ss / n)
           (total (fun s => straightness (featuresOf s)) ss / n)
           (Some (total (fun s => JS.or0 (strokeCount (featuresOf s))) ss / n)).
Proof.
  intros ds lbl p _ Hfind. cbv zeta.
  unfold buildPrototypes in Hfind. rewrite findPrototype_get, bucket_of_label in Hfind.
  destruct (samplesOf lbl ds) as [| s0 ss0] eqn:E; [discriminate |].
  cbv beta iota zeta in Hfind. set (ss := s0 :: ss0) in *.
  match type of Hfind with
  | option_map _ (Some ?b) = _ => set (bk := b) in Hfind
  end.
  assert (Hp : p = prototypeOf (lbl, bk)) by (cbn [option_map] in Hfind; congruence).
  rewrite Hp. unfold prototypeOf. subst bk.
  cbn [count vectorSum featureSum proto_vector proto_features].
  clear Hfind Hp.
  destruct (vectorSum_fold (map vector ss) (repeat 0 (GRID_SIZE * GRID_SIZE))) as [Hl Hn].
  rewrite repeat_length in Hl, Hn.
  set (pv := map (fun value => value / INR (length ss))
                 (fold_left addVector (map vector ss) (repeat 0 (GRID_SIZE * GRID_SIZE)))).
  assert (Hpl : length pv = (GRID_SIZE * GRID_SIZE)%nat).
  { subst pv. rewrite length_map. exact Hl. }
  assert (Hcell : forall i, (i < GRID_SIZE * GRID_SIZE)%nat ->
            nth i pv 0 = total (fun s => nth i (vector s) 0) ss / INR (length ss)).
  { intros i Hi. subst pv.
    rewrite (nth_map_inside _ _ i 0 0) by (rewrite Hl; exact Hi).
    rewrite (Hn i Hi), nth_repeat. unfold total. rewrite map_map.
    f_equal. lra. }
  split; [exact Hpl | split; [exact Hcell | split]].
  - intros Hunit.
    apply Forall_forall. intros x Hx.
    destruct (In_nth _ _ 0 Hx) as (i & Hi & Hnth).
    rewrite Hpl in Hi. rewrite (Hcell i Hi) in Hnth. subst x.
    unfold total. rewrite <- (length_map (fun s => nth i (vector s) 0) ss).
    apply mean_unit; [subst ss; discriminate |].
    apply Forall_forall. intros y Hy. apply in_map_iff in Hy.
    destruct Hy as (s & <- & Hs). rewrite Forall_forall in Hunit.
    specialize (Hunit s Hs).
    destruct (Nat.lt_ge_cases i (length (vector s))) as [Hlt | Hge].
    + rewrite Forall_forall in Hunit. apply Hunit. apply nth_In. exact Hlt.
    + rewrite nth_overflow by exact Hge. lra.
  - rewrite featureSum_fold. unfold meanFeatures, total.
    cbn [sum_fillRatio sum_aspectRatio sum_compactness sum_symmetryX sum_symmetryY
         sum_edgeDensity sum_lengthNorm sum_straightness sum_strokeCount].
    rewrite !map_map, !Rplus_0_l. reflexivity.
Qed.

Lemma catdog_sized : gridSized [Ex.catSample; Ex.dogSample; Ex.catSample].
Proof. unfold gridSized. repeat constructor. Qed.

Lemma catdog_prototype :
  findPrototype "cat" (buildPrototypes [Ex.catSample; Ex.dogSample; Ex.catSample])
  = Some (prototypeOf
            ("cat"%string,
             mkBucket 2
               (fold_left addVector [Ex.gridV; Ex.gridV] (repeat 0 (GRID_SIZE * GRID_SIZE)))
               (fold_left addFeatures
                          [featuresOf Ex.catSample; featuresOf Ex.catSample]
                          (mkFeatureSum 0 0 0 0 0 0 0 0 0)))).
Proof.
  unfold buildPrototypes. rewrite findPrototype_get, bucket_of_label. reflexivity.
Qed.

Lemma buildPrototypes_means_witness :
  exists p,
    findPrototype "cat" (buildPrototypes [Ex.catSample; Ex.dogSample; Ex.catSample]) = Some p
    /\ length (proto_vector p) = 256%nat
    /\ nth 0 (proto_vector p) 0
       = total (fun s => nth 0 (vector s) 0) [Ex.catSample; Ex.catSample] / INR 2.
Proof.
  eexists. split; [exact catdog_prototype |].
  destruct (buildPrototypes_means _ "cat" _ catdog_sized catdog_prototype) as (Hl & Hn & _).
  split; [exact Hl |]. apply (Hn 0%nat). unfold GRID_SIZE. lia.
Defined.

(** ** Neighbours and votes *)

Lemma nearest_insert_ascending (x : Scored) (l : list Scored) :
  StronglySorted (fun a b : Scored => snd a <= snd b) l ->
  StronglySorted (fun a b : Scored => snd a <= snd b)
                 (JS.sort_insert (fun a b : Scored => snd a - snd b) x l).
Proof.
  induction 1 as [| y l Hs IH Hall]; cbn [JS.sort_insert].
  - repeat constructor.
  - destruct (Rle_dec (snd x - snd y) 0) as [Hle | Hgt].
    + constructor; [constructor; assumption |].
      constructor; [lra |].
      eapply Forall_impl; [| exact Hall]. cbn beta. intros a Ha. lra.
    + constructor; [exact IH |].
      apply (Permutation_Forall (Permutation_sym
               (sort_insert_perm (fun a b : Scored => snd a - snd b) x l))).
      constructor; [lra | exact Hall].
Qed.

Lemma nearest_sort_ascending (l : list Scored) :
  StronglySorted (fun a b : Scored => snd a <= snd b)
                 (JS.sort (fun a b : Scored => snd a - snd b) l).
Proof.
  unfold JS.sort. induction l as [| x l IH]; cbn [fold_right].
  - constructor.
  - apply nearest_insert_ascending, IH.
Qed.

Lemma sorted_app_le {A : Type} (R : A -> A -> Prop) (l1 l2 : list A) :
  StronglySorted R (l1 ++ l2) -> forall x y, In x l1 -> In y l2 -> R x y.
Proof.
  induction l1 as [| a l1 IH]; intros Hs x y Hx Hy; [destruct Hx |].
  cbn [app] in Hs. apply StronglySorted_inv in Hs. destruct Hs as [Hs Hall].
  destruct Hx as [<- | Hx].
  - rewrite Forall_forall in Hall. apply Hall. apply in_or_app. right. exact Hy.
  - apply IH; assumption.
Qed.

Lemma nearestOf_sized (scored : list Scored) :
  length (nearestOf scored) = Nat.min 9 (length scored)
  /\ Forall (fun x => In x scored) (nearestOf scored).
Proof.
  unfold nearestOf. split.
  - rewrite length_firstn, sort_length. reflexivity.
  - apply firstn_forall, sort_forall. apply Forall_forall. intros x Hx. exact Hx.
Qed.

(** The neighbours that vote are the nine nearest samples, all of them
    when there are fewer: no sample left out is nearer than one that
    votes. *)
Theorem nearestOf_nearest :
  forall scored : list Scored,
    length (nearestOf scored) = Nat.min 9 (length scored)
    /\ exists rest,
         Permutation (nearestOf scored ++ rest) scored
         /\ forall x y, In x (nearestOf scored) -> In y rest -> snd x <= snd y.
Proof.
  intros scored. unfold nearestOf.
  set (sorted := JS.sort (fun a b : string * R => snd a - snd b) scored).
  assert (Hp : Permutation sorted scored) by apply sort_perm.
  split.
  - rewrite length_firstn, (Permutation_length Hp). reflexivity.
  - exists (skipn 9 sorted). split.
    + rewrite firstn_skipn. exact Hp.
    + apply (sorted_app_le (fun a b : Scored => snd a <= snd b)).
      rewrite firstn_skipn. apply nearest_sort_ascending.
Qed.

Lemma castVote_get (k : string) (scale : R) (votes : SMap.t R) (x : Scored) :
  JS.or0 (SMap.get k (castVote scale votes x))
  = JS.or0 (SMap.get k votes)
    + (if String.eqb (fst x) k then scale / JS.Math_max (snd x) 0.05 else 0).
Proof.
  unfold castVote. destruct (String.eqb_spec (fst x) k) as [<- | Hne].
  - rewrite smap_get_set_same. reflexivity.
  - rewrite smap_get_set_other by exact Hne. lra.
Qed.

Lemma castVotes_get (k : string) (scale : R) (l : list Scored) (votes : SMap.t R) :
  JS.or0 (SMap.get k (fold_left (castVote scale) l votes))
  = JS.or0 (SMap.get k votes)
    + total (fun x => scale / JS.Math_max (snd x) 0.05)
            (filter (fun x => String.eqb (fst x) k) l).
Proof.
  unfold total. revert votes. induction l as [| x l IH]; intros votes; cbn [fold_left filter].
  - simpl. lra.
  - rewrite IH, castVote_get. destruct (String.eqb (fst x) k); simpl; lra.
Qed.

Lemma castVotes_keys (k : string) (scale : R) (l : list Scored) (votes : SMap.t R) :
  In k (map fst (fold_left (castVote scale) l votes)) ->
  In k (map fst votes) \/ In k (map fst l).
Proof.
  revert votes. induction l as [| x l IH]; intros votes H; cbn [fold_left map] in *.
  - left. exact H.
  - apply IH in H. destruct H as [H | H]; [| right; right; exact H].
    unfold castVote in H. rewrite smap_keys_set in H.
    destruct (SMap.has (fst x) votes); [left; exact H |].
    apply in_app_or in H. destruct H as [H | [<- | []]]; [left; exact H |].
    right. left. reflexivity.
Qed.

Lemma sum_upper_bound (c : R) (l : list R) :
  Forall (fun y => y <= c) l -> Spec.sum l <= INR (length l) * c.
Proof.
  induction 1 as [| y l Hy _ IH].
  - simpl. lra.
  - cbn [length]. rewrite S_INR. simpl. lra.
Qed.

Lemma vote_weight_bounded (scale dist : R) :
  0 < scale -> 0 < scale / JS.Math_max dist 0.05 <= 20 * scale.
Proof.
  intros Hs. split; [apply vote_weight_positive; exact Hs |].
  assert (Hm : 0.05 <= JS.Math_max dist 0.05) by apply Rmax_r.
  apply (Rmult_le_reg_r (JS.Math_max dist 0.05)); [lra |].
  unfold Rdiv. rewrite Rmult_assoc, Rinv_l by lra. nra.
Qed.

Lemma filter_key_unique {A : Type} (f : A -> string) (k : string) (l : list A) :
  NoDup (map f l) -> (length (filter (fun x => String.eqb (f x) k) l) <= 1)%nat.
Proof.
  induction l as [| x l IH]; intros Hnd; cbn [filter map] in *.
  - cbn. lia.
  - inversion Hnd as [| ? ? Hnot Hnd']; subst.
    destruct (String.eqb_spec (f x) k) as [E | _]; [| apply IH; exact Hnd'].
    rewrite filter_none; [cbn; lia |].
    intros y Hy. apply String.eqb_neq. intros Ey. apply Hnot.
    apply in_map_iff. exists y. split; [congruence | exact Hy].
Qed.

Lemma weights_total_bound (scale : R) (l : list Scored) (n : nat) :
  0 < scale -> (length l <= n)%nat ->
  0 <= total (fun x => scale / JS.Math_max (snd x) 0.05) l <= INR n * (20 * scale).
Proof.
  intros Hs Hn. unfold total. split.
  - apply sum_nonneg. apply Forall_forall. intros y Hy. apply in_map_iff in Hy.
    destruct Hy as (x & <- & _). apply Rlt_le, vote_weight_positive, Hs.
  - apply Rle_trans with (INR (length l) * (20 * scale)).
    + rewrite <- (length_map (fun x : Scored => scale / JS.Math_max (snd x) 0.05) l).
      apply sum_upper_bound. apply Forall_forall. intros y Hy. apply in_map_iff in Hy.
      destruct Hy as (x & <- & _). apply vote_weight_bounded, Hs.
    + apply Rmult_le_compat_r; [lra | apply le_INR, Hn].
Qed.

(** Against a dataset whose bundles have a logarithm, the tally of a label
    is the sum of the votes [1 / max(dist, 0.05)] of its nearest samples
    and [0.9 / max(dist, 0.05)] of its prototype, and nothing else; with
    the prototypes of the dataset it never exceeds 9 * 20 + 18 = 198, and
    only labels of the dataset get a tally. *)
Theorem tally_per_label :
  forall (grid : list R) (strokes : list Stroke) (ds : list Sample) (k : string),
    logDefinedOn ds ->
    let feats := combineFeatures grid strokes in
    let nearest := nearestOf (map (scoreExample grid feats) ds) in
    let scoredPrototypes := map (scorePrototype grid feats) (buildPrototypes ds) in
    let votes := tally grid strokes ds (buildPrototypes ds) in
    JS.or0 (SMap.get k votes)
    = total (fun x => 1 / JS.Math_max (snd x) 0.05)
            (filter (fun x => String.eqb (fst x) k) nearest)
      + total (fun x => 0.9 / JS.Math_max (snd x) 0.05)
              (filter (fun x => String.eqb (fst x) k) scoredPrototypes)
    /\ 0 <= JS.or0 (SMap.get k votes) <= 198
    /\ (In k (map fst votes) -> In k (map label ds)).
Proof.
  intros grid strokes ds k _. cbv zeta.
  set (feats := combineFeatures grid strokes).
  set (nearest := nearestOf (map (scoreExample grid feats) ds)).
  set (protos := map (scorePrototype grid feats) (buildPrototypes ds)).
  assert (Heq : JS.or0 (SMap.get k (tally grid strokes ds (buildPrototypes ds)))
                = total (fun x => 1 / JS.Math_max (snd x) 0.05)
                        (filter (fun x => String.eqb (fst x) k) nearest)
                  + total (fun x => 0.9 / JS.Math_max (snd x) 0.05)
                          (filter (fun x => String.eqb (fst x) k) protos)).
  { unfold tally. cbv zeta. fold feats. fold nearest. fold protos.
    rewrite !castVotes_get. cbn [SMap.get JS.or0]. lra. }
  split; [exact Heq | split].
  - rewrite Heq.
    assert (Hn : (length (filter (fun x : Scored => String.eqb (fst x) k) nearest) <= 9)%nat).
    { apply Nat.le_trans with (length nearest); [apply filter_length_le |].
      subst nearest. rewrite (proj1 (nearestOf_sized _)). apply Nat.le_min_l. }
    assert (Hp : (length (filter (fun x : Scored => String.eqb (fst x) k) protos) <= 1)%nat).
    { subst protos. apply filter_key_unique. rewrite map_map.
      rewrite (map_ext (fun p => fst (scorePrototype grid feats p)) proto_label)
        by reflexivity.
      unfold buildPrototypes. rewrite map_map.
      rewrite (map_ext (fun e => proto_label (prototypeOf e)) fst)
        by (intros [lbl b]; reflexivity).
      apply buckets_nodup. constructor. }
    pose proof (weights_total_bound 1 _ 9 ltac:(lra) Hn) as H1.
    pose proof (weights_total_bound 0.9 _ 1 ltac:(lra) Hp) as H2.
    assert (H9 : INR 9 = 9) by (rewrite INR_IZR_INZ; reflexivity).
    assert (H1' : INR 1 = 1) by reflexivity.
    rewrite H9 in H1. rewrite H1' in H2.
    match goal with
    | |- 0 <= ?a + ?b <= 198 =>
        assert (Ha : 0 <= a <= 9 * (20 * 1)) by exact H1;
        assert (Hb : 0 <= b <= 1 * (20 * 0.9)) by exact H2;
        lra
    end.
  - intros Hin. unfold tally in Hin. cbv zeta in Hin. fold feats nearest protos in Hin.
    apply castVotes_keys in Hin. destruct Hin as [Hin | Hin].
    + apply castVotes_keys in Hin. destruct Hin as [[] | Hin].
      apply in_map_iff in Hin. destruct Hin as (x & <- & Hx).
      subst nearest.
      assert (Hx' : In x (map (scoreExample grid feats) ds)).
      { pose proof (proj2 (nearestOf_sized (map (scoreExample grid feats) ds))) as HF.
        rewrite Forall_forall in HF. apply HF. exact Hx. }
      apply in_map_iff in Hx'. destruct Hx' as (s & <- & Hs).
      apply in_map_iff. exists s. split; [reflexivity | exact Hs].
    + apply in_map_iff in Hin. destruct Hin as (x & <- & Hx).
      subst protos. apply in_map_iff in Hx. destruct Hx as (p & <- & Hp).
      apply (buildPrototypes_labels ds p Hp).
Qed.

Lemma tally_per_label_witness :
  0 <= JS.or0 (SMap.get "cat"
                 (tally Ex.gridV [Ex.stroke3] [Ex.catSample; Ex.dogSample; Ex.catSample]
                    (buildPrototypes [Ex.catSample; Ex.dogSample; Ex.catSample]))) <= 198.
Proof.
  exact (proj1 (proj2 (tally_per_label Ex.gridV [Ex.stroke3]
                         [Ex.catSample; Ex.dogSample; Ex.catSample] "cat"
                         catdog_logDefined))).
Defined.

(** ** What the classifier can answer *)

Lemma classify_label (grid : list R) (strokes : list Stroke) (ds : list Sample) :
  ds <> [] ->
  In (bestLabel (classify grid strokes ds (buildPrototypes ds))) (map label ds).
Proof.
  intros Hne. unfold classify.
  pose proof (tally_nonempty grid strokes ds (buildPrototypes ds) Hne) as Hv.
  destruct (verdictOf_rank _ (buildPrototypes ds) Hv) as (_ & _ & _ & Hin).
  cbv zeta in Hin.
  set (v := verdictOf _ _) in *.
  assert (Hk : In (bestLabel v) (map fst (tally grid strokes ds (buildPrototypes ds)))).
  { apply in_map_iff. exists (bestLabel v, bestScore v). split; [reflexivity | exact Hin]. }
  unfold tally in Hk. cbv zeta in Hk.
  apply castVotes_keys in Hk. destruct Hk as [Hk | Hk].
  - apply castVotes_keys in Hk. destruct Hk as [[] | Hk].
    apply in_map_iff in Hk. destruct Hk as (x & Hx & Hxin). rewrite <- Hx.
    pose proof (proj2 (nearestOf_sized
      (map (scoreExample grid (combineFeatures grid strokes)) ds))) as HF.
    rewrite Forall_forall in HF. apply HF in Hxin.
    apply in_map_iff in Hxin. destruct Hxin as (s & <- & Hs).
    apply in_map_iff. exists s. split; [reflexivity | exact Hs].
  - apply in_map_iff in Hk. destruct Hk as (x & Hx & Hxin). rewrite <- Hx.
    apply in_map_iff in Hxin. destruct Hxin as (p & <- & Hp).
    apply (buildPrototypes_labels ds p Hp).
Qed.

Lemma classify_confidence (grid : list R) (strokes : list Stroke)
    (ds : list Sample) (prototypes : list Prototype) :
  let v := classify grid strokes ds prototypes in
  (1 <= conf v <= 99)%Z
  /\ (lowConfidence v = false -> (60 <= conf v)%Z /\ 0.12 <= margin v).
Proof.
  cbv zeta. unfold classify.
  destruct (verdictOf_fields (rank (tally grid strokes ds prototypes)) prototypes)
    as (_ & _ & _ & Hconf & Hlow).
  cbv zeta in Hconf, Hlow.
  set (v := verdictOf _ _) in *.
  split; [rewrite Hconf; lia |].
  intros H. rewrite Hlow in H. apply orb_false_iff in H. destruct H as [H1 H2].
  apply Z.ltb_ge in H1. apply ltb_false_iff in H2. split; assumption.
Qed.

(** Against a dataset whose bundles have a logarithm, [guessDrawing] only
    ever shows "unknown", "Need training data first" or a label of the
    dataset, with confidence 0 or between 1 and 99; when it leaves the
    status message empty, the guess is a label of the dataset and the
    confidence is at least 60. *)
Theorem guessDrawing_answers :
  forall w : World,
    logDefinedOn (dataset w) ->
    let w' := exec guessDrawing w in
    (guess w' = "unknown"%string \/ guess w' = "Need training data first"%string
     \/ In (guess w') (map label (dataset w)))
    /\ (confidence w' = 0%Z \/ (1 <= confidence w' <= 99)%Z)
    /\ (statusMessage w' = ""%string ->
        In (guess w') (map label (dataset w)) /\ (60 <= confidence w' <= 99)%Z).
Proof.
  intros w _. cbv zeta. destruct (meaningful_dec w) as [Hm | Hm].
  - destruct (dataset w) as [| s d] eqn:D.
    + rewrite (guessDrawing_untrained w Hm D). cbn [guess confidence statusMessage].
      split; [tauto | split; [left; reflexivity | discriminate]].
    + assert (Hne : dataset w <> []) by (rewrite D; discriminate).
      rewrite (guessDrawing_trained w Hm Hne). cbv zeta.
      cbn [guess confidence statusMessage].
      pose proof (classify_label (canvas w) (strokes w) (dataset w) Hne) as Hl.
      destruct (classify_confidence (canvas w) (strokes w) (dataset w)
                  (buildPrototypes (dataset w))) as [Hc Hlow].
      cbv zeta in Hc, Hlow. rewrite D in *.
      set (v := classify (canvas w) (strokes w) (s :: d) (buildPrototypes (s :: d))) in *.
      destruct (lowConfidence v).
      * split; [left; reflexivity | split; [right; exact Hc | discriminate]].
      * split; [right; right; exact Hl | split; [right; exact Hc |]].
        intros _. split; [exact Hl |]. specialize (Hlow eq_refl). lia.
  - rewrite (guessDrawing_blank w Hm). cbn [guess confidence statusMessage].
    split; [left; reflexivity | split; [left; reflexivity | discriminate]].
Qed.

Lemma guessDrawing_answers_witness :
  confidence (exec guessDrawing Ex.catWorld) = 0%Z
  \/ (1 <= confidence (exec guessDrawing Ex.catWorld) <= 99)%Z.
Proof.
  exact (proj1 (proj2 (guessDrawing_answers Ex.catWorld catWorld_logDefined))).
Defined.

(** Guessing again on an unchanged drawing changes nothing: [guessDrawing]
    reads only the surface, the strokes and the dataset, none of which it
    writes. *)
Theorem guessDrawing_idempotent :
  forall w : World, exec guessDrawing (exec guessDrawing w) = exec guessDrawing w.
Proof.
  intros w. destruct (meaningful_dec w) as [Hm | Hm].
  - destruct (dataset w) as [| s d] eqn:D.
    + rewrite (guessDrawing_untrained w Hm D).
      rewrite guessDrawing_untrained; [reflexivity | exact Hm | exact D].
    + assert (Hne : dataset w <> []) by (rewrite D; discriminate).
      rewrite (guessDrawing_trained w Hm Hne). cbv zeta.
      rewrite guessDrawing_trained; [reflexivity | exact Hm | exact Hne].
  - rewrite (guessDrawing_blank w Hm).
    rewrite guessDrawing_blank; [reflexivity | exact Hm].
Qed.

(** ** Saving, clearing and loading back *)

Lemma jsonOfSample_checks (s : Sample) :
  validEntry (jsonOfSample s) = Nat.eqb (length (vector s)) (GRID_SIZE * GRID_SIZE)
  /\ Spec.structuralCheck (jsonOfSample s)
     = Nat.eqb (length (vector s)) (GRID_SIZE * GRID_SIZE).
Proof.
  assert (Hnum : forall v : list R, forallb Json.is_number (map JNum v) = true).
  { induction v as [| x v IH]; [reflexivity | exact IH]. }
  destruct s as [l v f t]. unfold validEntry, Spec.structuralCheck, jsonOfSample.
  cbn [label vector features ts].
  destruct f as [f |]; cbn [app Json.truthy Json.prop Json.lookup String.eqb Ascii.eqb
                             Bool.eqb Json.is_string Json.is_array_of_length andb];
    rewrite ?length_map, ?Hnum, ?andb_true_r; split; reflexivity.
Qed.

Lemma gridSized_append (ds : list Sample) (s : Sample) :
  gridSized ds -> length (vector s) = (GRID_SIZE * GRID_SIZE)%nat ->
  gridSized (appendSample ds s).
Proof.
  unfold gridSized. intros Hds Hs. rewrite appendSample_survivors.
  apply Forall_app. split; [| constructor; [exact Hs | constructor]].
  apply Forall_forall. intros x Hx.
  rewrite Forall_forall in Hds. apply Hds.
  rewrite <- (firstn_skipn (length ds + 1 - 2000) ds). apply in_or_app. right. exact Hx.
Qed.

Lemma gridSized_valid (ds : list Sample) :
  gridSized ds -> filter validEntry (map jsonOfSample ds) = map jsonOfSample ds.
Proof.
  intros H. apply filter_all. intros j Hj. apply in_map_iff in Hj.
  destruct Hj as (s & <- & Hs). rewrite (proj1 (jsonOfSample_checks s)).
  unfold gridSized in H. rewrite Forall_forall in H. rewrite (H s Hs).
  apply Nat.eqb_refl.
Qed.

(** What [saveDrawing] persists can be loaded back: if the stored vectors
    and the surface have 256 cells, then after a save the dataset still has
    256-cell vectors and at most 2000 entries, every persisted entry passes
    the filter of [loadDataset], and when [JSON.parse] reads the persisted
    text back as the value that was serialised, the loader returns the
    saved dataset entry for entry. *)
Theorem saveDrawing_loads_back :
  forall (stringify : json -> string) (parse : string -> option json)
         (now : Z) (rnd : R) (w : World),
    meaningful w ->
    gridSized (dataset w) ->
    length (canvas w) = (GRID_SIZE * GRID_SIZE)%nat ->
    let w' := exec (saveDrawing stringify now rnd) w in
    let stored := JArr (map jsonOfSample (dataset w')) in
    stringify stored <> ""%string ->
    parse (stringify stored) = Some stored ->
    gridSized (dataset w')
    /\ (length (dataset w') <= 2000)%nat
    /\ Forall (fun s => validEntry (jsonOfSample s) = true
                        /\ Spec.structuralCheck (jsonOfSample s) = true)
              (dataset w')
    /\ localStorage w' = Some (stringify stored)
    /\ loadDataset parse (localStorage w') = map jsonOfSample (dataset w').
Proof.
  intros stringify parse now rnd w Hm Hds Hc. cbv zeta.
  rewrite (saveDrawing_meaningful stringify now rnd w Hm). cbv zeta.
  cbn [dataset localStorage].
  set (s := mkSample (prompt w) (canvas w)
                     (Some (combineFeatures (canvas w) (strokes w))) now).
  intros Hne Hinv.
  assert (Hg : gridSized (appendSample (dataset w) s))
    by (apply gridSized_append; [exact Hds | exact Hc]).
  split; [exact Hg | split; [| split; [| split; [reflexivity |]]]].
  - unfold appendSample. rewrite slice_last_length. lia.
  - unfold gridSized in Hg. eapply Forall_impl; [| exact Hg]. cbn beta.
    intros x Hx. destruct (jsonOfSample_checks x) as [H1 H2].
    rewrite H1, H2, Hx. split; apply Nat.eqb_refl.
  - rewrite (loadDataset_parsed parse _ _ Hne Hinv).
    apply gridSized_valid. exact Hg.
Qed.

Lemma drawnWorld_sized :
  gridSized (dataset Ex.drawnWorld)
  /\ length (canvas Ex.drawnWorld) = (GRID_SIZE * GRID_SIZE)%nat.
Proof. split; [constructor | reflexivity]. Qed.

Lemma saveDrawing_loads_back_witness :
  let w' := exec (saveDrawing constStringify 0 0) Ex.drawnWorld in
  loadDataset (fun _ => Some (JArr (map jsonOfSample (dataset w')))) (localStorage w')
  = map jsonOfSample (dataset w').
Proof.
  cbv zeta.
  refine (proj2 (proj2 (proj2 (proj2
    (saveDrawing_loads_back constStringify
       (fun _ => Some (JArr (map jsonOfSample
                  (dataset (exec (saveDrawing constStringify 0 0) Ex.drawnWorld)))))
       0 0 Ex.drawnWorld drawnWorld_meaningful
       (proj1 drawnWorld_sized) (proj2 drawnWorld_sized) _ _))))).
  - unfold constStringify. discriminate.
  - reflexivity.
Defined.

(** ** One attempt after the other *)

Lemma taps_not_meaningful (grid : list R) (strokes : list Stroke) :
  Forall (fun stroke => (length stroke <= 1)%nat) strokes ->
  hasMeaningfulDrawing (drawingStats grid strokes) = false.
Proof.
  intros H.
  destruct (hasMeaningfulDrawing (drawingStats grid strokes)) eqn:E; [| reflexivity].
  apply hasMeaningfulDrawing_iff in E. destruct E as (_ & _ & E).
  unfold Spec.drawnStrokes in E. rewrite filter_none in E; [simpl in E; lia |].
  intros x Hx. rewrite Forall_forall in H. specialize (H x Hx).
  apply Nat.leb_gt. lia.
Qed.

Lemma faint_not_meaningful (grid : list R) (strokes : list Stroke) :
  Forall (fun value => value <= 0.18) grid ->
  hasMeaningfulDrawing (drawingStats grid strokes) = false.
Proof.
  intros H.
  destruct (hasMeaningfulDrawing (drawingStats grid strokes)) eqn:E; [| reflexivity].
  apply hasMeaningfulDrawing_iff in E. destruct E as (_ & E & _).
  unfold Spec.inkedCells in E. rewrite filter_none in E; [simpl in E; lia |].
  intros x Hx. rewrite Forall_forall in H. specialize (H x Hx).
  unfold JS.gtb, JS.ltb. destruct (Rlt_dec 0.18 x); [lra | reflexivity].
Qed.

Lemma cleared_not_meaningful (w : World) :
  strokes w = [] -> ~ meaningful w.
Proof.
  unfold meaningful. intros E. rewrite E, no_strokes_not_meaningful. discriminate.
Qed.

(** [saveDrawing] stores nothing unless something was drawn: when every
    recorded stroke is a single tap, or no cell of the surface is darker
    than 0.18 (a blank or erased surface), the dataset, the persisted store,
    the prompt and the attempt itself stay as they are and only the status
    message changes. *)
Theorem saveDrawing_needs_drawing :
  forall (stringify : json -> string) (now : Z) (rnd : R) (w : World),
    Forall (fun stroke => (length stroke <= 1)%nat) (strokes w)
    \/ Forall (fun value => value <= 0.18) (canvas w) ->
    exec (saveDrawing stringify now rnd) w =
    mkWorld (dataset w) (prompt w) (guess w) (confidence w)
            "Nope — draw first. Blank/erased canvas won't be saved to training."
            (isDrawing w) (strokes w) (activeStroke w) (canvas w) (localStorage w).
Proof.
  intros stringify now rnd w H. apply saveDrawing_blank.
  unfold meaningful. destruct H as [H | H].
  - rewrite (taps_not_meaningful _ _ H). discriminate.
  - rewrite (faint_not_meaningful _ _ H). discriminate.
Qed.

Lemma saveDrawing_needs_drawing_witness :
  dataset (exec (saveDrawing constStringify 0 0) Ex.blankWorld) = dataset Ex.blankWorld.
Proof.
  rewrite (saveDrawing_needs_drawing constStringify 0 0 Ex.blankWorld
             (or_introl (Forall_nil _))).
  reflexivity.
Defined.

(** A drawing is saved once: after a successful [saveDrawing] the new
    sample, labelled with the prompt that was shown, is the last entry of
    the dataset, the next prompt is one of the vocabulary, the surface is
    cleared, and pressing save or asking for a guess again without drawing
    stores nothing more and answers "unknown". *)
Theorem saveDrawing_once :
  forall (stringify : json -> string) (now : Z) (rnd : R) (w : World),
    meaningful w ->
    0 <= rnd < 1 ->
    let w' := exec (saveDrawing stringify now rnd) w in
    (exists kept,
        dataset w' = kept ++ [mkSample (prompt w) (canvas w)
                                (Some (combineFeatures (canvas w) (strokes w))) now]
        /\ length (dataset w') = Nat.min 2000 (length (dataset w) + 1))
    /\ In (prompt w') OBJECTS
    /\ ~ meaningful w'
    /\ (forall now' rnd',
           let w'' := exec (saveDrawing stringify now' rnd') w' in
           dataset w'' = dataset w' /\ localStorage w'' = localStorage w'
           /\ prompt w'' = prompt w')
    /\ guess (exec guessDrawing w') = "unknown"%string
    /\ confidence (exec guessDrawing w') = 0%Z.
Proof.
  intros stringify now rnd w Hm Hrnd. cbv zeta.
  rewrite (saveDrawing_meaningful stringify now rnd w Hm). cbv zeta.
  match goal with |- context [mkWorld ?a ?b ?c ?d ?e ?f ?g ?h ?i ?j] =>
    set (w1 := mkWorld a b c d e f g h i j) end.
  assert (Hn : ~ meaningful w1) by (apply cleared_not_meaningful; reflexivity).
  split; [| split; [| split; [| split]]].
  - eexists. split.
    + unfold w1. cbn [dataset]. apply appendSample_survivors.
    + unfold w1. cbn [dataset]. unfold appendSample.
      rewrite slice_last_length, length_app. reflexivity.
  - unfold w1. cbn [prompt]. unfold randomPrompt.
    apply nth_In. apply randomPrompt_index. exact Hrnd.
  - exact Hn.
  - intros now' rnd'. cbv zeta. rewrite (saveDrawing_blank _ _ _ _ Hn).
    repeat split.
  - rewrite (guessDrawing_blank _ Hn). split; reflexivity.
Qed.

Lemma saveDrawing_once_witness :
  In (prompt (exec (saveDrawing constStringify 0 0) Ex.drawnWorld)) OBJECTS.
Proof.
  assert (H : 0 <= 0 < 1) by lra.
  exact (proj1 (proj2 (saveDrawing_once constStringify 0 0 Ex.drawnWorld
                         drawnWorld_meaningful H))).
Defined.

(** [clearCanvas] starts a fresh attempt and touches nothing else: the
    dataset, the prompt and the persisted store are kept, the surface is
    the blank 16x16 grid with no stroke, and until something is drawn a
    guess answers "unknown" and a save stores nothing. *)
Theorem clearCanvas_fresh_attempt :
  forall (stringify : json -> string) (w : World),
    let w' := exec clearCanvas w in
    dataset w' = dataset w /\ prompt w' = prompt w
    /\ localStorage w' = localStorage w
    /\ strokes w' = [] /\ activeStroke w' = false
    /\ length (canvas w') = (GRID_SIZE * GRID_SIZE)%nat
    /\ Spec.sum (canvas w') = 0
    /\ guess w' = "unknown"%string /\ confidence w' = 0%Z
    /\ ~ meaningful w'
    /\ guess (exec guessDrawing w') = "unknown"%string
    /\ (forall now rnd,
           let w'' := exec (saveDrawing stringify now rnd) w' in
           dataset w'' = dataset w /\ localStorage w'' = localStorage w
           /\ prompt w'' = prompt w).
Proof.
  intros stringify w. cbv zeta.
  set (w1 := exec clearCanvas w).
  assert (Hn : ~ meaningful w1) by (apply cleared_not_meaningful; reflexivity).
  repeat match goal with |- _ /\ _ => split end; try reflexivity.
  - change (canvas w1) with (repeat 0 (GRID_SIZE * GRID_SIZE)).
    rewrite sum_repeat. lra.
  - exact Hn.
  - rewrite (guessDrawing_blank _ Hn). reflexivity.
  - intros now rnd. cbv zeta. rewrite (saveDrawing_blank _ _ _ _ Hn).
    repeat split.
Qed.

(** ** Pointer events *)

Lemma exec_seq {A B : Type} (a : M A) (b : M B) (w : World) :
  exec (a ;; b) w = exec b (exec a w).
Proof. unfold exec, bind. destruct (a w). reflexivity. Qed.

Lemma pushToLast_snoc (point : Point) (before : list Stroke) (active : Stroke) :
  pushToLast point (before ++ [active]) = before ++ [active ++ [point]].
Proof.
  unfold pushToLast. rewrite rev_app_distr. cbn [rev app].
  rewrite rev_involutive. reflexivity.
Qed.

Lemma draw_active (point : Point) (painted : list R) (w : World)
      (before : list Stroke) (active : Stroke) :
  isDrawing w = true -> activeStroke w = true -> strokes w = before ++ [active] ->
  exec (draw point painted) w =
  mkWorld (dataset w) (prompt w) (guess w) (confidence w) (statusMessage w)
          true (before ++ [active ++ [point]]) true painted (localStorage w).
Proof.
  destruct w as [d p g c m dr st ac cv ls].
  cbn [isDrawing activeStroke strokes dataset prompt guess confidence statusMessage
       localStorage].
  intros -> -> ->.
  unfold exec, draw, bind, read, ret, setCanvas, setStrokes.
  cbn [negb snd fst isDrawing activeStroke strokes dataset prompt guess confidence
       statusMessage localStorage canvas].
  rewrite pushToLast_snoc. reflexivity.
Qed.

Lemma last_cons {A : Type} (l : list A) :
  forall x d : A, last (x :: l) d = last l x.
Proof.
  induction l as [| y l IH]; intros x d.
  - reflexivity.
  - change (last (x :: y :: l) d) with (last (y :: l) d).
    rewrite (IH y d), (IH y x). reflexivity.
Qed.

Lemma drawAll_active (moves : list (Point * list R)) :
  forall (w : World) (before : list Stroke) (active : Stroke),
    isDrawing w = true -> activeStroke w = true -> strokes w = before ++ [active] ->
    exec (drawAll moves) w =
    mkWorld (dataset w) (prompt w) (guess w) (confidence w) (statusMessage w)
            true (before ++ [active ++ map fst moves]) true
            (last (map snd moves) (canvas w)) (localStorage w).
Proof.
  induction moves as [| [point painted] moves IH]; intros w before active Hd Ha Hs.
  - destruct w as [d p g c m dr st ac cv ls].
    cbn [isDrawing activeStroke strokes] in Hd, Ha, Hs. subst dr ac st.
    cbn [drawAll map last]. rewrite app_nil_r. reflexivity.
  - cbn [drawAll]. rewrite exec_seq.
    rewrite (draw_active point painted w before active Hd Ha Hs).
    rewrite (IH _ before (active ++ [point])); try reflexivity.
    cbn [dataset prompt guess confidence statusMessage canvas localStorage map fst snd].
    rewrite <- app_assoc. cbn [app].
    f_equal. symmetry. apply last_cons.
Qed.

Lemma last_length_two (point : Point) (points : list Point) :
  points <> [] -> Nat.leb 2 (length (point :: points)) = true.
Proof. destruct points; [congruence | reflexivity]. Qed.

Lemma guessDrawing_refs (w : World) :
  let w' := exec guessDrawing w in
  strokes w' = strokes w /\ isDrawing w' = isDrawing w
  /\ activeStroke w' = activeStroke w /\ canvas w' = canvas w.
Proof.
  destruct (meaningful_dec w) as [Hm | Hm].
  - destruct (dataset w) as [| s d] eqn:D.
    + cbv zeta. rewrite (guessDrawing_untrained w Hm D). simpl. tauto.
    + assert (Hne : dataset w <> []) by (rewrite D; discriminate).
      cbv zeta. rewrite (guessDrawing_trained w Hm Hne). simpl. tauto.
  - cbv zeta. rewrite (guessDrawing_blank w Hm). simpl. tauto.
Qed.

(** Pressing, moving and releasing the pointer records exactly one new
    stroke: the point of the press followed by the points of the moves, in
    order, after the strokes already there.  The surface is what the last
    move painted, both refs are reset, and nothing else changes.  With at
    least one move the new stroke has two points or more, so that the
    attempt holds a drawn stroke. *)
Theorem gesture_records_stroke :
  forall (start : Point) (moves : list (Point * list R)) (w : World),
    let w' := exec (startDrawing start ;; drawAll moves ;; stopDrawing) w in
    strokes w' = strokes w ++ [start :: map fst moves]
    /\ canvas w' = last (map snd moves) (canvas w)
    /\ isDrawing w' = false /\ activeStroke w' = false
    /\ dataset w' = dataset w /\ prompt w' = prompt w
    /\ guess w' = guess w /\ confidence w' = confidence w
    /\ localStorage w' = localStorage w
    /\ (moves <> [] ->
        (2 <= length (start :: map fst moves))%nat
        /\ (0 < drawnStrokeCount (drawingStats (canvas w') (strokes w')))%nat).
Proof.
  intros start moves w. cbv zeta.
  rewrite exec_seq, exec_seq.
  set (w1 := exec (startDrawing start) w).
  assert (E1 : w1 = mkWorld (dataset w) (prompt w) (guess w) (confidence w)
                            (statusMessage w) true (strokes w ++ [[start]]) true
                            (canvas w) (localStorage w)) by reflexivity.
  rewrite (drawAll_active moves w1 (strokes w) [start]);
    [| rewrite E1; reflexivity ..].
  rewrite E1.
  cbn [dataset prompt guess confidence statusMessage canvas localStorage app].
  unfold exec, stopDrawing, bind, read, ret, setIsDrawing, setActiveStroke.
  cbn [snd negb isDrawing strokes canvas activeStroke dataset prompt guess confidence
       localStorage].
  repeat match goal with |- _ /\ _ => split end; try reflexivity.
  intros Hne. cbn [canvas strokes].
  assert (Hm : map fst moves <> []) by (destruct moves; [congruence | discriminate]).
  split.
  - destruct (map fst moves); [congruence | cbn [length]; lia].
  - destruct (drawingStats_fields (last (map snd moves) (canvas w))
                (strokes w ++ [start :: map fst moves])) as (_ & _ & _ & Hd & _).
    rewrite Hd. unfold Spec.drawnStrokes. rewrite filter_app, length_app. cbn [filter].
    rewrite last_length_two by exact Hm. cbn [length]. lia.
Qed.

(** A tap is no drawing: pressing and releasing without a move adds a
    one-point stroke, and while every recorded stroke is such a tap the
    guess on release is "unknown" with confidence 0, whatever the surface
    and the dataset hold. *)
Theorem tap_is_no_drawing :
  forall (start : Point) (w : World),
    Forall (fun stroke => (length stroke <= 1)%nat) (strokes w) ->
    let w' := exec (startDrawing start ;; stopDrawingAndGuess) w in
    strokes w' = strokes w ++ [[start]]
    /\ guess w' = "unknown"%string /\ confidence w' = 0%Z
    /\ dataset w' = dataset w /\ localStorage w' = localStorage w.
Proof.
  intros start w H. cbv zeta.
  unfold stopDrawingAndGuess. rewrite exec_seq, exec_seq.
  set (w2 := exec stopDrawing (exec (startDrawing start) w)).
  assert (E2 : w2 = mkWorld (dataset w) (prompt w) (guess w) (confidence w)
                            (statusMessage w) false (strokes w ++ [[start]]) false
                            (canvas w) (localStorage w)) by reflexivity.
  assert (Hn : ~ meaningful w2).
  { unfold meaningful. rewrite E2. cbn [canvas strokes].
    rewrite taps_not_meaningful; [discriminate |].
    apply Forall_app. split; [exact H |]. constructor; [cbn [length]; lia | constructor]. }
  rewrite (guessDrawing_blank _ Hn). rewrite E2. repeat split.
Qed.

Lemma tap_is_no_drawing_witness :
  guess (exec (startDrawing (mkPoint 0 0) ;; stopDrawingAndGuess) Ex.blankWorld)
  = "unknown"%string.
Proof.
  exact (proj1 (proj2 (tap_is_no_drawing (mkPoint 0 0) Ex.blankWorld (Forall_nil _)))).
Defined.

(** Without a press nothing is drawn: while the pointer is up, moves are
    ignored (the surface and the strokes stay as they are), a release does
    nothing, and a release followed by the guess is the guess alone. *)
Theorem idle_pointer_ignored :
  forall (moves : list (Point * list R)) (w : World),
    isDrawing w = false ->
    exec (drawAll moves) w = w
    /\ exec stopDrawing w = w
    /\ exec stopDrawingAndGuess w = exec guessDrawing w.
Proof.
  intros moves w H.
  assert (Hs : exec stopDrawing w = w).
  { unfold exec, stopDrawing, bind, read, ret. cbv beta iota zeta. rewrite H.
    reflexivity. }
  split; [| split].
  - induction moves as [| [point painted] moves IH].
    + reflexivity.
    + cbn [drawAll]. rewrite exec_seq.
      assert (Hd : exec (draw point painted) w = w).
      { unfold exec, draw, bind, read, ret. cbv beta iota zeta. rewrite H.
        reflexivity. }
      rewrite Hd. exact IH.
  - exact Hs.
  - unfold stopDrawingAndGuess. rewrite exec_seq, Hs. reflexivity.
Qed.

Lemma idle_pointer_ignored_witness :
  exec (drawAll [(mkPoint 1 1, Ex.gridV)]) Ex.blankWorld = Ex.blankWorld.
Proof.
  exact (proj1 (idle_pointer_ignored [(mkPoint 1 1, Ex.gridV)] Ex.blankWorld eq_refl)).
Defined.

(** The refs stay consistent: if an active stroke implies a recorded stroke
    and a pressed pointer, the same holds after every handler; and a move
    with an active stroke appends its point to the last recorded stroke,
    which is the aliasing of [activeStrokeRef.current] and the array pushed
    on [strokesRef.current]. *)
Theorem refsConsistent_preserved :
  forall (stringify : json -> string) (w : World),
    refsConsistent w ->
    (forall point, refsConsistent (exec (startDrawing point) w))
    /\ (forall point painted, refsConsistent (exec (draw point painted) w))
    /\ refsConsistent (exec stopDrawing w)
    /\ refsConsistent (exec clearCanvas w)
    /\ refsConsistent (exec guessDrawing w)
    /\ refsConsistent (exec stopDrawingAndGuess w)
    /\ (forall now rnd, refsConsistent (exec (saveDrawing stringify now rnd) w))
    /\ (activeStroke w = true ->
        forall point painted,
        exists before active,
          strokes w = before ++ [active]
          /\ strokes (exec (draw point painted) w) = before ++ [active ++ [point]]).
Proof.
  intros stringify w [H1 H2].
  assert (Hstop : forall u, refsConsistent u -> refsConsistent (exec stopDrawing u)).
  { intros u [U1 U2]. unfold exec, stopDrawing, bind, read, ret.
    cbv beta iota zeta. destruct (isDrawing u) eqn:D; cbn [negb snd].
    - split; cbn; discriminate.
    - split; [exact U1 | rewrite D; exact U2]. }
  assert (Hguess : forall u, refsConsistent u -> refsConsistent (exec guessDrawing u)).
  { intros u [U1 U2]. destruct (guessDrawing_refs u) as (E1 & E2 & E3 & _).
    unfold refsConsistent. rewrite E1, E2, E3. split; assumption. }
  assert (Hlast : activeStroke w = true -> exists before active,
                    strokes w = before ++ [active]).
  { intros Ha. specialize (H1 Ha).
    destruct (exists_last H1) as (before & active & E). eauto. }
  repeat match goal with |- _ /\ _ => split end.
  - intros point. split.
    + cbn. intros _ E. apply app_eq_nil in E. destruct E; discriminate.
    + intros _. reflexivity.
  - intros point painted.
    destruct (isDrawing w) eqn:D.
    + destruct (activeStroke w) eqn:A.
      * destruct (Hlast eq_refl) as (before & active & E).
        rewrite (draw_active point painted w before active D A E).
        split; cbn; [| reflexivity].
        intros _ F. apply app_eq_nil in F. destruct F; discriminate.
      * assert (E : exec (draw point painted) w =
                    mkWorld (dataset w) (prompt w) (guess w) (confidence w)
                            (statusMessage w) true (strokes w)
                            false painted (localStorage w)).
        { unfold exec, draw, bind, read, ret. cbv beta iota zeta. rewrite D.
          cbn [negb setCanvas snd fst activeStroke]. rewrite A, D. reflexivity. }
        rewrite E. split; cbn; discriminate.
    + assert (E : exec (draw point painted) w = w).
      { unfold exec, draw, bind, read, ret. cbv beta iota zeta. rewrite D.
        reflexivity. }
      rewrite E. split; [exact H1 | rewrite D; exact H2].
  - apply Hstop. split; assumption.
  - split; cbn; discriminate.
  - apply Hguess. split; assumption.
  - unfold stopDrawingAndGuess. rewrite exec_seq. apply Hguess, Hstop.
    split; assumption.
  - intros now rnd. destruct (meaningful_dec w) as [Hm | Hm].
    + rewrite (saveDrawing_meaningful _ _ _ _ Hm). split; cbn; discriminate.
    + rewrite (saveDrawing_blank _ _ _ _ Hm). split; assumption.
  - intros Ha point painted. destruct (Hlast Ha) as (before & active & E).
    exists before, active. split; [exact E |].
    rewrite (draw_active point painted w before active (H2 Ha) Ha E). reflexivity.
Qed.

Lemma refsConsistent_preserved_witness :
  refsConsistent (exec (startDrawing (mkPoint 0 0)) Ex.blankWorld).
Proof.
  assert (H : refsConsistent Ex.blankWorld) by (split; discriminate).
  exact (proj1 (refsConsistent_preserved (fun _ => EmptyString) Ex.blankWorld H)
               (mkPoint 0 0)).
Defined.

(** [getPoint] reads the first touch, when there is one, in place of the
    mouse position, and scales the offset from the left and top edges of
    the element by [500 / width] and [500 / height]: the edges themselves
    map to 0, a pointer to their right and below never gets a negative
    coordinate, and a pointer further right or further down never gets a
    smaller one. *)
Theorem getPoint_on_surface :
  forall (rect : Rect) (event : PointerEvent),
    0 < rect_width rect -> 0 < rect_height rect ->
    let p := getPoint rect event in
    let x := fst (pointerPosition event) in
    let y := snd (pointerPosition event) in
    px p = ((x - rect_left rect) * CANVAS_SIZE) / rect_width rect
    /\ py p = ((y - rect_top rect) * CANVAS_SIZE) / rect_height rect
    /\ (rect_left rect <= x -> 0 <= px p)
    /\ (rect_top rect <= y -> 0 <= py p)
    /\ (x = rect_left rect -> px p = 0)
    /\ (y = rect_top rect -> py p = 0)
    /\ (forall event',
          (x <= fst (pointerPosition event') -> px p <= px (getPoint rect event'))
          /\ (y <= snd (pointerPosition event') -> py p <= py (getPoint rect event'))).
Proof.
  intros rect event Hw Hh. cbv zeta.
  assert (E : forall e, getPoint rect e =
              mkPoint (((fst (pointerPosition e) - rect_left rect) * CANVAS_SIZE)
                       / rect_width rect)
                      (((snd (pointerPosition e) - rect_top rect) * CANVAS_SIZE)
                       / rect_height rect)).
  { intros e. unfold getPoint, pointerPosition.
    destruct (touches e) as [| [tx ty] rest]; reflexivity. }
  rewrite E. cbn [px py]. unfold CANVAS_SIZE.
  set (x := fst (pointerPosition event)). set (y := snd (pointerPosition event)).
  assert (Hmono : forall c c' lo size, 0 < size -> c <= c' ->
                    ((c - lo) * 500) / size <= ((c' - lo) * 500) / size).
  { intros c c' lo size Hs Hc. unfold Rdiv.
    apply Rmult_le_compat_r; [left; apply Rinv_0_lt_compat; exact Hs | lra]. }
  assert (Hzero : forall lo size, ((lo - lo) * 500) / size = 0).
  { intros lo size. unfold Rdiv. replace (lo - lo) with 0 by ring. ring. }
  repeat match goal with |- _ /\ _ => split end; try reflexivity.
  - intros H. rewrite <- (Hzero (rect_left rect) (rect_width rect)).
    apply Hmono; assumption.
  - intros H. rewrite <- (Hzero (rect_top rect) (rect_height rect)).
    apply Hmono; assumption.
  - intros ->. apply Hzero.
  - intros ->. apply Hzero.
  - intros event'. rewrite (E event'). cbn [px py].
    split; apply Hmono; assumption.
Qed.

Lemma getPoint_on_surface_witness :
  getPoint (mkRect 10 20 250 250) (mkPointerEvent [(10, 20)] 99 99) = mkPoint 0 0.
Proof.
  assert (Hw : 0 < rect_width (mkRect 10 20 250 250)) by (cbn; lra).
  assert (Hh : 0 < rect_height (mkRect 10 20 250 250)) by (cbn; lra).
  destruct (getPoint_on_surface (mkRect 10 20 250 250) (mkPointerEvent [(10, 20)] 99 99)
              Hw Hh) as (_ & _ & _ & _ & Hx & Hy & _).
  destruct (getPoint (mkRect 10 20 250 250) (mkPointerEvent [(10, 20)] 99 99)) as [a b].
  cbn [px py] in Hx, Hy. rewrite (Hx eq_refl), (Hy eq_refl). reflexivity.
Defined.

(** ** The sidebar *)

Lemma smap_get_map {V W : Type} (f : V -> W) (k : string) (m : SMap.t V) :
  SMap.get k (map (fun e => (fst e, f (snd e))) m) = option_map f (SMap.get k m).
Proof.
  induction m as [| [k' v] m IH]; cbn [map SMap.get fst snd].
  - reflexivity.
  - destruct (String.eqb k' k); [reflexivity | exact IH].
Qed.

Lemma smap_set_map {V W : Type} (f : V -> W) (k : string) (v : V) (m : SMap.t V) :
  SMap.set k (f v) (map (fun e => (fst e, f (snd e))) m)
  = map (fun e => (fst e, f (snd e))) (SMap.set k v m).
Proof.
  induction m as [| [k' v'] m IH]; cbn [map SMap.set fst snd].
  - reflexivity.
  - destruct (String.eqb k' k); cbn [map fst snd]; [reflexivity | rewrite IH; reflexivity].
Qed.

Lemma smap_set_set {V : Type} (k : string) (v v' : V) (m : SMap.t V) :
  SMap.set k v (SMap.set k v' m) = SMap.set k v m.
Proof.
  induction m as [| [k0 v0] m IH]; cbn [SMap.set].
  - rewrite String.eqb_refl. reflexivity.
  - destruct (String.eqb k0 k) eqn:E; cbn [SMap.set]; rewrite E;
      [reflexivity | rewrite IH; reflexivity].
Qed.

Lemma promptCounts_step (m : SMap.t Bucket) (item : Sample) :
  map (fun e => (fst e, count (snd e))) (addSample m item)
  = SMap.set (label item)
      (countOr0 (SMap.get (label item) (map (fun e => (fst e, count (snd e))) m)) + 1)%nat
      (map (fun e => (fst e, count (snd e))) m).
Proof.
  rewrite smap_get_map. unfold addSample, SMap.has.
  destruct (SMap.get (label item) m) as [b |] eqn:E; cbn [negb option_map countOr0].
  - rewrite E. rewrite <- smap_set_map. reflexivity.
  - rewrite smap_get_set_same, smap_set_set. rewrite <- smap_set_map. reflexivity.
Qed.

Lemma promptCounts_buckets (ds : list Sample) :
  promptCounts ds
  = map (fun e => (fst e, count (snd e))) (fold_left addSample ds []).
Proof.
  unfold promptCounts.
  change (@nil (string * nat))
    with (map (fun e : string * Bucket => (fst e, count (snd e))) []) at 1.
  generalize (@nil (string * Bucket)) as m.
  induction ds as [| s ds IH]; intros m; cbn [fold_left].
  - reflexivity.
  - rewrite <- promptCounts_step. apply IH.
Qed.

Lemma count_insert_descending (x : string * nat) (l : list (string * nat)) :
  StronglySorted (fun a b : string * nat => (snd b <= snd a)%nat) l ->
  StronglySorted (fun a b : string * nat => (snd b <= snd a)%nat)
    (JS.sort_insert (fun a b : string * nat => INR (snd b) - INR (snd a)) x l).
Proof.
  induction 1 as [| y l Hs IH Hall]; cbn [JS.sort_insert].
  - repeat constructor.
  - destruct (Rle_dec (INR (snd y) - INR (snd x)) 0) as [Hle | Hgt].
    + assert (Hyx : (snd y <= snd x)%nat) by (apply INR_le; lra).
      constructor; [constructor; assumption |].
      constructor; [exact Hyx |].
      eapply Forall_impl; [| exact Hall]. cbn beta. intros a Ha. lia.
    + assert (Hxy : (snd x <= snd y)%nat).
      { destruct (Nat.le_gt_cases (snd x) (snd y)) as [H | H]; [exact H |].
        exfalso. apply Hgt. apply lt_INR in H. lra. }
      constructor; [exact IH |].
      apply (Permutation_Forall (Permutation_sym (sort_insert_perm _ x l))).
      constructor; [exact Hxy | exact Hall].
Qed.

Lemma count_insert_stable (c : nat) (x : string * nat) (l : list (string * nat)) :
  filter (fun e : string * nat => Nat.eqb (snd e) c)
         (JS.sort_insert (fun a b : string * nat => INR (snd b) - INR (snd a)) x l)
  = filter (fun e : string * nat => Nat.eqb (snd e) c) (x :: l).
Proof.
  induction l as [| y l IH]; cbn [JS.sort_insert].
  - reflexivity.
  - destruct (Rle_dec (INR (snd y) - INR (snd x)) 0) as [Hle | Hgt]; [reflexivity |].
    assert (Hne : snd x <> snd y) by (intros E; apply Hgt; rewrite E; lra).
    cbn [filter] in IH |- *.
    destruct (Nat.eqb_spec (snd y) c) as [Ey | Ey].
    + rewrite IH. destruct (Nat.eqb_spec (snd x) c) as [Ex | Ex]; [lia | reflexivity].
    + rewrite IH. reflexivity.
Qed.

(** The sidebar agrees with the classifier's prototypes: [promptCounts]
    lists the labels and counts of [buildPrototypes] in the same order, so
    "Objects learned" is the number of prototypes, each count is the number
    of samples of its label and the counts add up to "Total drawings".  The
    "Top trained objects" are the first eight of these entries sorted by
    falling count, entries of equal count keeping their order. *)
Theorem promptCounts_match_prototypes :
  forall ds : list Sample,
    promptLabelled ds ->
    promptCounts ds
    = map (fun p => (proto_label p, proto_count p)) (buildPrototypes ds)
    /\ map fst (promptCounts ds) = firstOccurrences (map label ds)
    /\ (forall lbl, countOr0 (SMap.get lbl (promptCounts ds))
                    = length (samplesOf lbl ds))
    /\ list_sum (map snd (promptCounts ds)) = length ds
    /\ exists sorted,
         topTrained ds = firstn 8 sorted
         /\ Permutation sorted (promptCounts ds)
         /\ StronglySorted (fun a b => (snd b <= snd a)%nat) sorted
         /\ (forall c, filter (fun e => Nat.eqb (snd e) c) sorted
                       = filter (fun e => Nat.eqb (snd e) c) (promptCounts ds)).
Proof.
  intros ds _.
  split; [| split; [| split; [| split]]].
  - rewrite promptCounts_buckets. unfold buildPrototypes. rewrite map_map.
    apply map_ext. intros [k b]. reflexivity.
  - rewrite promptCounts_buckets, map_map. cbn [fst].
    apply (buckets_keys_order ds []).
  - intros lbl. rewrite promptCounts_buckets, smap_get_map, bucket_of_label.
    destruct (samplesOf lbl ds); reflexivity.
  - rewrite promptCounts_buckets, map_map. cbn [snd].
    apply (buckets_count_total ds []).
  - exists (JS.sort (fun a b => INR (snd b) - INR (snd a)) (promptCounts ds)).
    split; [reflexivity | split; [apply sort_perm | split]].
    + unfold JS.sort. induction (promptCounts ds) as [| x l IH]; cbn [fold_right].
      * constructor.
      * apply count_insert_descending, IH.
    + intros c. unfold JS.sort.
      induction (promptCounts ds) as [| x l IH]; cbn [fold_right].
      * reflexivity.
      * rewrite count_insert_stable. cbn [filter]. rewrite IH. reflexivity.
Qed.

Lemma promptCounts_match_prototypes_witness :
  promptCounts [Ex.catSample; Ex.dogSample; Ex.catSample]
  = map (fun p => (proto_label p, proto_count p))
        (buildPrototypes [Ex.catSample; Ex.dogSample; Ex.catSample]).
Proof.
  assert (H : promptLabelled [Ex.catSample; Ex.dogSample; Ex.catSample]).
  { unfold promptLabelled, OBJECTS.
    repeat constructor; cbn [Ex.catSample Ex.dogSample label In]; tauto. }
  exact (proj1 (promptCounts_match_prototypes _ H)).
Defined.

(** ** Drawing again what was saved *)

Lemma dot_self_zero (v : list R) : Spec.dot v v = 0 -> Spec.sum v = 0.
Proof.
  induction v as [| x v IH]; intros H.
  - reflexivity.
  - pose proof (dot_self_nonneg v) as Hv.
    unfold Spec.dot in H, Hv, IH. cbn [combine map Spec.sum fold_right fst snd] in H.
    fold (Spec.sum (map (fun p : R * R => fst p * snd p) (combine v v))) in H.
    pose proof (Rle_0_sqr x) as Hx. unfold Rsqr in Hx.
    assert (Hx0 : x * x = 0) by lra.
    assert (Hv0 : Spec.sum (map (fun p : R * R => fst p * snd p) (combine v v)) = 0)
      by lra.
    apply Rmult_integral in Hx0.
    cbn [Spec.sum fold_right]. fold (Spec.sum v). rewrite (IH Hv0).
    destruct Hx0; lra.
Qed.

Lemma meaningful_norm (w : World) : meaningful w -> Spec.norm (canvas w) <> 0.
Proof.
  unfold meaningful. rewrite hasMeaningfulDrawing_iff. intros (Hsum & _) Hn.
  unfold Spec.norm in Hn. apply sqrt_eq_0 in Hn; [| apply dot_self_nonneg].
  apply dot_self_zero in Hn. lra.
Qed.

Lemma scoreExample_nonneg (vec : list R) (feats : Features) (item : Sample) :
  length (vector item) = length vec -> 0 <= snd (scoreExample vec feats item).
Proof.
  intros Hlen. unfold scoreExample. cbn [snd].
  assert (H1 : 0 <= distance vec (vector item) / JS.Math_sqrt (INR (length vec))).
  { rewrite (distance_euclidean vec (vector item) (eq_sym Hlen)).
    unfold Rdiv, JS.Math_sqrt. apply Rmult_le_pos; [apply sqrt_pos |].
    destruct (Req_dec_T (sqrt (INR (length vec))) 0) as [E | E].
    - rewrite E, Rinv_0. lra.
    - left. apply Rinv_0_lt_compat. pose proof (sqrt_pos (INR (length vec))). lra. }
  pose proof (cosineDistance_bounds vec (vector item) (eq_sym Hlen)) as H2.
  assert (H3 : 0 <= featureDistance feats (featuresOf item)) by apply sqrt_pos.
  lra.
Qed.

(** Drawing again exactly what was saved finds it: the sample [saveDrawing]
    stored carries the prompt that was shown, its pixel distance and its
    feature distance to the drawing it was made of are 0, and its vote has
    the weight 20, the largest a neighbour can have. *)
Theorem saved_drawing_full_vote :
  forall (stringify : json -> string) (now : Z) (rnd : R) (w : World),
    meaningful w ->
    let vec := canvas w in
    let feats := combineFeatures vec (strokes w) in
    let w' := exec (saveDrawing stringify now rnd) w in
    exists kept s,
      dataset w' = kept ++ [s]
      /\ label s = prompt w
      /\ distance vec (vector s) = 0
      /\ featureDistance feats (featuresOf s) = 0
      /\ 1 / JS.Math_max (snd (scoreExample vec feats s)) 0.05 = 20.
Proof.
  intros stringify now rnd w Hm. cbv zeta.
  rewrite (saveDrawing_meaningful stringify now rnd w Hm). cbv zeta. cbn [dataset].
  assert (Hzero : scoreExample (canvas w) (combineFeatures (canvas w) (strokes w))
                    (mkSample (prompt w) (canvas w)
                       (Some (combineFeatures (canvas w) (strokes w))) now)
                  = (prompt w, 0)).
  { unfold scoreExample, featuresOf. cbn [label vector features].
    rewrite distance_self, featureDistance_self.
    rewrite (proj1 (cosineDistance_self (canvas w)) (meaningful_norm w Hm)).
    f_equal. unfold Rdiv. ring. }
  eexists. eexists. split; [apply appendSample_survivors |].
  split; [reflexivity |]. cbn [vector].
  split; [apply distance_self |].
  split; [unfold featuresOf; cbn [features]; apply featureDistance_self |].
  rewrite Hzero. cbn [snd].
  unfold JS.Math_max. rewrite Rmax_right by lra. lra.
Qed.

Lemma saved_drawing_full_vote_witness :
  exists kept s,
    dataset (exec (saveDrawing constStringify 0 0) Ex.drawnWorld) = kept ++ [s]
    /\ label s = prompt Ex.drawnWorld
    /\ 1 / JS.Math_max
            (snd (scoreExample (canvas Ex.drawnWorld)
                    (combineFeatures (canvas Ex.drawnWorld) (strokes Ex.drawnWorld)) s))
            0.05 = 20.
Proof.
  destruct (saved_drawing_full_vote constStringify 0 0 Ex.drawnWorld
              drawnWorld_meaningful) as (kept & s & H1 & H2 & _ & _ & H5).
  exists kept, s. split; [exact H1 | split; [exact H2 | exact H5]].
Defined.

(** ** The earlier variant: nearest neighbour, no gate *)

Lemma earlier_score_nonneg (vec : list R) (feats : Features) (item : Sample) :
  0 <= snd (Earlier.scoreExample vec feats item).
Proof.
  unfold Earlier.scoreExample. cbn [snd].
  assert (H1 : 0 <= distance vec (vector item)) by apply sqrt_pos.
  assert (H2 : 0 <= featureDistance feats (featuresOf item)) by apply sqrt_pos.
  lra.
Qed.

Lemma nearer_some (vec : list R) (feats : Features) (l0 : string) (d0 : R) (s : Sample) :
  Earlier.nearer vec feats (Earlier.mkBest l0 (Some d0)) s
  = if Rlt_dec (snd (Earlier.scoreExample vec feats s)) d0
    then Earlier.mkBest (label s) (Some (snd (Earlier.scoreExample vec feats s)))
    else Earlier.mkBest l0 (Some d0).
Proof.
  unfold Earlier.nearer, JS.ltb. cbn [Earlier.best_dist].
  destruct (Rlt_dec (snd (Earlier.scoreExample vec feats s)) d0); reflexivity.
Qed.

Lemma nearer_fold (vec : list R) (feats : Features) (ds : list Sample) :
  forall (l0 : string) (d0 : R),
    let score := fun item => snd (Earlier.scoreExample vec feats item) in
    let best := fold_left (Earlier.nearer vec feats) ds (Earlier.mkBest l0 (Some d0)) in
    (best = Earlier.mkBest l0 (Some d0) /\ forall other, In other ds -> d0 <= score other)
    \/ (exists before item after,
           ds = before ++ item :: after
           /\ best = Earlier.mkBest (label item) (Some (score item))
           /\ score item < d0
           /\ (forall other, In other before -> score item < score other)
           /\ (forall other, In other after -> score item <= score other)).
Proof.
  induction ds as [| s ds IH]; intros l0 d0; cbv zeta in *; cbn [fold_left].
  - left. split; [reflexivity | intros other []].
  - rewrite nearer_some.
    destruct (Rlt_dec (snd (Earlier.scoreExample vec feats s)) d0) as [Hlt | Hge].
    + right.
      destruct (IH (label s) (snd (Earlier.scoreExample vec feats s)))
        as [[E Hall] | (before & item & after & E & Hb & Hi & Hbef & Haft)].
      * exists [], s, ds. split; [reflexivity |]. split; [exact E |].
        split; [exact Hlt |]. split; [intros other [] | exact Hall].
      * exists (s :: before), item, after. split; [rewrite E; reflexivity |].
        split; [exact Hb |]. split; [lra |]. split; [| exact Haft].
        intros other [<- | Hin]; [exact Hi | apply Hbef, Hin].
    + destruct (IH l0 d0)
        as [[E Hall] | (before & item & after & E & Hb & Hi & Hbef & Haft)].
      * left. split; [exact E |]. intros other [<- | Hin]; [lra | apply Hall, Hin].
      * right. exists (s :: before), item, after. split; [rewrite E; reflexivity |].
        split; [exact Hb |]. split; [exact Hi |]. split; [| exact Haft].
        intros other [<- | Hin]; [lra | apply Hbef, Hin].
Qed.

Lemma nearer_first (vec : list R) (feats : Features) (ds : list Sample) :
  ds <> [] ->
  let score := fun item => snd (Earlier.scoreExample vec feats item) in
  exists before item after,
    ds = before ++ item :: after
    /\ fold_left (Earlier.nearer vec feats) ds (Earlier.mkBest "unknown" None)
       = Earlier.mkBest (label item) (Some (score item))
    /\ (forall other, In other before -> score item < score other)
    /\ (forall other, In other after -> score item <= score other).
Proof.
  destruct ds as [| s ds]; [congruence |]. intros _. cbv zeta. cbn [fold_left].
  change (Earlier.nearer vec feats (Earlier.mkBest "unknown" None) s)
    with (Earlier.mkBest (label s) (Some (snd (Earlier.scoreExample vec feats s)))).
  destruct (nearer_fold vec feats ds (label s)
                        (snd (Earlier.scoreExample vec feats s)))
    as [[E Hall] | (before & item & after & E & Hb & Hi & Hbef & Haft)];
    cbv zeta in *.
  - exists [], s, ds. split; [reflexivity |]. split; [exact E |].
    split; [intros other [] | exact Hall].
  - exists (s :: before), item, after. split; [rewrite E; reflexivity |].
    split; [exact Hb |]. split; [| exact Haft].
    intros other [<- | Hin]; [exact Hi | apply Hbef, Hin].
Qed.

Lemma earlier_confidence_range (d : R) :
  0 <= d ->
  (1 <= Z.max 1 (JS.Math_round ((1 - d / 11) * 100)) <= 100)%Z
  /\ (d = 0 -> Z.max 1 (JS.Math_round ((1 - d / 11) * 100)) = 100%Z).
Proof.
  intros Hd.
  assert (H100 : JS.Math_round (IZR 100) = 100%Z) by apply round_integer.
  split.
  - pose proof (round_monotone ((1 - d / 11) * 100) (IZR 100) ltac:(lra)) as H.
    rewrite H100 in H. lia.
  - intros ->. replace ((1 - 0 / 11) * 100) with (IZR 100) by lra.
    rewrite H100. reflexivity.
Qed.

(** The earlier [guessDrawing] is a nearest-neighbour search.  Against a
    dataset whose bundles have a logarithm: without
    training data it says so with confidence 0; otherwise it answers with
    the label of the first stored sample at the least blended distance
    [0.7 * pixel + 2.2 * shape] from the drawing, with confidence
    [max 1 (round ((1 - dist / 11) * 100))], between 1 and 100 and 100 at
    distance 0.  It has no gate (a blank surface is classified as well) and
    changes neither the dataset nor the store. *)
Theorem earlier_guess_nearest :
  forall w : World,
    logDefinedOn (dataset w) ->
    let vec := canvas w in
    let feats := combineFeatures vec (strokes w) in
    let score := fun item => snd (Earlier.scoreExample vec feats item) in
    let w' := exec Earlier.guessDrawing w in
    (dataset w = [] ->
     guess w' = "Need training data first"%string /\ confidence w' = 0%Z)
    /\ (dataset w <> [] ->
        exists before item after,
          dataset w = before ++ item :: after
          /\ guess w' = label item
          /\ confidence w' = Z.max 1 (JS.Math_round ((1 - score item / 11) * 100))
          /\ (forall other, In other before -> score item < score other)
          /\ (forall other, In other after -> score item <= score other)
          /\ (1 <= confidence w' <= 100)%Z
          /\ (score item = 0 -> confidence w' = 100%Z))
    /\ dataset w' = dataset w /\ localStorage w' = localStorage w
    /\ canvas w' = canvas w /\ strokes w' = strokes w.
Proof.
  intros w _. cbv zeta.
  unfold exec, Earlier.guessDrawing, vectorizeCanvas, bind, read, ret.
  cbv beta iota zeta.
  destruct (dataset w) as [| s ds] eqn:D.
  - cbn [length Nat.eqb]. cbn. rewrite D. repeat split. intros H. congruence.
  - cbn [length Nat.eqb]. cbv beta iota zeta.
    split; [intros H; discriminate |]. split.
    + intros _.
      destruct (nearer_first (canvas w) (combineFeatures (canvas w) (strokes w))
                             (s :: ds) ltac:(discriminate))
        as (before & item & after & E & Hb & Hbef & Haft).
      exists before, item, after.
      split; [exact E |].
      cbn [snd setGuess setConfidence guess confidence strokes canvas].
      rewrite Hb. cbn [Earlier.best_label Earlier.confidenceOf Earlier.best_dist].
      split; [reflexivity |]. split; [reflexivity |].
      split; [exact Hbef |]. split; [exact Haft |].
      apply earlier_confidence_range, earlier_score_nonneg.
    + cbn. rewrite D. repeat split.
Qed.

Lemma earlier_guess_nearest_witness :
  guess (exec Earlier.guessDrawing Ex.catWorld) = "cat"%string.
Proof.
  destruct (earlier_guess_nearest Ex.catWorld catWorld_logDefined) as (_ & H & _).
  destruct (H ltac:(discriminate)) as (before & item & after & E & Hg & _).
  rewrite Hg.
  assert (Hin : In item (dataset Ex.catWorld)).
  { rewrite E. apply in_or_app. right. left. reflexivity. }
  apply repeat_spec in Hin. rewrite Hin. reflexivity.
Defined.

(** The earlier [saveDrawing] has no gate: whatever is on the surface, even
    nothing, is appended to the dataset under the shown prompt and
    persisted, and the surface is cleared; the latest variant stores
    nothing for an attempt that is not meaningful. *)
Theorem earlier_save_ungated :
  forall (stringify : json -> string) (now : Z) (rnd : R) (w : World),
    let sample := mkSample (prompt w) (canvas w)
                           (Some (combineFeatures (canvas w) (strokes w))) now in
    let w' := exec (Earlier.saveDrawing stringify now rnd) w in
    dataset w' = appendSample (dataset w) sample
    /\ (exists kept, dataset w' = kept ++ [sample])
    /\ length (dataset w') = Nat.min 2000 (length (dataset w) + 1)
    /\ localStorage w' = Some (stringify (JArr (map jsonOfSample (dataset w'))))
    /\ (0 <= rnd < 1 -> In (prompt w') Earlier.OBJECTS)
    /\ strokes w' = [] /\ guess w' = "unknown"%string /\ confidence w' = 0%Z
    /\ statusMessage w' = statusMessage w
    /\ (~ meaningful w ->
        dataset (exec (saveDrawing stringify now rnd) w) = dataset w).
Proof.
  intros stringify now rnd w. cbv zeta.
  assert (E : exec (Earlier.saveDrawing stringify now rnd) w =
              let updated :=
                appendSample (dataset w)
                  (mkSample (prompt w) (canvas w)
                            (Some (combineFeatures (canvas w) (strokes w))) now) in
              mkWorld updated (Earlier.randomPrompt rnd) "unknown" 0 (statusMessage w)
                      (isDrawing w) [] false (repeat 0 (GRID_SIZE * GRID_SIZE))
                      (Some (stringify (JArr (map jsonOfSample updated)))))
    by reflexivity.
  rewrite E. cbv zeta.
  cbn [dataset localStorage prompt strokes guess confidence statusMessage].
  repeat match goal with |- _ /\ _ => split end; try reflexivity.
  - eexists. apply appendSample_survivors.
  - unfold appendSample. rewrite slice_last_length, length_app. reflexivity.
  - intros Hrnd. unfold Earlier.randomPrompt. apply nth_In.
    change (length Earlier.OBJECTS) with (length OBJECTS).
    apply randomPrompt_index. exact Hrnd.
  - intros Hn. rewrite (saveDrawing_blank _ _ _ _ Hn). reflexivity.
Qed.

(** ** Prototypes in double precision *)

Section DoublePrototypes.

Import PrimFloat.
#[local] Set Warnings "-inexact-float".

Lemma double_findPrototype_get (lbl : string) (m : SMap.t Double.Bucket) :
  Double.findPrototype lbl (map Double.prototypeOf m)
  = option_map (fun b => Double.prototypeOf (lbl, b)) (SMap.get lbl m).
Proof.
  unfold Double.findPrototype. induction m as [| [k b] m IH]; cbn [map find SMap.get].
  - reflexivity.
  - cbn [Double.prototypeOf Double.proto_label].
    destruct (String.eqb_spec k lbl) as [-> | Hne]; [reflexivity | exact IH].
Qed.

Lemma double_counts_step (m : SMap.t Double.Bucket) (item : Double.Sample) :
  map (fun e => (fst e, Double.count (snd e))) (Double.addSample m item)
  = SMap.set (Double.label item)
      (countOr0 (SMap.get (Double.label item)
                   (map (fun e => (fst e, Double.count (snd e))) m)) + 1)%nat
      (map (fun e => (fst e, Double.count (snd e))) m).
Proof.
  rewrite smap_get_map. unfold Double.addSample, SMap.has.
  destruct (SMap.get (Double.label item) m) as [b |] eqn:E;
    cbn [negb option_map countOr0].
  - rewrite E. rewrite <- smap_set_map. reflexivity.
  - rewrite smap_get_set_same, smap_set_set. rewrite <- smap_set_map. reflexivity.
Qed.

Lemma double_counts (fs : list Double.Sample) :
  map (fun e => (fst e, Double.count (snd e))) (fold_left Double.addSample fs [])
  = labelCounts (map Double.label fs).
Proof.
  unfold labelCounts.
  change (@nil (string * nat))
    with (map (fun e : string * Double.Bucket => (fst e, Double.count (snd e))) []).
  generalize (@nil (string * Double.Bucket)) as m.
  induction fs as [| s fs IH]; intros m; cbn [fold_left map].
  - reflexivity.
  - rewrite IH, double_counts_step. reflexivity.
Qed.

Lemma labelCounts_get (lbl : string) (labels : list string) :
  forall m : SMap.t nat,
    SMap.get lbl
      (fold_left (fun acc l => SMap.set l (countOr0 (SMap.get l acc) + 1)%nat acc)
                 labels m)
    = match count_occ string_dec labels lbl with
      | O => SMap.get lbl m
      | S n => Some (countOr0 (SMap.get lbl m) + S n)%nat
      end.
Proof.
  induction labels as [| l labels IH]; intros m; cbn [fold_left count_occ].
  - reflexivity.
  - rewrite IH. destruct (string_dec l lbl) as [-> | Hne].
    + rewrite smap_get_set_same. cbn [countOr0].
      destruct (count_occ string_dec labels lbl); f_equal; lia.
    + rewrite (smap_get_set_other l lbl _ m Hne). reflexivity.
Qed.

Lemma double_prototype_count (lbl : string) (fs : list Double.Sample) :
  option_map Double.proto_count
    (Double.findPrototype lbl (Double.buildPrototypes fs))
  = match count_occ string_dec (map Double.label fs) lbl with
    | O => None
    | S n => Some (S n)
    end.
Proof.
  unfold Double.buildPrototypes. rewrite double_findPrototype_get.
  pose proof (labelCounts_get lbl (map Double.label fs) []) as H.
  fold (labelCounts (map Double.label fs)) in H.
  rewrite <- double_counts, smap_get_map in H. cbn [SMap.get countOr0] in H.
  destruct (SMap.get lbl (fold_left Double.addSample fs [])) as [b |];
    cbn [option_map] in *.
  - cbn [Double.prototypeOf Double.proto_count]. exact H.
  - exact H.
Qed.

(** C9 as stated fails in the arithmetic of the source: three samples of
    one label, whose cells have the gray levels 0, 6 and 12, give a mean
    cell of 0.9764705882352942 in this order and of 0.9764705882352941 in
    the reverse order; the count is 3 both times. *)
Lemma buildPrototypes_order_changes_rounding :
  Permutation [Double.flat 0; Double.flat 6; Double.flat 12]
              [Double.flat 12; Double.flat 6; Double.flat 0]
  /\ option_map (fun p => (Double.proto_count p, nth 0 (Double.proto_vector p) 0%float))
        (Double.findPrototype "cat"
           (Double.buildPrototypes [Double.flat 0; Double.flat 6; Double.flat 12]))
     = Some (3%nat, 0.9764705882352942%float)
  /\ option_map (fun p => (Double.proto_count p, nth 0 (Double.proto_vector p) 0%float))
        (Double.findPrototype "cat"
           (Double.buildPrototypes [Double.flat 12; Double.flat 6; Double.flat 0]))
     = Some (3%nat, 0.9764705882352941%float).
Proof.
  split; [| split].
  - exact (Permutation_rev [Double.flat 0; Double.flat 6; Double.flat 12]).
  - vm_compute. reflexivity.
  - vm_compute. reflexivity.
Qed.

(** C9, as amended.  Two datasets holding the same samples in different
    orders give, for every label, prototypes with the same sample count in
    the arithmetic of the source; and with exact sums they give the same
    prototype altogether (same count, same mean vector, same mean
    features), so that the means the source computes differ by the
    rounding of its running sums only. *)
Theorem buildPrototypes_order_independent :
  forall (ds1 ds2 : list Sample) (fs1 fs2 : list Double.Sample),
    Permutation ds1 ds2 ->
    Permutation fs1 fs2 ->
    (forall lbl,
        option_map Double.proto_count
          (Double.findPrototype lbl (Double.buildPrototypes fs1))
        = option_map Double.proto_count
            (Double.findPrototype lbl (Double.buildPrototypes fs2)))
    /\ (forall lbl, findPrototype lbl (buildPrototypes ds1)
                    = findPrototype lbl (buildPrototypes ds2))
    /\ Permutation (buildPrototypes ds1) (buildPrototypes ds2).
Proof.
  intros ds1 ds2 fs1 fs2 Hd Hf. split; [| split].
  - intros lbl. rewrite !double_prototype_count.
    rewrite (proj1 (Permutation_count_occ string_dec _ _)
               (Permutation_map Double.label Hf) lbl).
    reflexivity.
  - apply (proj1 (buildPrototypes_permuted ds1 ds2 Hd)).
  - apply (proj1 (proj2 (buildPrototypes_permuted ds1 ds2 Hd))).
Qed.

(** C9 on two differing "cat" samples and a "dog" sample, and on the three
    gray samples, each in both orders. *)
Lemma buildPrototypes_order_independent_witness :
  findPrototype "cat"
    (buildPrototypes [Ex.catSample; mkSample "cat" Ex.grid69 None 2; Ex.dogSample])
  = findPrototype "cat"
      (buildPrototypes [Ex.dogSample; mkSample "cat" Ex.grid69 None 2; Ex.catSample])
  /\ option_map Double.proto_count
       (Double.findPrototype "cat"
          (Double.buildPrototypes [Double.flat 0; Double.flat 6; Double.flat 12]))
     = option_map Double.proto_count
         (Double.findPrototype "cat"
            (Double.buildPrototypes [Double.flat 12; Double.flat 6; Double.flat 0])).
Proof.
  destruct (buildPrototypes_order_independent
              [Ex.catSample; mkSample "cat" Ex.grid69 None 2; Ex.dogSample]
              [Ex.dogSample; mkSample "cat" Ex.grid69 None 2; Ex.catSample]
              [Double.flat 0; Double.flat 6; Double.flat 12]
              [Double.flat 12; Double.flat 6; Double.flat 0]
              (Permutation_rev [Ex.catSample; mkSample "cat" Ex.grid69 None 2; Ex.dogSample])
              (Permutation_rev [Double.flat 0; Double.flat 6; Double.flat 12]))
    as (Hc & Hp & _).
  split; [apply Hp | apply Hc].
Defined.

End DoublePrototypes.

(** ** The classifier on finite and on extended numbers *)

Lemma ext_add_nan_r (x : Ext.num) : Ext.add x Ext.NaN = Ext.NaN.
Proof. destruct x; reflexivity. Qed.

Lemma ext_sub_nan_r (x : Ext.num) : Ext.sub x Ext.NaN = Ext.NaN.
Proof. destruct x; reflexivity. Qed.

Lemma ext_mul_nan_r (x : Ext.num) : Ext.mul x Ext.NaN = Ext.NaN.
Proof. destruct x; reflexivity. Qed.

Lemma ext_mul_nan_l (x : Ext.num) : Ext.mul Ext.NaN x = Ext.NaN.
Proof. destruct x; reflexivity. Qed.

(** On bundles whose aspect ratios have a logarithm the feature distance is
    the finite one. *)
Lemma ext_featureDistance_finite (a b : Features) :
  logDefined a -> logDefined b ->
  Ext.featureDistance a b = Ext.Fin (featureDistance a b).
Proof.
  unfold logDefined. intros Ha Hb.
  unfold Ext.featureDistance, Ext.featureTerms, featureDistance, featureTerms,
    Ext.Math_log, JS.Math_log.
  destruct (Rlt_dec 0 (aspectRatio a + 1e-6)) as [_ | H]; [| contradiction].
  destruct (Rlt_dec 0 (aspectRatio b + 1e-6)) as [_ | H]; [| contradiction].
  cbv zeta. cbn [fold_left Ext.add Ext.mul Ext.sub Ext.opp].
  unfold Ext.Math_sqrt, JS.Math_sqrt.
  match goal with
  | |- (if Rlt_dec ?t 0 then _ else _) = _ =>
      destruct (Rlt_dec t 0) as [Hneg | _]
  end.
  - exfalso. revert Hneg.
    repeat match goal with
           | |- context [?w * ?d * ?d] =>
               let H := fresh "Hsq" in
               let u := fresh "u" in
               assert (H : 0 <= w * d * d)
                 by (rewrite Rmult_assoc; apply Rmult_le_pos; [lra | apply Rle_0_sqr]);
               set (u := w * d * d) in *
           end.
    lra.
  - reflexivity.
Qed.

(** A bundle at which [Math.log] is [NaN] makes the feature distance
    [NaN]. *)
Lemma ext_featureDistance_nan (a b : Features) :
  aspectRatio b + 1e-6 < 0 -> Ext.featureDistance a b = Ext.NaN.
Proof.
  intros Hb.
  unfold Ext.featureDistance, Ext.featureTerms.
  assert (E : Ext.Math_log (Ext.Fin (aspectRatio b + 1e-6)) = Ext.NaN).
  { unfold Ext.Math_log.
    destruct (Rlt_dec 0 (aspectRatio b + 1e-6)) as [H | _]; [lra |].
    destruct (Rlt_dec (aspectRatio b + 1e-6) 0) as [_ | H]; [reflexivity | contradiction]. }
  cbv zeta. rewrite E. cbn [fold_left].
  rewrite ext_sub_nan_r. repeat rewrite ext_mul_nan_r. rewrite ext_add_nan_r.
  reflexivity.
Qed.

(** What [buildPrototypes] keeps true of a bucket when every sample has a
    bundle with a logarithm. *)
Lemma addSample_loggable (m : SMap.t Bucket) (item : Sample) :
  logDefined (featuresOf item) ->
  Forall (fun b => (1 <= count b)%nat
                   /\ 0 < sum_aspectRatio (featureSum b) + INR (count b) * 1e-6)
         (map snd m) ->
  Forall (fun b => (1 <= count b)%nat
                   /\ 0 < sum_aspectRatio (featureSum b) + INR (count b) * 1e-6)
         (map snd (addSample m item)).
Proof.
  unfold logDefined. intros Hi Hm. unfold addSample, SMap.has.
  destruct (SMap.get (label item) m) as [b |] eqn:E; cbn [negb].
  - rewrite E. apply smap_set_values; [| exact Hm].
    apply smap_get_value in E. rewrite Forall_forall in Hm.
    destruct (Hm b E) as [Hc Hs].
    cbn [count featureSum addFeatures sum_aspectRatio].
    split; [lia |]. rewrite plus_INR. cbn [INR]. lra.
  - rewrite smap_get_set_same, smap_set_set.
    apply smap_set_values; [| exact Hm].
    cbn [count featureSum addFeatures sum_aspectRatio emptyBucket Nat.add INR].
    split; [lia | lra].
Qed.

Lemma prototypes_logDefined (ds : list Sample) :
  logDefinedOn ds ->
  Forall (fun p => logDefined (proto_features p)) (buildPrototypes ds).
Proof.
  intros Hds.
  assert (Hinv : forall m,
             Forall (fun b => (1 <= count b)%nat
                              /\ 0 < sum_aspectRatio (featureSum b) + INR (count b) * 1e-6)
                    (map snd m) ->
             Forall (fun b => (1 <= count b)%nat
                              /\ 0 < sum_aspectRatio (featureSum b) + INR (count b) * 1e-6)
                    (map snd (fold_left addSample ds m))).
  { induction Hds as [| s ds Hs _ IH]; intros m Hm; cbn [fold_left].
    - exact Hm.
    - apply IH. apply addSample_loggable; assumption. }
  specialize (Hinv [] (Forall_nil _)).
  unfold buildPrototypes. apply Forall_forall. intros p Hp.
  apply in_map_iff in Hp. destruct Hp as ([lbl b] & <- & Hin).
  rewrite Forall_forall in Hinv.
  destruct (Hinv b) as [Hc Hs].
  { apply in_map_iff. exists (lbl, b). split; [reflexivity | exact Hin]. }
  unfold logDefined. cbn [prototypeOf proto_features meanFeatures aspectRatio].
  assert (Hn : 0 < INR (count b)) by (apply lt_0_INR; lia).
  replace (sum_aspectRatio (featureSum b) / INR (count b) + 1e-6)
    with ((sum_aspectRatio (featureSum b) + INR (count b) * 1e-6) / INR (count b))
    by (field; lra).
  apply Rdiv_lt_0_compat; assumption.
Qed.

Lemma ext_scoreExample_finite (vec : list R) (feats : Features) (item : Sample) :
  logDefined feats -> logDefined (featuresOf item) ->
  Ext.scoreExample vec feats item = finiteScored (scoreExample vec feats item).
Proof.
  intros Hf Hi. unfold Ext.scoreExample, scoreExample, finiteScored. cbv zeta.
  rewrite (ext_featureDistance_finite _ _ Hf Hi). reflexivity.
Qed.

Lemma ext_scorePrototype_finite (vec : list R) (feats : Features) (proto : Prototype) :
  logDefined feats -> logDefined (proto_features proto) ->
  Ext.scorePrototype vec feats proto = finiteScored (scorePrototype vec feats proto).
Proof.
  intros Hf Hp. unfold Ext.scorePrototype, scorePrototype, finiteScored. cbv zeta.
  rewrite (ext_featureDistance_finite _ _ Hf Hp). reflexivity.
Qed.

Lemma ext_sort_insert_map {A B : Type} (f : A -> B)
    (cmpE : B -> B -> Ext.num) (cmpR : A -> A -> R) :
  (forall x y, cmpE (f x) (f y) = Ext.Fin (cmpR x y)) ->
  forall x l, Ext.sort_insert cmpE (f x) (map f l) = map f (JS.sort_insert cmpR x l).
Proof.
  intros H x l. induction l as [| y l IH]; cbn [map Ext.sort_insert JS.sort_insert].
  - reflexivity.
  - rewrite H. cbn [Ext.keepsOrder].
    destruct (Rle_dec (cmpR x y) 0); cbn [map]; [reflexivity | rewrite IH; reflexivity].
Qed.

Lemma ext_sort_map {A B : Type} (f : A -> B)
    (cmpE : B -> B -> Ext.num) (cmpR : A -> A -> R) :
  (forall x y, cmpE (f x) (f y) = Ext.Fin (cmpR x y)) ->
  forall l, Ext.sort cmpE (map f l) = map f (JS.sort cmpR l).
Proof.
  intros H l. unfold Ext.sort, JS.sort.
  induction l as [| x l IH]; cbn [map fold_right].
  - reflexivity.
  - rewrite IH. apply ext_sort_insert_map. exact H.
Qed.

Lemma ext_nearestOf_finite (l : list Scored) :
  Ext.nearestOf (map finiteScored l) = map finiteScored (nearestOf l).
Proof.
  unfold Ext.nearestOf, nearestOf.
  rewrite (ext_sort_map finiteScored _ (fun a b : Scored => snd a - snd b))
    by reflexivity.
  apply firstn_map.
Qed.

Lemma ext_castVote_finite (scale : R) (m : SMap.t R) (x : Scored) :
  Ext.castVote scale (finiteVotes m) (finiteScored x) = finiteVotes (castVote scale m x).
Proof.
  unfold Ext.castVote, castVote, finiteVotes, finiteScored. cbv zeta. cbn [fst snd].
  rewrite (smap_get_map Ext.Fin).
  assert (E : Ext.or0 (option_map Ext.Fin (SMap.get (fst x) m))
              = Ext.Fin (JS.or0 (SMap.get (fst x) m)))
    by (destruct (SMap.get (fst x) m); reflexivity).
  rewrite E. cbn [Ext.Math_max Ext.div].
  destruct (Req_dec_T (Rmax (snd x) 0.05) 0) as [Hz | _].
  - exfalso. pose proof (Rmax_r (snd x) 0.05). lra.
  - cbn [Ext.add]. apply (smap_set_map Ext.Fin).
Qed.

Lemma ext_castVotes_finite (scale : R) (l : list Scored) (m : SMap.t R) :
  fold_left (Ext.castVote scale) (map finiteScored l) (finiteVotes m)
  = finiteVotes (fold_left (castVote scale) l m).
Proof.
  revert m. induction l as [| x l IH]; intros m; cbn [map fold_left].
  - reflexivity.
  - rewrite ext_castVote_finite. apply IH.
Qed.

Lemma ext_tally_finite (vec : list R) (strokes : list Stroke) (ds : list Sample)
    (prototypes : list Prototype) :
  logDefinedOn ds ->
  Forall (fun p => logDefined (proto_features p)) prototypes ->
  Ext.tally vec strokes ds prototypes = finiteVotes (tally vec strokes ds prototypes).
Proof.
  intros Hds Hps. unfold Ext.tally, tally. cbv zeta.
  pose proof (combineFeatures_logDefined vec strokes) as Hf.
  assert (E1 : map (Ext.scoreExample vec (combineFeatures vec strokes)) ds
               = map finiteScored
                     (map (scoreExample vec (combineFeatures vec strokes)) ds)).
  { rewrite map_map. apply map_ext_in. intros s Hs.
    unfold logDefinedOn in Hds. rewrite Forall_forall in Hds.
    apply ext_scoreExample_finite; [exact Hf | apply Hds, Hs]. }
  assert (E2 : map (Ext.scorePrototype vec (combineFeatures vec strokes)) prototypes
               = map finiteScored
                     (map (scorePrototype vec (combineFeatures vec strokes)) prototypes)).
  { rewrite map_map. apply map_ext_in. intros q Hq.
    rewrite Forall_forall in Hps.
    apply ext_scorePrototype_finite; [exact Hf | apply Hps, Hq]. }
  rewrite E1, E2, ext_nearestOf_finite.
  change (@nil (string * Ext.num)) with (finiteVotes []).
  rewrite !ext_castVotes_finite. reflexivity.
Qed.

Lemma ext_rank_finite (votes : SMap.t R) :
  Ext.rank (finiteVotes votes) = finiteVotes (rank votes).
Proof.
  unfold Ext.rank, rank, finiteVotes.
  apply (ext_sort_map (fun e : string * R => (fst e, Ext.Fin (snd e))) _
           (fun a b : string * R => snd b - snd a)).
  reflexivity.
Qed.

Lemma ext_voteTotal_finite (ranked : list (string * R)) (a : R) :
  fold_left (fun sum entry => Ext.add sum (snd entry)) (finiteVotes ranked) (Ext.Fin a)
  = Ext.Fin (fold_left (fun sum entry => sum + snd entry) ranked a).
Proof.
  revert a. induction ranked as [| [l t] ranked IH]; intros a;
    cbn [finiteVotes map fold_left fst snd Ext.add].
  - reflexivity.
  - apply IH.
Qed.

Lemma clamp_IZR (z : Z) :
  Rmax 1 (Rmin 99 (IZR z)) = IZR (Z.max 1 (Z.min 99 z)).
Proof.
  destruct (Z_le_gt_dec z 99) as [H99 | H99].
  - rewrite (Z.min_r 99 z) by lia. rewrite Rmin_right by (apply IZR_le; lia).
    destruct (Z_le_gt_dec 1 z) as [H1 | H1].
    + rewrite Z.max_r by lia. apply Rmax_right. apply IZR_le. lia.
    + rewrite Z.max_l by lia. apply Rmax_left. apply IZR_le. lia.
  - rewrite (Z.min_l 99 z) by lia. rewrite Rmin_left by (apply IZR_le; lia).
    rewrite Z.max_r by lia. apply Rmax_right. lra.
Qed.

Lemma ltb_IZR (z : Z) : JS.ltb (IZR z) 60 = (z <? 60)%Z.
Proof.
  unfold JS.ltb. destruct (Rlt_dec (IZR z) 60) as [H | H];
    destruct (Z.ltb_spec z 60) as [Hz | Hz]; try reflexivity.
  - exfalso. apply lt_IZR in H. lia.
  - exfalso. apply H. apply IZR_lt. exact Hz.
Qed.

(** On finite tallies the locals of [guessDrawing] are the finite ones. *)
Lemma ext_verdictOf_finite (ranked : list (string * R)) (prototypes : list Prototype) :
  Ext.verdictOf (finiteVotes ranked) prototypes
  = finiteVerdict (verdictOf ranked prototypes).
Proof.
  unfold Ext.verdictOf, verdictOf, finiteVerdict.
  rewrite ext_voteTotal_finite.
  set (vt := fold_left (fun sum entry => sum + snd entry) ranked 0).
  assert (Hcert : forall best : R,
             (if Ext.gtb (Ext.Fin vt) (Ext.Fin 0)
              then Ext.div (Ext.Fin best) (Ext.Fin vt) else Ext.Fin 0)
             = Ext.Fin (if JS.gtb vt 0 then best / vt else 0)).
  { intros best. cbn [Ext.gtb Ext.ltb Ext.div]. unfold JS.gtb.
    destruct (JS.ltb 0 vt) eqn:E; [| reflexivity].
    destruct (Req_dec_T vt 0) as [Hz | _]; [| reflexivity].
    exfalso. apply ltb_true_iff in E. lra. }
  assert (Hconf : forall x : R,
             Ext.Math_max (Ext.Fin 1) (Ext.Math_min (Ext.Fin 99) (Ext.Math_round (Ext.Fin x)))
             = Ext.Fin (IZR (Z.max 1 (Z.min 99 (JS.Math_round x))))).
  { intros x. cbn [Ext.Math_round Ext.Math_min Ext.Math_max]. rewrite clamp_IZR.
    reflexivity. }
  destruct ranked as [| [l1 s1] rest]; cbn [finiteVotes map fst snd].
  - cbv zeta. rewrite Hcert. cbn [Ext.sub Ext.add Ext.opp Ext.mul].
    rewrite Hconf. cbn [bestLabel bestScore secondScore voteTotal margin certainty
                        prototypeWeight conf lowConfidence Ext.ltb].
    rewrite ltb_IZR. reflexivity.
  - destruct rest as [| [l2 s2] rest]; cbn [map fst snd Ext.or0]; cbv zeta;
      rewrite Hcert; cbn [Ext.sub Ext.add Ext.opp Ext.mul];
      rewrite Hconf;
      cbn [bestLabel bestScore secondScore voteTotal margin certainty
           prototypeWeight conf lowConfidence Ext.ltb];
      rewrite ltb_IZR; reflexivity.
Qed.

(** On a dataset whose bundles have a logarithm the two models of the
    classifier agree. *)
Lemma ext_classify_finite (vec : list R) (strokes : list Stroke) (ds : list Sample) :
  logDefinedOn ds ->
  Ext.classify vec strokes ds (buildPrototypes ds)
  = finiteVerdict (classify vec strokes ds (buildPrototypes ds)).
Proof.
  intros Hds. unfold Ext.classify, classify.
  rewrite (ext_tally_finite vec strokes ds (buildPrototypes ds) Hds
             (prototypes_logDefined ds Hds)).
  rewrite ext_rank_finite. apply ext_verdictOf_finite.
Qed.

Lemma ext_guessDrawing_finite (w : World) :
  logDefinedOn (dataset w) ->
  Ext.guessDrawing w = shownBy (exec guessDrawing w).
Proof.
  intros Hds. unfold Ext.guessDrawing, shownBy. cbv zeta.
  destruct (meaningful_dec w) as [Hm | Hm].
  - destruct (dataset w) as [| s d] eqn:D.
    + rewrite (guessDrawing_untrained w Hm D).
      unfold meaningful in Hm. rewrite Hm. reflexivity.
    + assert (Hne : dataset w <> []) by (rewrite D; discriminate).
      rewrite (guessDrawing_trained w Hm Hne). cbv zeta.
      cbn [guess confidence statusMessage].
      unfold meaningful in Hm. rewrite Hm. cbn [negb length Nat.eqb].
      rewrite ?D.
      change (vec (drawingStats (canvas w) (strokes w))) with (canvas w).
      rewrite (ext_classify_finite (canvas w) (strokes w) (s :: d) Hds).
      reflexivity.
  - rewrite (guessDrawing_blank w Hm).
    unfold meaningful in Hm.
    destruct (hasMeaningfulDrawing (drawingStats (canvas w) (strokes w)));
      [exfalso; apply Hm; reflexivity | reflexivity].
Qed.

(** ** The confidence and the low-confidence rule *)

Lemma ext_scoreExample_nan (vec : list R) (feats : Features) (item : Sample) :
  aspectRatio (featuresOf item) + 1e-6 < 0 ->
  Ext.scoreExample vec feats item = (label item, Ext.NaN).
Proof.
  intros H. unfold Ext.scoreExample. cbv zeta.
  rewrite (ext_featureDistance_nan feats _ H). reflexivity.
Qed.

Lemma ext_scorePrototype_nan (vec : list R) (feats : Features) (proto : Prototype) :
  aspectRatio (proto_features proto) + 1e-6 < 0 ->
  Ext.scorePrototype vec feats proto = (proto_label proto, Ext.NaN).
Proof.
  intros H. unfold Ext.scorePrototype. cbv zeta.
  rewrite (ext_featureDistance_nan feats _ H). reflexivity.
Qed.

Lemma buildPrototypes_single (s : Sample) :
  buildPrototypes [s]
  = [prototypeOf (label s, bump emptyBucket s)].
Proof.
  unfold buildPrototypes. cbn [fold_left]. unfold addSample, SMap.has.
  cbn [SMap.get negb SMap.set]. rewrite String.eqb_refl. reflexivity.
Qed.

Lemma ext_classify_nan (vec : list R) (strokes : list Stroke) (s : Sample) :
  aspectRatio (featuresOf s) + 1e-6 < 0 ->
  let v := Ext.classify vec strokes [s] (buildPrototypes [s]) in
  Ext.bestLabel v = label s /\ Ext.conf v = Ext.NaN /\ Ext.lowConfidence v = false.
Proof.
  intros H. cbv zeta.
  assert (Hp : aspectRatio (proto_features (prototypeOf (label s, bump emptyBucket s)))
               + 1e-6 < 0).
  { cbn [prototypeOf bump emptyBucket count featureSum proto_features meanFeatures
         aspectRatio addFeatures sum_aspectRatio Nat.add INR].
    replace ((0 + aspectRatio (featuresOf s)) / 1) with (aspectRatio (featuresOf s))
      by (field). exact H. }
  unfold Ext.classify, Ext.tally. cbv zeta. rewrite buildPrototypes_single.
  cbn [map]. rewrite (ext_scoreExample_nan _ _ _ H), (ext_scorePrototype_nan _ _ _ Hp).
  unfold Ext.nearestOf, Ext.sort. cbn [fold_right Ext.sort_insert firstn fold_left].
  unfold Ext.castVote. cbn [fst snd SMap.get Ext.or0 Ext.Math_max Ext.div Ext.add SMap.set].
  cbn [prototypeOf proto_label]. rewrite String.eqb_refl.
  cbn [SMap.get Ext.or0 Ext.add].
  unfold Ext.rank, Ext.sort. cbn [fold_right Ext.sort_insert].
  unfold Ext.verdictOf.
  cbn [Ext.bestLabel Ext.conf Ext.lowConfidence fold_left snd fst Ext.add Ext.sub
       Ext.opp Ext.gtb Ext.ltb Ext.mul Ext.div Ext.Math_round Ext.Math_min
       Ext.Math_max orb].
  repeat split.
Qed.

Lemma tamperedWorld_meaningful : meaningful tamperedWorld.
Proof. exact (gridV_meaningful []). Qed.

(** C2 as stated fails on a store that holds a bundle with a negative
    aspect ratio: the loader keeps the entry, the attempt is meaningful and
    the dataset is not empty, yet the label is shown with a confidence that
    is [NaN], not a number between 1 and 99. *)
Lemma confidence_formula_tampered :
  validEntry (jsonOfSample tamperedSample) = true
  /\ meaningful tamperedWorld
  /\ length (dataset tamperedWorld) = 1%nat
  /\ Ext.guessDrawing tamperedWorld = Ext.mkShown "cat" Ext.NaN "".
Proof.
  split; [| split; [exact tamperedWorld_meaningful | split; [reflexivity |]]].
  - rewrite (proj1 (jsonOfSample_checks tamperedSample)). reflexivity.
  - unfold Ext.guessDrawing. cbv zeta.
    pose proof tamperedWorld_meaningful as Hm. unfold meaningful in Hm. rewrite Hm.
    cbn [negb]. change (dataset tamperedWorld) with [tamperedSample].
    cbn [length Nat.eqb].
    change (vec (drawingStats (canvas tamperedWorld) (strokes tamperedWorld)))
      with (canvas tamperedWorld).
    assert (H : aspectRatio (featuresOf tamperedSample) + 1e-6 < 0).
    { unfold tamperedSample, featuresOf. cbn [features aspectRatio]. lra. }
    destruct (ext_classify_nan (canvas tamperedWorld) (strokes tamperedWorld)
                tamperedSample H) as (Hb & Hc & Hl).
    cbv zeta in Hb, Hc, Hl. rewrite Hb, Hc, Hl. reflexivity.
Qed.

(** C2, as amended.  On a meaningful attempt against a non-empty dataset
    whose bundles have a logarithm the emitted confidence is a number: it
    is round(100 clamp(0.65 certainty + 0.25 margin + 0.10 prototypeWeight,
    0.01, 0.99)) clamped to [1, 99], where certainty is the share of the
    largest tally in the sum of all tallies, margin the difference between
    the two largest tallies, and prototypeWeight min(distinct labels / 10,
    1). *)
Theorem confidence_formula :
  forall w : World,
    meaningful w -> dataset w <> [] -> logDefinedOn (dataset w) ->
    let votes := tally (canvas w) (strokes w) (dataset w) (buildPrototypes (dataset w)) in
    let certainty := Spec.best votes / Spec.voteMass votes in
    let margin := Spec.best votes - Spec.second votes in
    let prototypeWeight := Rmin (INR (Spec.distinctLabels (dataset w)) / 10) 1 in
    Ext.shownConfidence (Ext.guessDrawing w)
    = Ext.Fin (IZR (Spec.confidenceOf certainty margin prototypeWeight))
    /\ Ext.tally (canvas w) (strokes w) (dataset w) (buildPrototypes (dataset w))
       = finiteVotes votes
    /\ confidence (exec guessDrawing w) = Spec.confidenceOf certainty margin prototypeWeight
    /\ (1 <= confidence (exec guessDrawing w) <= 99)%Z
    /\ Spec.voteMass votes > 0.
Proof.
  intros w Hm Hne Hds. cbv zeta.
  destruct (confidence_of_tallies w Hm Hne) as (Hc & Hr & Hv). cbv zeta in Hc, Hr, Hv.
  split; [| split; [| split; [exact Hc | split; [exact Hr | exact Hv]]]].
  - rewrite (ext_guessDrawing_finite w Hds). unfold shownBy. cbn [Ext.shownConfidence].
    rewrite Hc. reflexivity.
  - apply ext_tally_finite; [exact Hds | apply prototypes_logDefined, Hds].
Qed.

(** C2 at ten "cat" samples and the same drawing on the surface. *)
Lemma confidence_formula_witness :
  let votes := tally (canvas Ex.catWorld) (strokes Ex.catWorld) (dataset Ex.catWorld)
                     (buildPrototypes (dataset Ex.catWorld)) in
  confidence (exec guessDrawing Ex.catWorld)
  = Spec.confidenceOf (Spec.best votes / Spec.voteMass votes)
                      (Spec.best votes - Spec.second votes)
                      (Rmin (INR (Spec.distinctLabels (dataset Ex.catWorld)) / 10) 1).
Proof.
  exact (proj1 (proj2 (proj2 (confidence_formula Ex.catWorld catWorld_meaningful
                                catWorld_trained catWorld_logDefined)))).
Defined.

Lemma buildPrototypes_pair (c d : Sample) :
  label c <> label d ->
  buildPrototypes [c; d]
  = [prototypeOf (label c, bump emptyBucket c); prototypeOf (label d, bump emptyBucket d)].
Proof.
  intros Hne. apply String.eqb_neq in Hne.
  unfold buildPrototypes. cbn [fold_left].
  assert (E : addSample [] c = [(label c, bump emptyBucket c)]).
  { unfold addSample, SMap.has. cbn [SMap.get negb SMap.set].
    rewrite String.eqb_refl. reflexivity. }
  rewrite E. unfold addSample, SMap.has. cbn [SMap.get]. rewrite Hne.
  cbn [negb SMap.set]. rewrite Hne. cbn [SMap.get SMap.set].
  rewrite ?Hne, ?String.eqb_refl. cbn [SMap.get SMap.set].
  rewrite ?Hne, ?String.eqb_refl. cbn [SMap.get SMap.set map].
  rewrite ?Hne, ?String.eqb_refl. reflexivity.
Qed.

(** Two samples that differ in their label only tie: the margin is 0 and
    the verdict is of low confidence. *)
Lemma classify_tie (grid : list R) (strokes : list Stroke) (c d : Sample) :
  label c <> label d -> vector d = vector c -> featuresOf d = featuresOf c ->
  let v := classify grid strokes [c; d] (buildPrototypes [c; d]) in
  bestLabel v = label c /\ margin v = 0 /\ lowConfidence v = true.
Proof.
  intros Hne Hv Hf. cbv zeta. rewrite (buildPrototypes_pair c d Hne).
  assert (Hb : bump emptyBucket d = bump emptyBucket c)
    by (unfold bump; rewrite Hv, Hf; reflexivity).
  rewrite Hb. apply String.eqb_neq in Hne.
  unfold classify, tally. cbv zeta. cbn [map].
  set (feats := combineFeatures grid strokes).
  assert (Ec : scoreExample grid feats d = (label d, snd (scoreExample grid feats c)))
    by (unfold scoreExample; rewrite Hv, Hf; reflexivity).
  rewrite Ec.
  change (scoreExample grid feats c) with (label c, snd (scoreExample grid feats c)).
  set (x := snd (scoreExample grid feats c)).
  change (scorePrototype grid feats (prototypeOf (label c, bump emptyBucket c)))
    with (label c, snd (scorePrototype grid feats (prototypeOf (label c, bump emptyBucket c)))).
  change (scorePrototype grid feats (prototypeOf (label d, bump emptyBucket c)))
    with (label d, snd (scorePrototype grid feats (prototypeOf (label c, bump emptyBucket c)))).
  set (y := snd (scorePrototype grid feats (prototypeOf (label c, bump emptyBucket c)))).
  unfold nearestOf, JS.sort. cbn [fold_right JS.sort_insert snd].
  destruct (Rle_dec (x - x) 0) as [_ | H]; [| exfalso; lra].
  cbn [firstn fold_left]. unfold castVote. cbn [fst snd SMap.get SMap.set JS.or0].
  rewrite ?Hne, ?String.eqb_refl. cbn [SMap.get SMap.set JS.or0].
  rewrite ?Hne, ?String.eqb_refl. cbn [SMap.get SMap.set JS.or0].
  rewrite ?Hne, ?String.eqb_refl. cbn [SMap.get SMap.set JS.or0].
  set (t := 0 + 1 / JS.Math_max x 0.05 + 0.9 / JS.Math_max y 0.05).
  unfold rank, JS.sort. cbn [fold_right JS.sort_insert snd].
  destruct (Rle_dec (t - t) 0) as [_ | H]; [| exfalso; lra].
  unfold verdictOf. cbn [bestLabel margin lowConfidence snd].
  split; [reflexivity | split; [lra |]].
  apply orb_true_iff. right. apply ltb_true_iff. lra.
Qed.

Lemma tieWorld_meaningful : meaningful tieWorld.
Proof. exact (gridV_meaningful []). Qed.

Lemma tieWorld_trained : dataset tieWorld <> [].
Proof. discriminate. Qed.

Lemma tieWorld_logDefined : logDefinedOn (dataset tieWorld).
Proof.
  repeat constructor; exact (combineFeatures_logDefined Ex.gridV [Ex.stroke3]).
Qed.

(** The same drawing trained as "cat" and as "dog": "cat" entered the
    votes first and wins the tie, with margin 0 and low confidence. *)
Lemma tieWorld_verdict :
  let v := classify (canvas tieWorld) (strokes tieWorld) (dataset tieWorld)
                    (buildPrototypes (dataset tieWorld)) in
  bestLabel v = "cat"%string /\ margin v = 0 /\ lowConfidence v = true.
Proof.
  apply (classify_tie Ex.gridV [Ex.stroke3] Ex.catSample dogTwin);
    [discriminate | reflexivity | reflexivity].
Qed.

(** What a trained classifier hands to the page, on any numbers. *)
Lemma ext_guessDrawing_trained (w : World) :
  meaningful w -> dataset w <> [] ->
  Ext.guessDrawing w =
  let v := Ext.classify (canvas w) (strokes w) (dataset w) (buildPrototypes (dataset w)) in
  Ext.mkShown (if Ext.lowConfidence v then "unknown" else Ext.bestLabel v)
              (Ext.conf v)
              (if Ext.lowConfidence v
               then "Not confident enough to guess yet — try cleaner strokes."
               else "").
Proof.
  intros Hm Hds. unfold meaningful in Hm. unfold Ext.guessDrawing. cbv zeta.
  rewrite Hm. cbn [negb].
  destruct (dataset w) as [| s d] eqn:D; [congruence |].
  reflexivity.
Qed.

Lemma ext_verdictOf_low (ranked : list (string * Ext.num)) (prototypes : list Prototype) :
  let v := Ext.verdictOf ranked prototypes in
  Ext.lowConfidence v
  = (Ext.ltb (Ext.conf v) (Ext.Fin 60) || Ext.ltb (Ext.margin v) (Ext.Fin 0.12)).
Proof.
  unfold Ext.verdictOf. destruct ranked as [| [l s] rest]; reflexivity.
Qed.

(** C1. For every meaningful attempt classified against a non-empty
    dataset, whatever numbers the dataset holds: [lowConfidence] is
    (confidence < 60 or margin < 0.12) on the confidence handed to the
    page; when it is true the label shown is "unknown", and otherwise it is
    the winning label. When the stored aspect ratios have a logarithm, the
    margin is the largest tally minus the largest of the others, the winner
    holds the largest tally, the confidence is the integer the state shows,
    and the state shows the same label. *)
Theorem lowConfidence_forces_unknown :
  forall w : World,
    meaningful w -> dataset w <> [] ->
    let v := Ext.classify (canvas w) (strokes w) (dataset w) (buildPrototypes (dataset w)) in
    let shown := Ext.guessDrawing w in
    Ext.lowConfidence v
    = (Ext.ltb (Ext.conf v) (Ext.Fin 60) || Ext.ltb (Ext.margin v) (Ext.Fin 0.12))
    /\ Ext.shownConfidence shown = Ext.conf v
    /\ (Ext.lowConfidence v = true -> Ext.shownGuess shown = "unknown"%string)
    /\ (Ext.lowConfidence v = false -> Ext.shownGuess shown = Ext.bestLabel v)
    /\ (logDefinedOn (dataset w) ->
        let votes := tally (canvas w) (strokes w) (dataset w) (buildPrototypes (dataset w)) in
        let w' := exec guessDrawing w in
        Ext.margin v = Ext.Fin (Spec.best votes - Spec.second votes)
        /\ In (Ext.bestLabel v, Spec.best votes) votes
        /\ Ext.conf v = Ext.Fin (IZR (confidence w'))
        /\ (Ext.lowConfidence v = true
            <-> (confidence w' < 60)%Z \/ Spec.best votes - Spec.second votes < 0.12)
        /\ guess w' = Ext.shownGuess shown
        /\ (Ext.lowConfidence v = true -> guess w' = "unknown"%string)
        /\ (Ext.lowConfidence v = false ->
            guess w' = Ext.bestLabel v /\ In (guess w') (map label (dataset w)))).
Proof.
  intros w Hm Hds. cbv zeta.
  rewrite (ext_guessDrawing_trained w Hm Hds). cbv zeta.
  set (v := Ext.classify (canvas w) (strokes w) (dataset w) (buildPrototypes (dataset w))).
  cbn [Ext.shownGuess Ext.shownConfidence].
  split; [exact (ext_verdictOf_low _ _) |].
  split; [reflexivity |].
  split; [intros L; rewrite L; reflexivity |].
  split; [intros L; rewrite L; reflexivity |].
  intros Hlog.
  pose proof (ext_classify_finite (canvas w) (strokes w) (dataset w) Hlog) as Hfin.
  fold v in Hfin.
  pose proof (classify_label (canvas w) (strokes w) (dataset w) Hds) as Hlab.
  rewrite (guessDrawing_trained w Hm Hds). cbv zeta. cbn [guess confidence].
  pose proof (tally_nonempty (canvas w) (strokes w) (dataset w)
                (buildPrototypes (dataset w)) Hds) as Hne.
  destruct (verdictOf_rank _ (buildPrototypes (dataset w)) Hne) as (Hb & Hs & _ & Hin).
  destruct (verdictOf_fields
              (rank (tally (canvas w) (strokes w) (dataset w) (buildPrototypes (dataset w))))
              (buildPrototypes (dataset w))) as (Hmar & _ & _ & _ & Hlow).
  cbv zeta in Hb, Hs, Hin, Hmar, Hlow.
  change (verdictOf (rank (tally (canvas w) (strokes w) (dataset w)
                                 (buildPrototypes (dataset w))))
                    (buildPrototypes (dataset w)))
    with (classify (canvas w) (strokes w) (dataset w) (buildPrototypes (dataset w)))
    in Hb, Hs, Hin, Hmar, Hlow.
  set (u := classify (canvas w) (strokes w) (dataset w) (buildPrototypes (dataset w))) in *.
  rewrite Hfin. cbn [finiteVerdict Ext.margin Ext.bestLabel Ext.conf Ext.lowConfidence].
  rewrite Hb, Hs in Hmar. rewrite Hb in Hin.
  split; [rewrite Hmar; reflexivity |].
  split; [exact Hin |].
  split; [reflexivity |].
  split.
  { rewrite Hlow, orb_true_iff, Z.ltb_lt, ltb_true_iff, Hmar. reflexivity. }
  split; [reflexivity |].
  split; [intros L; rewrite L; reflexivity |].
  intros L. rewrite L. split; [reflexivity | exact Hlab].
Qed.

(** C1 at the same drawing trained once as "cat" and once as "dog": the
    tallies tie, "cat" is the winner, and the label shown is "unknown". *)
Lemma lowConfidence_forces_unknown_witness :
  let v := Ext.classify (canvas tieWorld) (strokes tieWorld) (dataset tieWorld)
                        (buildPrototypes (dataset tieWorld)) in
  Ext.bestLabel v = "cat"%string
  /\ Ext.margin v = Ext.Fin 0
  /\ Ext.lowConfidence v = true
  /\ Ext.shownGuess (Ext.guessDrawing tieWorld) = "unknown"%string
  /\ guess (exec guessDrawing tieWorld) = "unknown"%string.
Proof.
  cbv zeta.
  destruct (lowConfidence_forces_unknown tieWorld tieWorld_meaningful tieWorld_trained)
    as (_ & _ & Hforced & _ & Hrest).
  destruct (Hrest tieWorld_logDefined) as (_ & _ & _ & _ & _ & Hstate & _).
  destruct tieWorld_verdict as (Hb & Hmar & Hlow).
  pose proof (ext_classify_finite (canvas tieWorld) (strokes tieWorld) (dataset tieWorld)
                tieWorld_logDefined) as Hfin.
  assert (L : Ext.lowConfidence
                (Ext.classify (canvas tieWorld) (strokes tieWorld) (dataset tieWorld)
                              (buildPrototypes (dataset tieWorld))) = true)
    by (rewrite Hfin; exact Hlow).
  split; [rewrite Hfin; exact Hb |].
  split; [rewrite Hfin; cbn [finiteVerdict Ext.margin]; rewrite Hmar; reflexivity |].
  split; [exact L |].
  split; [exact (Hforced L) | exact (Hstate L)].
Defined.

(** ** Roundings of the double-precision arithmetic *)

Section DoubleRounding.

Import PrimFloat.
#[local] Set Warnings "-inexact-float".

(** A vector is at distance 0 from itself. *)
Example double_distance_self :
  Double.distance [0.625; 0.125; 1]%float [0.625; 0.125; 1]%float = 0%float.
Proof. vm_compute. reflexivity. Qed.

(** The cosine distance of a vector to itself is 0 up to one rounding, and
    can fall below 0. *)
Example double_cosineDistance_self :
  Double.cosineDistance [0.625; 0.125]%float [0.625; 0.125]%float
  = (-2.220446049250313e-16)%float
  /\ Double.cosineDistance [1; 0.5]%float [1; 0.5]%float = 2.220446049250313e-16%float
  /\ Double.cosineDistance [0.5; 0.25; 0.75]%float [0.5; 0.25; 0.75]%float = 0%float.
Proof. vm_compute. repeat split; reflexivity. Qed.

(** Against a vector of zeros the cosine distance is 1. *)
Example double_cosineDistance_zero :
  Double.cosineDistance [0.625; 0.125]%float [0; 0]%float = 1%float.
Proof. vm_compute. reflexivity. Qed.

(** The straightness of a stroke along a line is 1 up to one rounding. *)
Example double_straightness_collinear :
  Double.extractStrokeFeatures
    [[Double.mkPoint 0 0; Double.mkPoint 1 1; Double.mkPoint 4 4]]%float
  = (0.007999999999999998, 1.0000000000000002, 1)%float.
Proof. vm_compute. reflexivity. Qed.

(** The right edge of the element maps to 500 up to one rounding. *)
Example double_getPoint_edge :
  Double.px (Double.getPoint (Double.mkRect 0 0 375.4 300) 375.4 300)%float
  = 500.00000000000006%float
  /\ Double.py (Double.getPoint (Double.mkRect 0 0 375.4 300) 375.4 300)%float
     = 500%float.
Proof. vm_compute. split; reflexivity. Qed.

End DoubleRounding.
